(** * NT106 traffic layer: load balancer, TCP relay and message router

    A shallow embedding of [core/load_balancer.py] and
    [core/tcp_messenger.py].  Python objects that are shared and mutated in
    place (the [BackendServer] instances held in [self.backends]) are
    identified by their position in the pool: a "reference" is an index into
    [backends], and every mutation rewrites the pool at that index.  Python
    integers are [Z]; [bytes] and decoded [str] values are lists of [Z]
    (byte values and code points). *)

From Stdlib Require Import ZArith.
From stdpp Require Import gmap strings list.

Local Open Scope Z_scope.

(** ** Python-level plumbing *)

Inductive exn : Type :=
  | ZeroDivisionError
  | ValueError
  | AttributeError
  | TypeError
  | UnicodeDecodeError
  | IndexError
  | JSONDecodeError
  | UnicodeEncodeError
  | OSError.

Inductive result (A : Type) : Type :=
  | Ret (a : A)
  | Raise (e : exn).
Arguments Ret {A} a.
Arguments Raise {A} e.

(** [datetime.now()] is read from the environment; a timestamp is opaque. *)
Definition timestamp : Type := Z.

(** ** core/load_balancer.py *)

(** [class BackendServer] *)
Record BackendServer : Type := mkBackend {
  host : string;
  port : Z;
  weight : Z;
  healthy : bool;
  connections : Z;
  total_requests : Z;
  failed_checks : Z;
  last_check : option timestamp
}.

(** [BackendServer.__init__] *)
Definition new_backend (h : string) (p w : Z) : BackendServer :=
  {| host := h; port := p; weight := w; healthy := true; connections := 0;
     total_requests := 0; failed_checks := 0; last_check := None |}.

Definition set_healthy (v : bool) (b : BackendServer) : BackendServer :=
  {| host := host b; port := port b; weight := weight b; healthy := v;
     connections := connections b; total_requests := total_requests b;
     failed_checks := failed_checks b; last_check := last_check b |}.

Definition set_connections (v : Z) (b : BackendServer) : BackendServer :=
  {| host := host b; port := port b; weight := weight b; healthy := healthy b;
     connections := v; total_requests := total_requests b;
     failed_checks := failed_checks b; last_check := last_check b |}.

Definition set_total_requests (v : Z) (b : BackendServer) : BackendServer :=
  {| host := host b; port := port b; weight := weight b; healthy := healthy b;
     connections := connections b; total_requests := v;
     failed_checks := failed_checks b; last_check := last_check b |}.

Definition set_failed_checks (v : Z) (b : BackendServer) : BackendServer :=
  {| host := host b; port := port b; weight := weight b; healthy := healthy b;
     connections := connections b; total_requests := total_requests b;
     failed_checks := v; last_check := last_check b |}.

Definition set_last_check (v : option timestamp) (b : BackendServer) : BackendServer :=
  {| host := host b; port := port b; weight := weight b; healthy := healthy b;
     connections := connections b; total_requests := total_requests b;
     failed_checks := failed_checks b; last_check := v |}.

(** [class LoadBalancer]: the pool, the cursor and the [stats] dictionary.
    The lock, the listening address and the [running] flag play no part in
    the sequential behaviour of one call. *)
Record LoadBalancer : Type := mkLB {
  backends : list BackendServer;
  current_backend_index : Z;
  stats_total_requests : Z;
  stats_total_failures : Z
}.

Definition new_load_balancer : LoadBalancer :=
  {| backends := []; current_backend_index := 0;
     stats_total_requests := 0; stats_total_failures := 0 |}.

Definition set_backends (bs : list BackendServer) (lb : LoadBalancer) : LoadBalancer :=
  {| backends := bs; current_backend_index := current_backend_index lb;
     stats_total_requests := stats_total_requests lb;
     stats_total_failures := stats_total_failures lb |}.

Definition set_current_backend_index (c : Z) (lb : LoadBalancer) : LoadBalancer :=
  {| backends := backends lb; current_backend_index := c;
     stats_total_requests := stats_total_requests lb;
     stats_total_failures := stats_total_failures lb |}.

Definition set_stats_total_requests (v : Z) (lb : LoadBalancer) : LoadBalancer :=
  {| backends := backends lb; current_backend_index := current_backend_index lb;
     stats_total_requests := v;
     stats_total_failures := stats_total_failures lb |}.

Definition set_stats_total_failures (v : Z) (lb : LoadBalancer) : LoadBalancer :=
  {| backends := backends lb; current_backend_index := current_backend_index lb;
     stats_total_requests := stats_total_requests lb;
     stats_total_failures := v |}.

(** In-place update of the object behind a reference. *)
Definition update_backend (ref : nat) (f : BackendServer -> BackendServer)
    (lb : LoadBalancer) : LoadBalancer :=
  set_backends (alter f ref (backends lb)) lb.

(** [LoadBalancer.add_backend] *)
Definition add_backend (h : string) (p w : Z) (lb : LoadBalancer) : LoadBalancer :=
  set_backends (backends lb ++ [new_backend h p w]) lb.

(** The pool with every object paired with its reference. *)
Definition enumerate {A : Type} (l : list A) : list (nat * A) :=
  zip (seq 0 (length l)) l.

(** [[b for b in self.backends if b.healthy]], as references. *)
Definition healthy_backends (bs : list BackendServer) : list (nat * BackendServer) :=
  filter (fun rb => healthy rb.2 = true) (enumerate bs).

(** The [for] loop building [weighted_list]: [[backend] * backend.weight] is
    empty for a weight that is zero or negative. *)
Definition weighted_list (hs : list (nat * BackendServer)) : list nat :=
  flat_map (fun rb => replicate (Z.to_nat (weight rb.2)) rb.1) hs.

(** [LoadBalancer.get_next_backend]: the value returned (a reference, [None],
    or the [ZeroDivisionError] of [% len(weighted_list)] on an empty
    expansion) and the balancer afterwards. *)
Definition get_next_backend (lb : LoadBalancer) : result (option nat) * LoadBalancer :=
  match backends lb with
  | [] => (Ret None, lb)
  | _ :: _ =>
      match healthy_backends (backends lb) with
      | [] => (Ret None, lb)
      | hs =>
          let wl := weighted_list hs in
          match wl with
          | [] => (Raise ZeroDivisionError, lb)
          | _ :: _ =>
              (Ret (wl !! Z.to_nat (current_backend_index lb `mod` Z.of_nat (length wl))),
               set_current_backend_index (current_backend_index lb + 1) lb)
          end
      end
  end.

(** Outcome of [requests.get(url, timeout=2)]. *)
Inductive probe : Type :=
  | ProbeStatus (status_code : Z)
  | ProbeException.

Definition probe_ok (p : probe) : bool :=
  match p with
  | ProbeStatus c => c =? 200
  | ProbeException => false
  end.

(** [LoadBalancer.check_health]: the backend object afterwards and the
    returned flag. *)
Definition check_health (backend : BackendServer) (p : probe) (now : timestamp)
    : BackendServer * bool :=
  if probe_ok p then
    (set_last_check (Some now) (set_failed_checks 0 (set_healthy true backend)), true)
  else
    let b1 := set_failed_checks (failed_checks backend + 1) backend in
    let b2 := if 3 <=? failed_checks b1 then set_healthy false b1 else b1 in
    (set_last_check (Some now) b2, false).

(** One pass of the [for] loop in [health_check_loop]; [probes r] is the
    outcome of the probe against the backend behind reference [r]. *)
Definition health_check_pass (lb : LoadBalancer) (probes : nat -> probe)
    (now : timestamp) : LoadBalancer :=
  set_backends (imap (fun r b => (check_health b (probes r) now).1) (backends lb)) lb.

(** ** Bytes and text

    [bytes] values are lists of byte values, [str] values lists of code
    points.  The functions below are the Python built-ins the request reader
    calls. *)
Definition bytes : Type := list Z.
Definition str : Type := list Z.

(** A literal, character by character. *)
Definition lit (s : string) : list Z :=
  (fun a => Z.of_N (Ascii.N_of_ascii a)) <$> String.list_ascii_of_string s.

Definition CRLF : list Z := [13; 10].
Definition CRLFCRLF : list Z := CRLF ++ CRLF.

(** [s.startswith(prefix)] *)
Fixpoint startswith (pre s : list Z) : bool :=
  match pre, s with
  | [], _ => true
  | _ :: _, [] => false
  | p :: pre', c :: s' => (p =? c) && startswith pre' s'
  end.

(** [s.find(sub)]; [None] stands for [-1]. *)
Fixpoint find (sub s : list Z) : option nat :=
  match s with
  | [] => if startswith sub [] then Some 0%nat else None
  | _ :: s' => if startswith sub s then Some 0%nat else S <$> find sub s'
  end.

(** [sub in s] *)
Definition contains (sub s : list Z) : bool :=
  match find sub s with Some _ => true | None => false end.

(** [s.split(sep)] for a non-empty separator: [skip] counts the characters
    of a separator found that are still to be passed over, [cur] holds the
    current field in reverse. *)
Fixpoint split_go (sep : list Z) (skip : nat) (cur s : list Z) : list (list Z) :=
  match s with
  | [] => [reverse cur]
  | c :: s' =>
      match skip with
      | S k => split_go sep k cur s'
      | O =>
          if startswith sep s
          then reverse cur :: split_go sep (length sep - 1) [] s'
          else split_go sep 0 (c :: cur) s'
      end
  end.

Definition split (sep s : list Z) : list (list Z) := split_go sep 0 [] s.

(** [str.isspace] for one character. *)
Definition isspace (c : Z) : bool :=
  ((9 <=? c) && (c <=? 13)) || ((28 <=? c) && (c <=? 32))
  || (c =? 133) || (c =? 160) || (c =? 5760)
  || ((8192 <=? c) && (c <=? 8202)) || (c =? 8232) || (c =? 8233)
  || (c =? 8239) || (c =? 8287) || (c =? 12288).

Fixpoint lstrip (s : str) : str :=
  match s with
  | c :: s' => if isspace c then lstrip s' else s
  | [] => []
  end.

(** [s.strip()] *)
Definition strip (s : str) : str := reverse (lstrip (reverse (lstrip s))).

(** The code points of the digit zero in every script that has decimal
    digits (Unicode 14.0, the table of CPython 3.11); in each script the
    digits 1 to 9 follow their zero. *)
Definition decimal_zeros : list Z :=
  [48; 1632; 1776; 1984; 2406; 2534; 2662; 2790; 2918; 3046; 3174; 3302; 3430; 3558;
   3664; 3792; 3872; 4160; 4240; 6112; 6160; 6470; 6608; 6784; 6800; 6992; 7088; 7232;
   7248; 42528; 43216; 43264; 43472; 43504; 43600; 44016; 65296; 66720; 68912; 69734;
   69872; 69942; 70096; 70384; 70736; 70864; 71248; 71360; 71472; 71904; 72016; 72784;
   73040; 73120; 92768; 92864; 93008; 120782; 120792; 120802; 120812; 120822; 123200;
   123632; 125264; 130032].

Fixpoint decimal_in (zeros : list Z) (c : Z) : option Z :=
  match zeros with
  | [] => None
  | z :: zeros' =>
      if (z <=? c) && (c <=? z + 9) then Some (c - z) else decimal_in zeros' c
  end.

(** The value of a character as a decimal digit, as [int] reads it. *)
Definition decimal_value (c : Z) : option Z := decimal_in decimal_zeros c.

(** Digits of [int(s)]: decimal digits of any script, a single underscore
    allowed between two digits.  [acc] is the value read so far, [digits]
    the number of digits read, [prev_digit] tells whether the previous
    character was a digit.  More than 4300 digits are refused (the default of
    [sys.get_int_max_str_digits], which the program does not change). *)
Fixpoint int_digits (acc digits : Z) (prev_digit : bool) (s : str) : option Z :=
  match s with
  | [] => if prev_digit && (digits <=? 4300) then Some acc else None
  | c :: s' =>
      match decimal_value c with
      | Some d => int_digits (10 * acc + d) (digits + 1) true s'
      | None =>
          if (c =? 95) && prev_digit then int_digits acc digits false s' else None
      end
  end.

(** [int(s)] on a stripped string; [None] is [ValueError].  A sign is one of
    the ASCII characters [+] and [-]. *)
Definition py_int (s : str) : option Z :=
  match s with
  | 43 :: s' => int_digits 0 0 false s'
  | 45 :: s' => Z.opp <$> int_digits 0 0 false s'
  | _ => int_digits 0 0 false s
  end.

Definition is_continuation (b : Z) : bool := (128 <=? b) && (b <? 192).

(** [data.decode('utf-8', errors='ignore')]: well-formed sequences become
    their code point; at an ill-formed sequence the decoder drops the bytes
    of its longest well-formed prefix (at least one byte) and resumes; a
    sequence cut short by the end of the data is dropped. *)
Fixpoint decode_ignore (data : bytes) : str :=
  match data with
  | [] => []
  | ch :: r1 =>
      if ch <? 128 then ch :: decode_ignore r1
      else if ch <? 194 then decode_ignore r1
      else if ch <? 224 then
        match r1 with
        | [] => []
        | c2 :: r2 =>
            if is_continuation c2
            then (Z.land ch 31 * 64 + Z.land c2 63) :: decode_ignore r2
            else decode_ignore r1
        end
      else if ch <? 240 then
        match r1 with
        | [] => []
        | c2 :: r2 =>
            if negb (is_continuation c2) || ((ch =? 224) && (c2 <? 160))
               || ((ch =? 237) && (160 <=? c2))
            then decode_ignore r1
            else
              match r2 with
              | [] => []
              | c3 :: r3 =>
                  if is_continuation c3
                  then (Z.land ch 15 * 4096 + Z.land c2 63 * 64 + Z.land c3 63)
                       :: decode_ignore r3
                  else decode_ignore r2
              end
        end
      else if ch <? 245 then
        match r1 with
        | [] => []
        | c2 :: r2 =>
            if negb (is_continuation c2) || ((ch =? 240) && (c2 <? 144))
               || ((ch =? 244) && (144 <=? c2))
            then decode_ignore r1
            else
              match r2 with
              | [] => []
              | c3 :: r3 =>
                  if negb (is_continuation c3) then decode_ignore r2
                  else
                    match r3 with
                    | [] => []
                    | c4 :: r4 =>
                        if is_continuation c4
                        then (Z.land ch 7 * 262144 + Z.land c2 63 * 4096
                              + Z.land c3 63 * 64 + Z.land c4 63)
                             :: decode_ignore r4
                        else decode_ignore r3
                    end
              end
        end
      else decode_ignore r1
  end.

(** ** The HTTP relay *)

(** What one [recv] on a socket yields: data (the empty chunk is
    end-of-stream), [socket.timeout], or another socket error.  A socket's
    future is a list of such events; once the list is used up the peer stays
    silent, which a socket with a timeout reports as [socket.timeout]. *)
Inductive recv_event : Type :=
  | RecvData (chunk : bytes)
  | RecvTimeout
  | RecvError.

(** The [for line in headers.split('\r\n')] loop of the request reader.  The
    result tells whether the loop was left through its [break]; [int] raising
    [ValueError], or a missing second field, ends the loop with the
    exception. *)
Fixpoint scan_content_length (lines : list str) (request_len headers_end : Z)
    : result bool :=
  match lines with
  | [] => Ret false
  | line :: rest =>
      if startswith (lit "Content-Length:") line then
        match split (lit ":") line !! 1%nat with
        | None => Raise IndexError
        | Some field =>
            match py_int (strip field) with
            | None => Raise ValueError
            | Some content_length =>
                let body_received := request_len - (headers_end + 4) in
                if content_length <=? body_received then Ret true
                else scan_content_length rest request_len headers_end
            end
        end
      else scan_content_length rest request_len headers_end
  end.

(** The test made on [request_data] after each chunk: [Ret true] when the
    [while True] loop is left through a [break], [Ret false] when it goes
    round again.  [find] giving a position is the test
    [b'\r\n\r\n' in request_data].  The [break] inside the [for] loop over the
    header lines leaves that loop only, so with a [Content-Length] header the
    reader always goes round again. *)
Definition reading_done (request_data : bytes) : result bool :=
  match find CRLFCRLF request_data with
  | Some headers_end =>
      let headers := decode_ignore (take headers_end request_data) in
      if contains (lit "Content-Length:") headers then
        match scan_content_length (split CRLF headers)
                (Z.of_nat (length request_data)) (Z.of_nat headers_end) with
        | Raise e => Raise e
        | Ret _ => Ret false
        end
      else Ret true
  | None => Ret false
  end.

(** The [while True] loop filling [request_data].  [Raise] is an exception
    that leaves the loop (it is caught by the handler's outer [except]);
    end-of-stream and [socket.timeout] leave it with what was read so far. *)
Fixpoint read_request (script : list recv_event) (request_data : bytes)
    : result bytes :=
  match script with
  | [] => Ret request_data
  | RecvTimeout :: _ => Ret request_data
  | RecvError :: _ => Raise OSError
  | RecvData chunk :: rest =>
      match chunk with
      | [] => Ret request_data
      | _ :: _ =>
          let request_data := request_data ++ chunk in
          match reading_done request_data with
          | Raise e => Raise e
          | Ret true => Ret request_data
          | Ret false => read_request rest request_data
          end
      end
  end.

(** How the connection to one backend behaves once it is selected. *)
Record backend_conn : Type := mkConn {
  connect_ok : bool;
  sendall_ok : bool;
  response : list recv_event
}.

(** The world around one call of [handle_http_connection]: what the client
    sends, whether each successive [client_socket.sendall] succeeds (all
    succeed once the list is used up), and how each backend answers. *)
Record http_env : Type := mkEnv {
  client_recv : list recv_event;
  client_sendall : list bool;
  backend_conn_of : nat -> backend_conn
}.

(** Socket calls that took effect, in order. *)
Inductive action : Type :=
  | ClientSend (data : bytes)
  | ClientClose
  | BackendConnect (ref : nat)
  | BackendSend (ref : nat) (data : bytes)
  | BackendClose (ref : nat).

Definition status_503 : bytes := lit "HTTP/1.1 503 Service Unavailable" ++ CRLFCRLF.
Definition status_502 : bytes := lit "HTTP/1.1 502 Bad Gateway" ++ CRLFCRLF.

(** One [client_socket.sendall]: whether it succeeds, and the outcomes left. *)
Definition client_send (outcomes : list bool) : bool * list bool :=
  match outcomes with
  | [] => (true, [])
  | ok :: outcomes' => (ok, outcomes')
  end.

(** The loop that copies the backend's answer to the client.  A silent
    backend makes [recv] time out (10 seconds), an exception like any other
    socket error. *)
Fixpoint relay_response (script : list recv_event) (outcomes : list bool)
    : bool * list bool * list action :=
  match script with
  | [] | RecvTimeout :: _ | RecvError :: _ => (false, outcomes, [])
  | RecvData response_data :: rest =>
      match response_data with
      | [] => (true, outcomes, [])
      | _ :: _ =>
          match client_send outcomes with
          | (false, outcomes') => (false, outcomes', [])
          | (true, outcomes') =>
              let '(ok, outcomes'', tr) := relay_response rest outcomes' in
              (ok, outcomes'', ClientSend response_data :: tr)
          end
      end
  end.

(** The body of the inner [try]: connect, count, forward the request, relay
    the answer, release the connection gauge.  The flag is [false] when an
    exception left the block. *)
Definition forward_request (lb : LoadBalancer) (ref : nat) (conn : backend_conn)
    (request_data : bytes) (outcomes : list bool)
    : bool * LoadBalancer * list bool * list action :=
  if connect_ok conn then
    let lb1 := update_backend ref (fun b => set_connections (connections b + 1) b) lb in
    let lb2 := update_backend ref (fun b => set_total_requests (total_requests b + 1) b) lb1 in
    let lb3 := set_stats_total_requests (stats_total_requests lb2 + 1) lb2 in
    if sendall_ok conn then
      let '(ok, outcomes', tr) := relay_response (response conn) outcomes in
      let lb4 :=
        if ok then update_backend ref (fun b => set_connections (connections b - 1) b) lb3
        else lb3 in
      (ok, lb4, outcomes', BackendConnect ref :: BackendSend ref request_data :: tr)
    else (false, lb3, outcomes, [BackendConnect ref])
  else (false, lb, outcomes, []).

(** [LoadBalancer.handle_http_connection] *)
Definition handle_http_connection (lb : LoadBalancer) (env : http_env)
    : LoadBalancer * list action :=
  match read_request (client_recv env) [] with
  | Raise _ => (lb, [ClientClose])
  | Ret [] => (lb, [ClientClose; ClientClose])
  | Ret request_data =>
      match get_next_backend lb with
      | (Raise _, lb1) => (lb1, [ClientClose])
      | (Ret None, lb1) =>
          match client_send (client_sendall env) with
          | (false, _) => (lb1, [ClientClose])
          | (true, _) =>
              (set_stats_total_failures (stats_total_failures lb1 + 1) lb1,
               [ClientSend status_503; ClientClose; ClientClose])
          end
      | (Ret (Some ref), lb1) =>
          match forward_request lb1 ref (backend_conn_of env ref) request_data
                  (client_sendall env) with
          | (true, lb2, _, tr) => (lb2, tr ++ [BackendClose ref; ClientClose])
          | (false, lb2, outcomes, tr) =>
              match client_send outcomes with
              | (false, _) => (lb2, tr ++ [BackendClose ref; ClientClose])
              | (true, _) =>
                  (set_stats_total_failures (stats_total_failures lb2 + 1)
                     (update_backend ref (set_healthy false) lb2),
                   tr ++ [ClientSend status_502; BackendClose ref; ClientClose])
              end
          end
      end
  end.

(** ** The TCP relay *)

Module TCP.

(** The dictionaries [{'host': .., 'port': .., 'healthy': True}] held by
    [TCPLoadBalancer.backends]. *)
Record TCPBackend : Type := mkTCPBackend {
  host : string;
  port : Z;
  healthy : bool
}.

(** [class TCPLoadBalancer] *)
Record TCPLoadBalancer : Type := mkTCPLB {
  backends : list TCPBackend;
  current_index : Z
}.

Definition new_load_balancer : TCPLoadBalancer :=
  {| backends := []; current_index := 0 |}.

(** [TCPLoadBalancer.add_backend] *)
Definition add_backend (h : string) (p : Z) (lb : TCPLoadBalancer) : TCPLoadBalancer :=
  {| backends := backends lb ++ [{| host := h; port := p; healthy := true |}];
     current_index := current_index lb |}.

(** [TCPLoadBalancer.get_next_backend]; the reference returned is the
    position [self.current_index % len(self.backends)] itself. *)
Definition get_next_backend (lb : TCPLoadBalancer) : option nat * TCPLoadBalancer :=
  match backends lb with
  | [] => (None, lb)
  | _ :: _ =>
      (Some (Z.to_nat (current_index lb `mod` Z.of_nat (length (backends lb)))),
       {| backends := backends lb; current_index := current_index lb + 1 |})
  end.

(** A socket object as seen by the relay: whether [close] was called on it,
    what its peer still has to say, whether the peer takes writes, and the
    chunks written to the peer so far.  These sockets have no timeout: with
    nothing left to read, [recv] blocks. *)
Record sock : Type := mkSock {
  closed : bool;
  incoming : list recv_event;
  writable : bool;
  delivered : list bytes
}.

Definition open_sock (script : list recv_event) (w : bool) : sock :=
  {| closed := false; incoming := script; writable := w; delivered := [] |}.

Definition close_sock (s : sock) : sock :=
  {| closed := true; incoming := incoming s; writable := writable s;
     delivered := delivered s |}.

Definition set_incoming (script : list recv_event) (s : sock) : sock :=
  {| closed := closed s; incoming := script; writable := writable s;
     delivered := delivered s |}.

Definition deliver (data : bytes) (s : sock) : sock :=
  {| closed := closed s; incoming := incoming s; writable := writable s;
     delivered := delivered s ++ [data] |}.

(** Where a thread running the nested function [forward] stands:
    [Receiving] is about to call [source.recv], [InRecv] is inside the call. *)
Inductive forward_pc : Type :=
  | NotStarted
  | Receiving
  | InRecv
  | Sending (data : bytes)
  | ClosingSource
  | ClosingDestination
  | Finished.

(** One socket call of [forward(source, destination)]; [None] when the
    thread cannot move (not started, finished, or blocked in [recv]).  An
    exception of [recv] or [sendall] is swallowed by the bare [except] and
    leads to the [finally] block like the [break] does.  Calling [recv] on a
    socket that is closed raises; a [recv] that was entered while the socket
    was open is not woken by a [close] from the other thread: it goes on
    waiting for what the peer sends, and blocks for good when the peer stays
    silent. *)
Definition forward_step (pc : forward_pc) (source destination : sock)
    : option (forward_pc * sock * sock) :=
  match pc with
  | NotStarted | Finished => None
  | Receiving =>
      if closed source then Some (ClosingSource, source, destination)
      else Some (InRecv, source, destination)
  | InRecv =>
      match incoming source with
      | [] => None
      | RecvData [] :: _ => Some (ClosingSource, source, destination)
      | RecvData data :: rest =>
          Some (Sending data, set_incoming rest source, destination)
      | _ :: rest => Some (ClosingSource, set_incoming rest source, destination)
      end
  | Sending data =>
      if closed destination || negb (writable destination)
      then Some (ClosingSource, source, destination)
      else Some (Receiving, source, deliver data destination)
  | ClosingSource => Some (ClosingDestination, close_sock source, destination)
  | ClosingDestination => Some (Finished, source, close_sock destination)
  end.

(** Where [handle_tcp_connection] stands once the backend is connected. *)
Inductive handler_pc : Type :=
  | StartT1
  | StartT2
  | JoinT1
  | JoinT2
  | Returned.

(** The handler thread, the two [forward] threads ([t1] copies client to
    backend, [t2] backend to client) and the two sockets they share. *)
Record relay : Type := mkRelay {
  handler : handler_pc;
  t1 : forward_pc;
  t2 : forward_pc;
  client_socket : sock;
  backend_socket : sock
}.

Inductive thread : Type := Handler | T1 | T2.

(** One step of one thread; [None] when that thread cannot move. *)
Definition step (who : thread) (r : relay) : option relay :=
  match who with
  | Handler =>
      match handler r with
      | StartT1 =>
          Some {| handler := StartT2; t1 := Receiving; t2 := t2 r;
                  client_socket := client_socket r; backend_socket := backend_socket r |}
      | StartT2 =>
          Some {| handler := JoinT1; t1 := t1 r; t2 := Receiving;
                  client_socket := client_socket r; backend_socket := backend_socket r |}
      | JoinT1 =>
          match t1 r with
          | Finished =>
              Some {| handler := JoinT2; t1 := t1 r; t2 := t2 r;
                      client_socket := client_socket r;
                      backend_socket := backend_socket r |}
          | _ => None
          end
      | JoinT2 =>
          match t2 r with
          | Finished =>
              Some {| handler := Returned; t1 := t1 r; t2 := t2 r;
                      client_socket := client_socket r;
                      backend_socket := backend_socket r |}
          | _ => None
          end
      | Returned => None
      end
  | T1 =>
      match forward_step (t1 r) (client_socket r) (backend_socket r) with
      | Some (pc, source, destination) =>
          Some {| handler := handler r; t1 := pc; t2 := t2 r;
                  client_socket := source; backend_socket := destination |}
      | None => None
      end
  | T2 =>
      match forward_step (t2 r) (backend_socket r) (client_socket r) with
      | Some (pc, source, destination) =>
          Some {| handler := handler r; t1 := t1 r; t2 := pc;
                  client_socket := destination; backend_socket := source |}
      | None => None
      end
  end.

(** The threads interleave socket call by socket call. *)
Definition steps_to (r r' : relay) : Prop := exists who, step who r = Some r'.

(** Running a schedule; a thread picked while it cannot move is passed over. *)
Fixpoint run (schedule : list thread) (r : relay) : relay :=
  match schedule with
  | [] => r
  | who :: schedule' =>
      match step who r with
      | Some r' => run schedule' r'
      | None => run schedule' r
      end
  end.

(** What [handle_tcp_connection] does before it starts the threads; each
    case carries the client socket as the handler leaves it. *)
Inductive pairing : Type :=
  | NoBackend (client : sock)
  | ConnectFailed (ref : nat) (client : sock)
  | Paired (ref : nat) (r : relay).

(** [TCPLoadBalancer.handle_tcp_connection] up to [t1.start()]: without a
    backend, or when [connect] raises, the client socket is closed and the
    handler returns; otherwise the relay starts with both sockets open.
    [client] is the accepted socket, [connect ref] the socket connected to
    the backend behind [ref], if the connection succeeds. *)
Definition handle_tcp_connection (lb : TCPLoadBalancer) (client : sock)
    (connect : nat -> option sock) : TCPLoadBalancer * pairing :=
  match get_next_backend lb with
  | (None, lb') => (lb', NoBackend (close_sock client))
  | (Some ref, lb') =>
      match connect ref with
      | None => (lb', ConnectFailed ref (close_sock client))
      | Some backend =>
          (lb', Paired ref {| handler := StartT1; t1 := NotStarted; t2 := NotStarted;
                              client_socket := client; backend_socket := backend |})
      end
  end.

End TCP.

(** ** core/tcp_messenger.py *)

Module Messenger.

(** Values produced by [json.loads].  Text is kept as a Rocq string; numbers
    are the integers (a JSON number with a fraction or an exponent is outside
    this model).  An object is its list of fields in insertion order, each
    key once. *)
#[local] Unset Elimination Schemes.
Inductive json : Type :=
  | JNull
  | JBool (b : bool)
  | JInt (n : Z)
  | JStr (s : string)
  | JArr (items : list json)
  | JObj (fields : list (string * json)).
#[local] Set Elimination Schemes.

(** Python truth value, as tested by [if recipient:]. *)
Definition truthy (v : json) : bool :=
  match v with
  | JNull => false
  | JBool b => b
  | JInt n => negb (n =? 0)
  | JStr s => negb (String.eqb s EmptyString)
  | JArr items => match items with [] => false | _ :: _ => true end
  | JObj fields => match fields with [] => false | _ :: _ => true end
  end.

(** Dictionary keys up to Python equality: [True == 1] and [False == 0]. *)
Inductive pykey : Type :=
  | KNone
  | KStr (s : string)
  | KInt (n : Z).

#[global] Instance pykey_eq_dec : EqDecision pykey.
Proof. solve_decision. Defined.

#[global] Instance pykey_countable : Countable pykey.
Proof.
  refine (inj_countable'
    (fun k => match k with
              | KNone => inl ()
              | KStr s => inr (inl s)
              | KInt n => inr (inr n)
              end)
    (fun x => match x with
              | inl _ => KNone
              | inr (inl s) => KStr s
              | inr (inr n) => KInt n
              end) _).
  intros []; reflexivity.
Defined.

(** The key a value hashes to; [None] for lists and dictionaries, which are
    unhashable ([TypeError]). *)
Definition key_of (v : json) : option pykey :=
  match v with
  | JNull => Some KNone
  | JBool b => Some (KInt (if b then 1 else 0))
  | JInt n => Some (KInt n)
  | JStr s => Some (KStr s)
  | JArr _ | JObj _ => None
  end.

(** [d.get(k)] *)
Fixpoint dict_get (k : string) (fields : list (string * json)) : option json :=
  match fields with
  | [] => None
  | (k', v) :: fields' => if String.eqb k k' then Some v else dict_get k fields'
  end.

(** [d[k] = v]: an existing key keeps its place, a new key goes last. *)
Fixpoint dict_set (k : string) (v : json) (fields : list (string * json))
    : list (string * json) :=
  match fields with
  | [] => [(k, v)]
  | (k', v') :: fields' =>
      if String.eqb k k' then (k, v) :: fields'
      else (k', v') :: dict_set k v fields'
  end.

(** [class TCPMessenger]: the in-memory [message_queue]. *)
Record TCPMessenger : Type := mkMessenger {
  message_queue : gmap pykey (list json)
}.

Definition new_messenger : TCPMessenger := {| message_queue := ∅ |}.

(** What [recv(4096).decode('utf-8')] followed by [json.loads] makes of the
    connection: an exception from one of the three calls, empty data, or a
    parsed value. *)
Inductive frame : Type :=
  | FrameRaises (e : exn)
  | FrameEmpty
  | FrameJson (v : json).

(** The three acknowledgments [_handle_client] can write. *)
Inductive ack : Type :=
  | AckDelivered
  | AckNoRecipient
  | AckException (e : exn).

(** The [status] field of an acknowledgment. *)
Definition ack_status (a : ack) : string :=
  match a with
  | AckDelivered => "success"
  | AckNoRecipient | AckException _ => "error"
  end.

(** The [message] field of an acknowledgment; for an exception it is
    [str(e)], which this model leaves to the exception. *)
Definition ack_message (a : ack) : option string :=
  match a with
  | AckDelivered => Some "Delivered"
  | AckNoRecipient => Some "No recipient"
  | AckException _ => None
  end.

Inductive server_action : Type :=
  | Send (a : ack)
  | Close.

(** The [except Exception as e] block followed by [finally]: the error
    acknowledgment is attempted, a failure to send it is swallowed. *)
Definition on_exception (e : exn) (outcomes : list bool) : list server_action :=
  match client_send outcomes with
  | (true, _) => [Send (AckException e); Close]
  | (false, _) => [Close]
  end.

(** One [client_socket.send(response)] inside the [try]; when it raises, the
    [except] block runs with the outcomes that are left. *)
Definition reply (a : ack) (outcomes : list bool) : list server_action :=
  match client_send outcomes with
  | (true, _) => [Send a; Close]
  | (false, outcomes') => on_exception OSError outcomes'
  end.

(** [TCPMessenger._handle_client]; [now] is [datetime.now().isoformat()],
    [print_ok] tells whether the [print] that names sender and recipient,
    between the append and the success acknowledgment, goes through (it
    raises when standard output cannot encode them, and the [except] block
    then answers with an error), and [outcomes] tells whether each successive
    [client_socket.send] succeeds.  The [print] of an exception in the
    [except] block writes ASCII text and is taken to succeed. *)
Definition _handle_client (st : TCPMessenger) (f : frame) (now : string)
    (print_ok : bool) (outcomes : list bool) : TCPMessenger * list server_action :=
  match f with
  | FrameRaises e => (st, on_exception e outcomes)
  | FrameEmpty => (st, [Close])
  | FrameJson (JObj message_data) =>
      match dict_get "recipient" message_data with
      | Some recipient =>
          if truthy recipient then
            match key_of recipient with
            | None => (st, on_exception TypeError outcomes)
            | Some k =>
                let queue :=
                  match message_queue st !! k with
                  | None => <[k := []]> (message_queue st)
                  | Some _ => message_queue st
                  end in
                let message_data :=
                  dict_set "delivered" (JBool true)
                    (dict_set "timestamp" (JStr now) message_data) in
                let queue :=
                  <[k := default [] (queue !! k) ++ [JObj message_data]]> queue in
                ({| message_queue := queue |},
                 if print_ok then reply AckDelivered outcomes
                 else on_exception UnicodeEncodeError outcomes)
            end
          else (st, reply AckNoRecipient outcomes)
      | None => (st, reply AckNoRecipient outcomes)
      end
  | FrameJson _ => (st, on_exception AttributeError outcomes)
  end.

(** What the network does to the one frame [send_message] writes: the
    connection fails; the frame reaches the server cut short (it no longer
    parses); it reaches the server whole, in which case [json.loads] gives
    back what [json.dumps] was given, and the sender reads what the server
    answers; or it reaches the server whole but the sender's [recv] raises
    (its five seconds are over, or the connection is reset) before an answer
    is there. *)
Inductive network : Type :=
  | Unreachable
  | Truncated
  | Intact
  | Unanswered.

(** The packet [send_message] builds. *)
Definition packet (sender recipient message : string) (encrypted : bool)
    (sent_at : string) : list (string * json) :=
  [("sender", JStr sender); ("recipient", JStr recipient); ("body", JStr message);
   ("encrypted", JBool encrypted); ("timestamp", JStr sent_at)].

(** The first acknowledgment the server wrote, which is what the client's
    [recv(1024)] reads. *)
Definition first_ack (actions : list server_action) : option ack :=
  match actions with
  | Send a :: _ => Some a
  | _ => None
  end.

(** [TCPMessenger.send_message], talking to the server of the same process
    ([127.0.0.1], [self.port]).  [sent_at] and [received_at] are the clock
    readings of the sender and of the server; [outcomes] are the outcomes of
    the server's writes.  Server and sender print to the same standard
    output, and both lines name the same sender and recipient: [print_ok]
    tells whether such a line can be printed.  When the sender's own [print]
    raises, after a success acknowledgment, the [except] block returns
    [False]. *)
Definition send_message (st : TCPMessenger) (sender recipient message : string)
    (encrypted : bool) (sent_at received_at : string) (net : network)
    (print_ok : bool) (outcomes : list bool) : TCPMessenger * bool :=
  match net with
  | Unreachable => (st, false)
  | Truncated =>
      ((_handle_client st (FrameRaises JSONDecodeError) received_at print_ok outcomes).1,
       false)
  | Intact =>
      let '(st', actions) :=
        _handle_client st
          (FrameJson (JObj (packet sender recipient message encrypted sent_at)))
          received_at print_ok outcomes in
      match first_ack actions with
      | Some a => (st', String.eqb (ack_status a) "success" && print_ok)
      | None => (st', false)
      end
  | Unanswered =>
      ((_handle_client st
          (FrameJson (JObj (packet sender recipient message encrypted sent_at)))
          received_at print_ok outcomes).1,
       false)
  end.

(** [get_messages] takes no lock.  Its first two statements: the early
    return ([None]) for a user without a mailbox, or the copy of the
    user's queue. *)
Definition get_messages_copy (st : TCPMessenger) (user_email : string)
    : option (list json) :=
  message_queue st !! KStr user_email.

(** Its third statement: the user's queue is replaced by a new empty list. *)
Definition get_messages_reset (st : TCPMessenger) (user_email : string) : TCPMessenger :=
  {| message_queue := <[KStr user_email := []]> (message_queue st) |}.

(** [TCPMessenger.get_messages], run without interruption. *)
Definition get_messages (st : TCPMessenger) (user_email : string) (mark_read : bool)
    : list json * TCPMessenger :=
  match get_messages_copy st user_email with
  | None => ([], st)
  | Some messages =>
      (messages, if mark_read then get_messages_reset st user_email else st)
  end.

(** [TCPMessenger.has_messages] *)
Definition has_messages (st : TCPMessenger) (user_email : string) : bool :=
  match message_queue st !! KStr user_email with
  | None => false
  | Some messages => match messages with [] => false | _ :: _ => true end
  end.

End Messenger.

(** ** Scenarios and derived notions used in the statements *)

(** [n] consecutive calls of [get_next_backend]: the values returned, in
    order, and the balancer afterwards. *)
Fixpoint scheduling_calls (n : nat) (lb : LoadBalancer)
    : list (result (option nat)) * LoadBalancer :=
  match n with
  | O => ([], lb)
  | S n' =>
      let '(r, lb') := get_next_backend lb in
      let '(rs, lb'') := scheduling_calls n' lb' in
      (r :: rs, lb'')
  end.

(** A fresh balancer to which three backends with weights 3, 2 and 1 were
    added in that order. *)
Definition pool_321 (h1 h2 h3 : string) (p1 p2 p3 : Z) : LoadBalancer :=
  add_backend h3 p3 1 (add_backend h2 p2 2 (add_backend h1 p1 3 new_load_balancer)).

(** What the handler does once a request was read and a backend selected:
    the reference selected and the outcome of the inner [try] block. *)
Definition forwarding_attempt (lb : LoadBalancer) (env : http_env)
    : option (nat * (bool * LoadBalancer * list bool * list action)) :=
  match read_request (client_recv env) [] with
  | Ret (c :: request) =>
      match get_next_backend lb with
      | (Ret (Some ref), lb1) =>
          Some (ref, forward_request lb1 ref (backend_conn_of env ref) (c :: request)
                       (client_sendall env))
      | _ => None
      end
  | _ => None
  end.

(** A forwarding error against the backend behind [ref]: the inner [try]
    block was left by an exception. *)
Definition forwarding_error (lb : LoadBalancer) (env : http_env) (ref : nat) : Prop :=
  ∃ lb2 outcomes tr, forwarding_attempt lb env = Some (ref, (false, lb2, outcomes, tr)).

(** The reading of a forwarding error as one more failed probe: the backend
    ends with the failure counter and the health flag that [check_health]
    would give it for a failed probe. *)
Definition counted_like_probe_failure (lb : LoadBalancer) (env : http_env) : Prop :=
  ∀ ref b b',
    forwarding_error lb env ref →
    backends lb !! ref = Some b →
    backends (handle_http_connection lb env).1 !! ref = Some b' →
    failed_checks b' = failed_checks (check_health b ProbeException 0).1
    ∧ healthy b' = healthy (check_health b ProbeException 0).1.

(** A balancer with one fresh backend. *)
Definition single_backend_pool : LoadBalancer :=
  add_backend "127.0.0.1" 5001 1 new_load_balancer.

(** A client that sends a complete [GET] and a backend that refuses the
    connection. *)
Definition refused_env : http_env :=
  {| client_recv := [RecvData (lit "GET / HTTP/1.1" ++ CRLFCRLF)];
     client_sendall := [];
     backend_conn_of := fun _ =>
       {| connect_ok := false; sendall_ok := false; response := [] |} |}.

(** The health flag and failure counter of a backend. *)
Definition health_view (b : BackendServer) : bool * Z := (healthy b, failed_checks b).

(** The head of a request that announces a body of 50 bytes. *)
Definition upload_head : bytes :=
  lit "POST /upload HTTP/1.1" ++ CRLF ++ lit "Host: example.org" ++ CRLF
  ++ lit "Content-Length: 50" ++ CRLFCRLF.

(** No byte reached a backend and no backend connection was opened. *)
Definition nothing_forwarded (tr : list action) : bool :=
  forallb (fun a => match a with
                    | BackendConnect _ | BackendSend _ _ => false
                    | _ => true
                    end) tr.

(** A client that sends the head and 30 of the 50 bytes, then falls silent
    until the read times out; the backend answers any request. *)
Definition stalled_upload_env : http_env :=
  {| client_recv := [RecvData (upload_head ++ replicate 30 120); RecvTimeout];
     client_sendall := [];
     backend_conn_of := fun _ =>
       {| connect_ok := true; sendall_ok := true;
          response := [RecvData (lit "HTTP/1.1 200 OK" ++ CRLFCRLF); RecvData []] |} |}.

(** The reading of the stalled upload as an aborted connection. *)
Definition closed_without_forwarding (lb : LoadBalancer) (env : http_env) : Prop :=
  nothing_forwarded (handle_http_connection lb env).2 = true
  ∧ current_backend_index (handle_http_connection lb env).1 = current_backend_index lb.

(** The header lines of [upload_head], without the blank line. *)
Definition upload_headers : bytes :=
  lit "POST /upload HTTP/1.1" ++ CRLF ++ lit "Host: example.org" ++ CRLF
  ++ lit "Content-Length: 50".

(** What the request reader takes for the length a header line declares:
    [int(line.split(':')[1].strip())]. *)
Definition content_length_of (line : str) : option Z :=
  split (lit ":") line !! 1%nat ≫= fun field => py_int (strip field).

(** Some header line starts with [Content-Length:] and reads as [n]. *)
Definition declares_length (n : Z) (lines : list str) : bool :=
  existsb (fun line => startswith (lit "Content-Length:") line
                       && bool_decide (content_length_of line = Some n)) lines.

(** Every header line that starts with [Content-Length:] carries a number
    [int] accepts. *)
Definition lengths_are_numbers (lines : list str) : bool :=
  forallb (fun line => if startswith (lit "Content-Length:") line
                       then match content_length_of line with
                            | Some _ => true
                            | None => false
                            end
                       else true) lines.

(** A TCP pool read as an HTTP pool: the backend behind each reference
    keeps its address and health flag and is given the weight [weights]
    assigns to that reference (the dictionaries of the TCP relay carry no
    weight of their own). *)
Definition as_http_pool (weights : nat -> Z) (lb : TCP.TCPLoadBalancer) : LoadBalancer :=
  {| backends :=
       imap (fun r b => set_healthy (TCP.healthy b)
                          (new_backend (TCP.host b) (TCP.port b) (weights r)))
            (TCP.backends lb);
     current_backend_index := TCP.current_index lb;
     stats_total_requests := 0;
     stats_total_failures := 0 |}.

(** The TCP relay selecting as the HTTP scheduler would on the same pool. *)
Definition selects_like_http (weights : nat -> Z) (lb : TCP.TCPLoadBalancer) : Prop :=
  Ret (TCP.get_next_backend lb).1 = (get_next_backend (as_http_pool weights lb)).1.

(** A TCP pool whose first backend is flagged unhealthy. *)
Definition tcp_pool_first_down : TCP.TCPLoadBalancer :=
  {| TCP.backends :=
       [ {| TCP.host := "127.0.0.1"; TCP.port := 9991; TCP.healthy := false |};
         {| TCP.host := "127.0.0.1"; TCP.port := 9992; TCP.healthy := true |} ];
     TCP.current_index := 0 |}.

(** The TCP pool of [run_cluster.py] after its first selection, and the
    weights the same script gives the three instances in the HTTP relay. *)
Definition tcp_cluster_pool : TCP.TCPLoadBalancer :=
  (TCP.get_next_backend
     (TCP.add_backend "127.0.0.1" 9993
        (TCP.add_backend "127.0.0.1" 9992
           (TCP.add_backend "127.0.0.1" 9991 TCP.new_load_balancer)))).2.

Definition cluster_weights (r : nat) : Z :=
  match r with
  | O => 3
  | S O => 2
  | _ => 1
  end.

(** The two relays of one cluster, each with its own cursor. *)
Record cluster : Type := mkCluster {
  http_lb : LoadBalancer;
  tcp_lb : TCP.TCPLoadBalancer
}.

Definition http_select (c : cluster) : result (option nat) * cluster :=
  let '(r, lb) := get_next_backend (http_lb c) in
  (r, {| http_lb := lb; tcp_lb := tcp_lb c |}).

Definition tcp_select (c : cluster) : option nat * cluster :=
  let '(r, lb) := TCP.get_next_backend (tcp_lb c) in
  (r, {| http_lb := http_lb c; tcp_lb := lb |}).

(** A relay whose backend writes [data] and then closes its side; the
    client says [from_client].  Both peers take writes. *)
Definition relay_start (from_client : list recv_event) (data : bytes) : TCP.relay :=
  {| TCP.handler := TCP.StartT1; TCP.t1 := TCP.NotStarted; TCP.t2 := TCP.NotStarted;
     TCP.client_socket := TCP.open_sock from_client true;
     TCP.backend_socket := TCP.open_sock [RecvData data; RecvData []] true |}.

(** The reading of the relay as safe against a client that finishes first:
    however the threads interleave, once the handler has returned the client
    was sent exactly [data] and its socket is closed. *)
Definition delivers_whole_answer (from_client : list recv_event) (data : bytes) : Prop :=
  ∀ schedule,
    TCP.handler (TCP.run schedule (relay_start from_client data)) = TCP.Returned →
    TCP.delivered (TCP.client_socket (TCP.run schedule (relay_start from_client data)))
      = [data]
    ∧ TCP.closed (TCP.client_socket (TCP.run schedule (relay_start from_client data)))
      = true.

Definition hundred_bytes : bytes := replicate 100 66.

(** What holds of the relay at every moment: the handler gets past a [join]
    only when that thread has finished, and a [forward] thread that has gone
    through its [finally] block has closed its sockets. *)
Definition relay_inv (r : TCP.relay) : Prop :=
  (TCP.handler r = TCP.JoinT2 ∨ TCP.handler r = TCP.Returned → TCP.t1 r = TCP.Finished)
  ∧ (TCP.handler r = TCP.Returned → TCP.t2 r = TCP.Finished)
  ∧ (TCP.t1 r = TCP.ClosingDestination ∨ TCP.t1 r = TCP.Finished →
     TCP.closed (TCP.client_socket r) = true)
  ∧ (TCP.t1 r = TCP.Finished → TCP.closed (TCP.backend_socket r) = true)
  ∧ (TCP.t2 r = TCP.ClosingDestination ∨ TCP.t2 r = TCP.Finished →
     TCP.closed (TCP.backend_socket r) = true)
  ∧ (TCP.t2 r = TCP.Finished → TCP.closed (TCP.client_socket r) = true).

(** A relay whose backend writes [chunks], one after the other, and then
    closes its side; the client says [from_client].  Both sockets are open
    and both peers take writes. *)
Definition answering_relay (from_client : list recv_event) (chunks : list bytes)
    : TCP.relay :=
  {| TCP.handler := TCP.StartT1; TCP.t1 := TCP.NotStarted; TCP.t2 := TCP.NotStarted;
     TCP.client_socket := TCP.open_sock from_client true;
     TCP.backend_socket := TCP.open_sock ((RecvData <$> chunks) ++ [RecvData []]) true |}.

(** The thread has left the loop of [forward] and is in, or through, its
    [finally] block. *)
Definition left_loop (pc : TCP.forward_pc) : Prop :=
  pc = TCP.ClosingSource ∨ pc = TCP.ClosingDestination ∨ pc = TCP.Finished.

(** The thread has closed its source socket. *)
Definition closed_its_source (pc : TCP.forward_pc) : Prop :=
  pc = TCP.ClosingDestination ∨ pc = TCP.Finished.

(** A socket is closed only by a thread that has got that far in its
    [finally] block; the client goes on taking writes; and once the handler
    is past [t2.start()] the backend-to-client thread has been started. *)
Definition closing_inv (r : TCP.relay) : Prop :=
  (TCP.closed (TCP.client_socket r) = true →
   closed_its_source (TCP.t1 r) ∨ TCP.t2 r = TCP.Finished)
  ∧ (TCP.closed (TCP.backend_socket r) = true →
     TCP.t1 r = TCP.Finished ∨ closed_its_source (TCP.t2 r))
  ∧ TCP.writable (TCP.client_socket r) = true.

(** The backend-to-client thread leaves its loop either with all of
    [answer] written to the client, or after the other thread has closed the
    client socket. *)
Definition delivery_inv (answer : list bytes) (r : TCP.relay) : Prop :=
  left_loop (TCP.t2 r) →
  TCP.delivered (TCP.client_socket r) = answer ∨ closed_its_source (TCP.t1 r).

(** What the backend still has to say ends with its end-of-stream. *)
Definition backend_speaks (r : TCP.relay) : Prop :=
  ∃ cs, TCP.incoming (TCP.backend_socket r) = (RecvData <$> cs) ++ [RecvData []]
        ∧ Forall (fun c => c ≠ []) cs.

Section RouterNotions.
Import Messenger.

(** The [recipient] field of a frame, when the frame parsed to an object
    that has one. *)
Definition recipient_of (f : frame) : option json :=
  match f with
  | FrameJson (JObj fields) => dict_get "recipient" fields
  | _ => None
  end.

(** The record the router stores for an object received at [now]. *)
Definition stamped (fields : list (string * json)) (now : string) : json :=
  JObj (dict_set "delivered" (JBool true) (dict_set "timestamp" (JStr now) fields)).

(** The mailbox [k] grew by exactly [record]; every other mailbox is as it
    was. *)
Definition appended (st st' : TCPMessenger) (k : pykey) (record : json) : Prop :=
  message_queue st'
  = <[k := default [] (message_queue st !! k) ++ [record]]> (message_queue st).

(** The reading of the router in which a frame is refused only when it
    does not parse or has no [recipient] field. *)
Definition router_contract (st : TCPMessenger) (f : frame) (now : string)
    (print_ok : bool) (outcomes : list bool) : Prop :=
  match recipient_of f with
  | None =>
      (_handle_client st f now print_ok outcomes).1 = st
      ∧ ack_status <$> first_ack (_handle_client st f now print_ok outcomes).2
        = Some "error"
  | Some recipient =>
      (∃ k fields,
          key_of recipient = Some k
          ∧ appended st (_handle_client st f now print_ok outcomes).1 k (JObj fields)
          ∧ dict_get "timestamp" fields = Some (JStr now))
      ∧ first_ack (_handle_client st f now print_ok outcomes).2 = Some AckDelivered
  end.

(** The mailbox key and the fields of a frame the router accepts: an
    object whose [recipient] is present, true in the sense of [if], and
    hashable. *)
Definition deliverable (f : frame) : option (pykey * list (string * json)) :=
  match f with
  | FrameJson (JObj fields) =>
      match dict_get "recipient" fields with
      | Some recipient =>
          if truthy recipient then
            match key_of recipient with
            | Some k => Some (k, fields)
            | None => None
            end
          else None
      | None => None
      end
  | _ => None
  end.

(** A frame whose [recipient] field is there, and empty. *)
Definition empty_recipient_frame : frame :=
  FrameJson (JObj [("sender", JStr "alice@example.com"); ("recipient", JStr EmptyString);
                   ("body", JStr "hello"); ("encrypted", JBool false)]).

(** A connection handled by a [_handle_client] thread: its frame, the
    clock reading, and the outcomes of its [print] and of its writes. *)
Record arrival : Type := mkArrival {
  arrival_frame : frame;
  arrival_now : string;
  arrival_print_ok : bool;
  arrival_outcomes : list bool
}.

(** Handler threads running one after the other. *)
Fixpoint serve (arrivals : list arrival) (st : TCPMessenger) : TCPMessenger :=
  match arrivals with
  | [] => st
  | a :: arrivals' =>
      serve arrivals'
        (_handle_client st (arrival_frame a) (arrival_now a) (arrival_print_ok a)
           (arrival_outcomes a)).1
  end.

(** A draining [get_messages] during which handler threads run: they are
    scheduled after the copy of the queue was taken and before the queue is
    replaced. *)
Definition racing_get_messages (st : TCPMessenger) (user_email : string)
    (arrivals : list arrival) : list json * TCPMessenger :=
  match get_messages_copy st user_email with
  | None => ([], serve arrivals st)
  | Some messages => (messages, get_messages_reset (serve arrivals st) user_email)
  end.

(** The reading of the drain as atomic: a poll during which frames are
    handled has the effect of the same poll made before them, or after
    them. *)
Definition drain_is_atomic (st : TCPMessenger) (user_email : string)
    (arrivals : list arrival) : Prop :=
  racing_get_messages st user_email arrivals
  = ((get_messages st user_email true).1,
     serve arrivals (get_messages st user_email true).2)
  ∨ racing_get_messages st user_email arrivals
    = get_messages (serve arrivals st) user_email true.

(** Two messages for the same recipient: the first is queued when the poll
    starts, the second arrives while the poll is under way. *)
Definition one_queued : TCPMessenger :=
  (send_message new_messenger "alice@example.com" "bob@example.com" "hello" false
     "2024-01-01T10:00:00" "2024-01-01T10:00:01" Intact true []).1.

Definition second_message : arrival :=
  {| arrival_frame :=
       FrameJson (JObj (packet "carol@example.com" "bob@example.com" "are you there"
                          false "2024-01-01T10:00:02"));
     arrival_now := "2024-01-01T10:00:03";
     arrival_print_ok := true;
     arrival_outcomes := [] |}.
End RouterNotions.

(** ** Notions for the properties of the remaining code *)

(** How often the reference [r] occurs in a list of references. *)
Definition occurrences (r : nat) (refs : list nat) : nat :=
  length (filter (fun x => x = r) refs).

(** [n] consecutive calls of [TCPLoadBalancer.get_next_backend]. *)
Fixpoint tcp_scheduling_calls (n : nat) (lb : TCP.TCPLoadBalancer)
    : list (option nat) * TCP.TCPLoadBalancer :=
  match n with
  | O => ([], lb)
  | S n' =>
      let '(r, lb') := TCP.get_next_backend lb in
      let '(rs, lb'') := tcp_scheduling_calls n' lb' in
      (r :: rs, lb'')
  end.

(** The address and weight of a backend: what identifies it in the pool. *)
Definition identity_view (b : BackendServer) : string * Z * Z := (host b, port b, weight b).

(** The requests counted on the backends of a pool, summed. *)
Definition served (bs : list BackendServer) : Z :=
  foldr (fun b acc => total_requests b + acc) 0 bs.

(** The leading data of a socket's future: the chunks [recv] yields before
    the first end-of-stream, timeout or error. *)
Fixpoint data_chunks (script : list recv_event) : list bytes :=
  match script with
  | RecvData (x :: chunk) :: rest => (x :: chunk) :: data_chunks rest
  | _ => []
  end.

(** ** app.py: the endpoint probed by [check_health] *)

Inductive service : Type :=
  | ServiceUp
  | ServiceDown
  | ServiceSkipped.

(** The dictionary [health_status] and the status code returned with it. *)
Record health_report : Type := mkReport {
  report_status : string;
  service_database : service;
  service_tcp_messenger : service;
  service_s3 : service;
  status_code : Z
}.

(** [health_check] of [app.py].  [full] is the query parameter of that name,
    if given; [db_up], [tcp_up] and [s3_up] tell whether the three [try]
    blocks (a [SELECT 1], a connection to the messenger port, [head_bucket])
    go through without an exception. *)
Definition health_check (full : option string) (db_up tcp_up s3_up : bool)
    : health_report :=
  let full_check := String.eqb (default "0" full) "1" in
  let status := if db_up then (if tcp_up then "healthy" else "unhealthy") else "unhealthy" in
  {| report_status := status;
     service_database := if db_up then ServiceUp else ServiceDown;
     service_tcp_messenger := if tcp_up then ServiceUp else ServiceDown;
     service_s3 :=
       if full_check then (if s3_up then ServiceUp else ServiceDown) else ServiceSkipped;
     status_code := if String.eqb status "healthy" then 200 else 503 |}.

(** ** Notions for the TCP relay as a whole *)

(** The connections of [clients] handled one after the other, as the
    accept loop of [TCPLoadBalancer.start] hands them over: what became of
    each, and the balancer afterwards. *)
Fixpoint tcp_serve (clients : list TCP.sock) (connect : nat -> option TCP.sock)
    (lb : TCP.TCPLoadBalancer) : list TCP.pairing * TCP.TCPLoadBalancer :=
  match clients with
  | [] => ([], lb)
  | client :: clients' =>
      let '(lb', outcome) := TCP.handle_tcp_connection lb client connect in
      let '(outcomes, lb'') := tcp_serve clients' connect lb' in
      (outcome :: outcomes, lb'')
  end.

(** The backend a connection was given, if any. *)
Definition pairing_ref (outcome : TCP.pairing) : option nat :=
  match outcome with
  | TCP.NoBackend _ => None
  | TCP.ConnectFailed ref _ | TCP.Paired ref _ => Some ref
  end.

(** The chunk a [forward] thread holds between its [recv] and its
    [sendall]. *)
Definition in_flight (pc : TCP.forward_pc) : list bytes :=
  match pc with
  | TCP.Sending data => [data]
  | _ => []
  end.

(** One direction of the relay, [init] being what its source had to say
    when the relay started: what was written to the destination is a prefix
    of that and, as long as the thread has not left its loop, what was
    written, what is held and what is still to come make up all of it. *)
Definition direction_inv (init : list recv_event) (pc : TCP.forward_pc)
    (source destination : TCP.sock) : Prop :=
  TCP.delivered destination `prefix_of` data_chunks init
  ∧ match pc with
    | TCP.NotStarted | TCP.Receiving | TCP.InRecv | TCP.Sending _ =>
        TCP.delivered destination ++ in_flight pc ++ data_chunks (TCP.incoming source)
        = data_chunks init
    | _ => True
    end.

(** Both directions, and the fact that a thread does not run before the
    handler has started it. *)
Definition order_inv (from_client from_backend : list recv_event) (r : TCP.relay) : Prop :=
  (TCP.handler r = TCP.StartT1 → TCP.t1 r = TCP.NotStarted)
  ∧ (TCP.handler r = TCP.StartT1 ∨ TCP.handler r = TCP.StartT2 →
     TCP.t2 r = TCP.NotStarted)
  ∧ direction_inv from_client (TCP.t1 r) (TCP.client_socket r) (TCP.backend_socket r)
  ∧ direction_inv from_backend (TCP.t2 r) (TCP.backend_socket r) (TCP.client_socket r).

(** A relay as [handle_tcp_connection] sets it up: no thread started,
    nothing written yet. *)
Definition fresh_relay (r : TCP.relay) : Prop :=
  TCP.handler r = TCP.StartT1 ∧ TCP.t1 r = TCP.NotStarted ∧ TCP.t2 r = TCP.NotStarted
  ∧ TCP.delivered (TCP.client_socket r) = []
  ∧ TCP.delivered (TCP.backend_socket r) = [].

(** What became of a connection agrees with what [connect] did for the
    backend it was given: closed at once when [connect] raised (or no backend
    was there), paired with the socket [connect] returned otherwise. *)
Definition pairing_respects (connect : nat -> option TCP.sock) (outcome : TCP.pairing)
    : Prop :=
  match outcome with
  | TCP.NoBackend client => TCP.closed client = true
  | TCP.ConnectFailed ref client => connect ref = None ∧ TCP.closed client = true
  | TCP.Paired ref r => connect ref = Some (TCP.backend_socket r)
  end.

(** ** core/tcp_messenger.py: [class UDPMessenger] *)

Module UDP.
Import Messenger.

(** [class UDPMessenger]: its own [message_queue]. *)
Record UDPMessenger : Type := mkUDPMessenger {
  message_queue : gmap pykey (list json)
}.

Definition new_messenger : UDPMessenger := {| message_queue := ∅ |}.

(** One turn of the loop of [UDPMessenger._server_loop] for a datagram that
    has arrived; [f] is what [json.loads(data.decode('utf-8'))] makes of it.
    Every exception is caught and printed, and the loop goes on.  The flag
    tells whether an acknowledgment left the server: one is sent only for a
    message that was queued, after the [print] that names sender and
    recipient; [print_ok] tells whether that [print] goes through and
    [ack_ok] whether the [sendto] of the acknowledgment succeeds. *)
Definition handle_datagram (st : UDPMessenger) (f : frame) (now : string)
    (print_ok ack_ok : bool) : UDPMessenger * bool :=
  match f with
  | FrameJson (JObj message_data) =>
      match dict_get "recipient" message_data with
      | Some recipient =>
          if truthy recipient then
            match key_of recipient with
            | None => (st, false)
            | Some k =>
                let queue :=
                  match message_queue st !! k with
                  | None => <[k := []]> (message_queue st)
                  | Some _ => message_queue st
                  end in
                let message_data := dict_set "timestamp" (JStr now) message_data in
                let queue :=
                  <[k := default [] (queue !! k) ++ [JObj message_data]]> queue in
                ({| message_queue := queue |}, print_ok && ack_ok)
            end
          else (st, false)
      | None => (st, false)
      end
  | _ => (st, false)
  end.

(** What becomes of the datagram [send_message] hands to [sendto]: it is
    lost (nothing listens on the port, or the network drops it), it reaches
    the server cut short by [recvfrom(4096)] and no longer parses, or it
    reaches the server whole. *)
Inductive transit : Type :=
  | Lost
  | Cut
  | Whole.

(** The world around one call of [send_message]: whether [socket.socket]
    and [sendto] succeed, what becomes of the datagram, whether a line naming
    sender and recipient can be printed (server and sender share one standard
    output), whether the server's [sendto] of the acknowledgment succeeds,
    and whether that acknowledgment is back before the two seconds are
    over. *)
Record udp_env : Type := mkUdpEnv {
  socket_ok : bool;
  sendto_ok : bool;
  way : transit;
  print_ok : bool;
  ack_ok : bool;
  ack_returns : bool
}.

(** How a call of [send_message] ends: it returns a boolean, or the
    [sock.close()] of its [finally] block raises because [sock] was never
    bound, which replaces the [return False] of the handler. *)
Inductive report : Type :=
  | Returns (b : bool)
  | RaisesUnboundLocalError.

(** [UDPMessenger.send_message], sending to the server of the same process.
    An acknowledgment that comes back is the one the server wrote, which
    parses; the sender then prints its line and returns [True], or returns
    [False] from the outer [except] when that [print] raises.  Without an
    acknowledgment [recvfrom] times out, and the answer is [True]. *)
Definition send_message (st : UDPMessenger) (sender recipient message : string)
    (encrypted : bool) (sent_at received_at : string) (env : udp_env)
    : UDPMessenger * report :=
  if socket_ok env then
    if sendto_ok env then
      let '(st', acknowledged) :=
        match way env with
        | Lost => (st, false)
        | Cut =>
            handle_datagram st (FrameRaises JSONDecodeError) received_at
              (print_ok env) (ack_ok env)
        | Whole =>
            handle_datagram st
              (FrameJson (JObj (packet sender recipient message encrypted sent_at)))
              received_at (print_ok env) (ack_ok env)
        end in
      if acknowledged && ack_returns env then (st', Returns (print_ok env))
      else (st', Returns true)
    else (st, Returns false)
  else (st, RaisesUnboundLocalError).

End UDP.

(** * Properties *)

(** ** The built-in models on sample inputs *)

Example decode_ignore_sample :
  decode_ignore [0x41; 0xc3; 0xa9; 0xe2; 0x82; 0xac; 0xf0; 0x9f; 0x98; 0x80;
                 0xed; 0xa0; 0x80; 0x42; 0xe2; 0x82; 0x43; 0xf4; 0x90; 0x80; 0x80;
                 0xc0; 0x80; 0xe0; 0x9f; 0xbf; 0xf0; 0x9f; 0x98]
  = [65; 233; 8364; 128512; 66; 67].
Proof. reflexivity. Qed.

Example split_sample :
  split CRLF (lit "a" ++ CRLF ++ lit "b" ++ CRLF) = [lit "a"; lit "b"; []]
  ∧ split (lit "aa") (lit "aaa") = [[]; lit "a"]
  ∧ split (lit ":") (lit "Content-Length: 50") = [lit "Content-Length"; lit " 50"].
Proof. repeat split; reflexivity. Qed.

Example py_int_sample :
  py_int (strip (lit " 50 ")) = Some 50
  ∧ py_int (lit "+50") = Some 50
  ∧ py_int (lit "-5") = Some (-5)
  ∧ py_int (lit "0_7") = Some 7
  ∧ py_int (lit "7_") = None
  ∧ py_int (lit "7__7") = None
  ∧ py_int (lit "5 0") = None
  ∧ py_int [] = None
  ∧ py_int (lit "+-5") = None
  ∧ py_int [1637; 1632] = Some 50
  ∧ py_int [49; 1637] = Some 15
  ∧ py_int [65301; 95; 65296] = Some 50
  ∧ py_int [178] = None
  ∧ py_int (replicate 4300 48) = Some 0
  ∧ py_int (replicate 4301 48) = None.
Proof. repeat split; vm_compute; reflexivity. Qed.

Example find_sample :
  find CRLFCRLF (lit "ab" ++ CRLF ++ CRLFCRLF) = Some 2%nat
  ∧ find CRLFCRLF (lit "ab" ++ CRLF) = None
  ∧ contains (lit "Content-Length:") (lit "X-Content-Length: 1") = true.
Proof. repeat split; reflexivity. Qed.

(** A request whose announced body has arrived in full is still read on:
    the chunk that follows is appended to it. *)
Example complete_body_keeps_reading :
  read_request
    [RecvData (lit "POST / HTTP/1.1" ++ CRLF ++ lit "Content-Length: 5" ++ CRLFCRLF
               ++ lit "hello");
     RecvData (lit "GET");
     RecvTimeout] []
  = Ret (lit "POST / HTTP/1.1" ++ CRLF ++ lit "Content-Length: 5" ++ CRLFCRLF
         ++ lit "hello" ++ lit "GET").
Proof. reflexivity. Qed.

(** A request without [Content-Length] ends the reading as soon as the blank
    line is in. *)
Example get_stops_reading :
  read_request [RecvData (lit "GET / HTTP/1.1" ++ CRLFCRLF); RecvData (lit "more")] []
  = Ret (lit "GET / HTTP/1.1" ++ CRLFCRLF).
Proof. reflexivity. Qed.

(** A [Content-Length] that is not a number makes [int] raise, and the
    connection is closed with nothing sent anywhere. *)
Example bad_content_length_closes :
  handle_http_connection (pool_321 "a" "b" "c" 5001 5002 5003)
    {| client_recv :=
         [RecvData (lit "POST / HTTP/1.1" ++ CRLF ++ lit "Content-Length: five"
                    ++ CRLFCRLF)];
       client_sendall := [];
       backend_conn_of := fun _ =>
         {| connect_ok := true; sendall_ok := true; response := [RecvData []] |} |}
  = (pool_321 "a" "b" "c" 5001 5002 5003, [ClientClose]).
Proof. reflexivity. Qed.

(** ** The scheduler *)

Lemma enumerate_elem {A : Type} (l : list A) (r : nat) (x : A) :
  (r, x) ∈ enumerate l ↔ l !! r = Some x.
Proof.
  unfold enumerate. rewrite list_elem_of_lookup. split.
  - intros [i Hi]. apply lookup_zip_Some in Hi as [Hs Hx].
    apply lookup_seq in Hs as [-> _]. exact Hx.
  - intros Hx. exists r. apply lookup_zip_Some. split; [|exact Hx].
    apply lookup_seq. split; [done|]. by apply lookup_lt_Some in Hx.
Qed.

Lemma healthy_backends_elem (bs : list BackendServer) (r : nat) (b : BackendServer) :
  (r, b) ∈ healthy_backends bs ↔ bs !! r = Some b ∧ healthy b = true.
Proof.
  unfold healthy_backends. rewrite list_elem_of_filter, enumerate_elem. simpl. tauto.
Qed.

Lemma healthy_backends_nil (bs : list BackendServer) :
  healthy_backends bs = [] ↔ ∀ b, b ∈ bs → healthy b = false.
Proof.
  split.
  - intros Hnil b Hb. apply list_elem_of_lookup in Hb as [i Hi].
    destruct (healthy b) eqn:Hh; [|done]. exfalso.
    assert (Hin : (i, b) ∈ healthy_backends bs) by by apply healthy_backends_elem.
    rewrite Hnil in Hin. by apply elem_of_nil in Hin.
  - intros Hall. destruct (healthy_backends bs) as [|[r b] hs] eqn:Hhs; [done|].
    assert (Hin : (r, b) ∈ healthy_backends bs) by (rewrite Hhs; left).
    apply healthy_backends_elem in Hin as [Hr Hh].
    apply list_elem_of_lookup_2 in Hr. rewrite (Hall b Hr) in Hh. done.
Qed.

Lemma weighted_list_nonempty (hs : list (nat * BackendServer)) :
  hs ≠ [] → (∀ rb, rb ∈ hs → 0 < weight rb.2) → weighted_list hs ≠ [].
Proof.
  destruct hs as [|rb hs]; [done|]. intros _ Hw.
  assert (Hpos : 0 < weight rb.2) by (apply Hw; left).
  unfold weighted_list. simpl.
  destruct (Z.to_nat (weight rb.2)) eqn:Hn; [lia|]. done.
Qed.

Lemma weighted_list_elem (hs : list (nat * BackendServer)) (r : nat) :
  r ∈ weighted_list hs → ∃ b, (r, b) ∈ hs.
Proof.
  unfold weighted_list. rewrite list_elem_of_In, in_flat_map.
  intros [[r' b] [Hin Hrep]]. apply list_elem_of_In in Hin, Hrep.
  apply elem_of_replicate_inv in Hrep. simpl in Hrep. subst r'. by exists b.
Qed.

Lemma cursor_in_range (c : Z) (n : nat) :
  (0 < n)%nat → (Z.to_nat (c `mod` Z.of_nat n) < n)%nat.
Proof.
  intros Hn. pose proof (Z.mod_pos_bound c (Z.of_nat n)). lia.
Qed.

(** With a non-empty expansion the call returns the entry under the cursor
    and moves the cursor by one. *)
Lemma get_next_backend_selects (lb : LoadBalancer) :
  weighted_list (healthy_backends (backends lb)) ≠ [] →
  ∃ r b,
    get_next_backend lb
      = (Ret (Some r), set_current_backend_index (current_backend_index lb + 1) lb)
    ∧ weighted_list (healthy_backends (backends lb))
        !! Z.to_nat (current_backend_index lb
                     `mod` Z.of_nat (length (weighted_list (healthy_backends (backends lb)))))
      = Some r
    ∧ backends lb !! r = Some b ∧ healthy b = true.
Proof.
  intros Hwl. unfold get_next_backend.
  destruct (backends lb) as [|b0 bs] eqn:Hbs; [done|].
  destruct (healthy_backends (b0 :: bs)) as [|h hs] eqn:Hhs; [done|].
  destruct (weighted_list (h :: hs)) as [|w wl] eqn:Hw; [done|].
  destruct (lookup_lt_is_Some_2 (w :: wl)
              (Z.to_nat (current_backend_index lb `mod` Z.of_nat (length (w :: wl)))))
    as [r Hr].
  { apply cursor_in_range. simpl. lia. }
  assert (Hin : r ∈ weighted_list (h :: hs)).
  { rewrite Hw. by eapply list_elem_of_lookup_2. }
  apply weighted_list_elem in Hin as [b Hb].
  rewrite <- Hhs in Hb. apply healthy_backends_elem in Hb as [Hb Hh].
  exists r, b. rewrite Hr. done.
Qed.

(** Without a healthy backend the call returns [None] and changes nothing. *)
Lemma get_next_backend_none (lb : LoadBalancer) :
  (∀ b, b ∈ backends lb → healthy b = false) →
  get_next_backend lb = (Ret None, lb).
Proof.
  intros Hall. unfold get_next_backend.
  destruct (backends lb) as [|b0 bs] eqn:Hbs; [done|].
  apply healthy_backends_nil in Hall. by rewrite Hall.
Qed.

(** The expansion of the 3-2-1 pool, and the call made at any cursor. *)
Lemma pool_321_any_cursor (h1 h2 h3 : string) (p1 p2 p3 c : Z) :
  get_next_backend (set_current_backend_index c (pool_321 h1 h2 h3 p1 p2 p3))
  = (Ret ([0; 0; 0; 1; 1; 2]%nat !! Z.to_nat (c `mod` 6)),
     set_current_backend_index (c + 1) (pool_321 h1 h2 h3 p1 p2 p3)).
Proof. reflexivity. Qed.

Lemma cycle_position (k i c : Z) :
  0 ≤ i < 6 → c = 6 * k + i → Z.to_nat (c `mod` 6) = Z.to_nat i.
Proof.
  intros Hi ->. f_equal. rewrite Z.add_comm, Z.mul_comm, Z_mod_plus_full.
  by apply Z.mod_small.
Qed.

(** C1: a fresh pool with weights 3, 2, 1 (added in that order, all healthy)
    serves seven consecutive calls of [get_next_backend] with the first
    backend three times, the second twice, the third once, in pool order, and
    then the first backend again; the pool itself is left as it was.  The
    same seven answers come at the start of every cycle, that is whenever the
    cursor stands at a multiple of 6. *)
Theorem weighted_cycle_321 (h1 h2 h3 : string) (p1 p2 p3 : Z) :
  backends (pool_321 h1 h2 h3 p1 p2 p3)
    = [new_backend h1 p1 3; new_backend h2 p2 2; new_backend h3 p3 1]
  ∧ (scheduling_calls 7 (pool_321 h1 h2 h3 p1 p2 p3)).1
    = [Ret (Some 0%nat); Ret (Some 0%nat); Ret (Some 0%nat);
       Ret (Some 1%nat); Ret (Some 1%nat); Ret (Some 2%nat);
       Ret (Some 0%nat)]
  ∧ backends (scheduling_calls 7 (pool_321 h1 h2 h3 p1 p2 p3)).2
    = backends (pool_321 h1 h2 h3 p1 p2 p3)
  ∧ ∀ k : Z,
      (scheduling_calls 7
         (set_current_backend_index (6 * k) (pool_321 h1 h2 h3 p1 p2 p3))).1
      = [Ret (Some 0%nat); Ret (Some 0%nat); Ret (Some 0%nat);
         Ret (Some 1%nat); Ret (Some 1%nat); Ret (Some 2%nat);
         Ret (Some 0%nat)].
Proof.
  split; [reflexivity|]. split; [reflexivity|]. split; [reflexivity|].
  intros k. unfold scheduling_calls.
  repeat (rewrite pool_321_any_cursor; cbv beta iota zeta).
  cbn [fst].
  rewrite (cycle_position k 0 (6 * k)) by lia.
  rewrite (cycle_position k 1 (6 * k + 1)) by lia.
  rewrite (cycle_position k 2 (6 * k + 1 + 1)) by lia.
  rewrite (cycle_position k 3 (6 * k + 1 + 1 + 1)) by lia.
  rewrite (cycle_position k 4 (6 * k + 1 + 1 + 1 + 1)) by lia.
  rewrite (cycle_position k 5 (6 * k + 1 + 1 + 1 + 1 + 1)) by lia.
  rewrite (cycle_position (k + 1) 0 (6 * k + 1 + 1 + 1 + 1 + 1 + 1)) by lia.
  reflexivity.
Qed.

(** C10: with an empty pool, or a pool without a healthy backend,
    [get_next_backend] returns [None] and the balancer (cursor, backends,
    counters) is exactly what it was; and whenever a call does move the
    cursor, it returned a backend. *)
Theorem no_backend_leaves_state (lb : LoadBalancer) :
  ((backends lb = [] ∨ ∀ b, b ∈ backends lb → healthy b = false) →
   get_next_backend lb = (Ret None, lb))
  ∧ (current_backend_index (get_next_backend lb).2 ≠ current_backend_index lb →
     ∃ r, (get_next_backend lb).1 = Ret (Some r)).
Proof.
  split.
  - intros [Hnil | Hall].
    + unfold get_next_backend. by rewrite Hnil.
    + by apply get_next_backend_none.
  - intros Hmoved.
    destruct (decide (weighted_list (healthy_backends (backends lb)) = [])) as [Hwl | Hwl].
    + exfalso. apply Hmoved. unfold get_next_backend.
      destruct (backends lb); [done|].
      destruct (healthy_backends _); [done|]. by rewrite Hwl.
    + destruct (get_next_backend_selects lb Hwl) as (r & b & Hsel & _).
      exists r. by rewrite Hsel.
Qed.

Lemma no_backend_leaves_state_witness :
  get_next_backend
    {| backends := [set_healthy false (new_backend "127.0.0.1" 5001 3)];
       current_backend_index := 4;
       stats_total_requests := 0; stats_total_failures := 0 |}
  = (Ret None,
     {| backends := [set_healthy false (new_backend "127.0.0.1" 5001 3)];
        current_backend_index := 4;
        stats_total_requests := 0; stats_total_failures := 0 |})
  ∧ ∃ r, (get_next_backend (pool_321 "a" "b" "c" 5001 5002 5003)).1 = Ret (Some r).
Proof.
  split.
  - apply (proj1 (no_backend_leaves_state _)). right.
    intros b Hb. apply list_elem_of_singleton in Hb. by subst b.
  - apply (proj2 (no_backend_leaves_state (pool_321 "a" "b" "c" 5001 5002 5003))).
    simpl. lia.
Defined.

(** C2: starting from a healthy backend with no recorded failure, two failed
    probes in a row leave it healthy, the third marks it unhealthy, and one
    successful probe (status 200) after that marks it healthy again and puts
    the failure counter back to 0. *)
Theorem check_health_hysteresis (b : BackendServer) (p1 p2 p3 : probe)
    (n1 n2 n3 n4 : timestamp) :
  healthy b = true → failed_checks b = 0 →
  probe_ok p1 = false → probe_ok p2 = false → probe_ok p3 = false →
  let b1 := (check_health b p1 n1).1 in
  let b2 := (check_health b1 p2 n2).1 in
  let b3 := (check_health b2 p3 n3).1 in
  let b4 := (check_health b3 (ProbeStatus 200) n4).1 in
  (healthy b1 = true ∧ failed_checks b1 = 1)
  ∧ (healthy b2 = true ∧ failed_checks b2 = 2)
  ∧ (healthy b3 = false ∧ failed_checks b3 = 3)
  ∧ (healthy b4 = true ∧ failed_checks b4 = 0).
Proof.
  intros Hh Hf H1 H2 H3. unfold check_health.
  rewrite H1, H2, H3. simpl. rewrite Hf. simpl. rewrite Hh. done.
Qed.

Lemma check_health_hysteresis_witness :
  let b := new_backend "127.0.0.1" 5001 3 in
  let b1 := (check_health b ProbeException 10).1 in
  let b2 := (check_health b1 (ProbeStatus 500) 15).1 in
  let b3 := (check_health b2 ProbeException 20).1 in
  let b4 := (check_health b3 (ProbeStatus 200) 25).1 in
  (healthy b1 = true ∧ failed_checks b1 = 1)
  ∧ (healthy b2 = true ∧ failed_checks b2 = 2)
  ∧ (healthy b3 = false ∧ failed_checks b3 = 3)
  ∧ (healthy b4 = true ∧ failed_checks b4 = 0).
Proof.
  exact (check_health_hysteresis (new_backend "127.0.0.1" 5001 3)
           ProbeException (ProbeStatus 500) ProbeException 10 15 20 25
           eq_refl eq_refl eq_refl eq_refl eq_refl).
Defined.

(** C7: when every weight is positive, [get_next_backend] returns [None]
    exactly when every backend of the pool is unhealthy (an empty pool
    included); and when it does, a client whose request was read and who
    still takes writes is sent [503 Service Unavailable] and closed, the
    pool being left untouched. *)
Theorem no_backend_iff_all_unhealthy (lb : LoadBalancer) :
  (∀ b, b ∈ backends lb → 0 < weight b) →
  ((get_next_backend lb).1 = Ret None ↔ ∀ b, b ∈ backends lb → healthy b = false)
  ∧ ∀ env request,
      read_request (client_recv env) [] = Ret request → request ≠ [] →
      (client_send (client_sendall env)).1 = true →
      (get_next_backend lb).1 = Ret None →
      (handle_http_connection lb env).2
        = [ClientSend status_503; ClientClose; ClientClose]
      ∧ backends (handle_http_connection lb env).1 = backends lb
      ∧ current_backend_index (handle_http_connection lb env).1
        = current_backend_index lb.
Proof.
  intros Hw.
  assert (Hiff : (get_next_backend lb).1 = Ret None
                 ↔ ∀ b, b ∈ backends lb → healthy b = false).
  { split.
    - intros Hnone. apply healthy_backends_nil.
      destruct (healthy_backends (backends lb)) as [|h hs] eqn:Hhs; [done|]. exfalso.
      assert (Hwl : weighted_list (healthy_backends (backends lb)) ≠ []).
      { apply weighted_list_nonempty; [by rewrite Hhs|].
        intros [r b] Hin. apply healthy_backends_elem in Hin as [Hin _].
        apply Hw. by eapply list_elem_of_lookup_2. }
      destruct (get_next_backend_selects lb Hwl) as (r & b & Hsel & _).
      rewrite Hsel in Hnone. done.
    - intros Hall. by rewrite get_next_backend_none. }
  split; [exact Hiff|].
  intros env request Hread Hne Hsend Hnone.
  pose proof (get_next_backend_none lb (proj1 Hiff Hnone)) as Hstate.
  unfold handle_http_connection. rewrite Hread.
  destruct request as [|c request]; [done|]. rewrite Hstate.
  destruct (client_send (client_sendall env)) as [[] ?]; done.
Qed.

Lemma no_backend_iff_all_unhealthy_witness :
  (get_next_backend
     {| backends := [set_healthy false (new_backend "127.0.0.1" 5001 3);
                     set_healthy false (new_backend "127.0.0.1" 5002 2)];
        current_backend_index := 7;
        stats_total_requests := 0; stats_total_failures := 0 |}).1 = Ret None.
Proof.
  apply (no_backend_iff_all_unhealthy
           {| backends := [set_healthy false (new_backend "127.0.0.1" 5001 3);
                           set_healthy false (new_backend "127.0.0.1" 5002 2)];
              current_backend_index := 7;
              stats_total_requests := 0; stats_total_failures := 0 |}).
  - intros b Hb. simpl in Hb.
    apply elem_of_cons in Hb as [-> | Hb]; [simpl; lia|].
    apply list_elem_of_singleton in Hb as ->. simpl; lia.
  - intros b Hb. simpl in Hb.
    apply elem_of_cons in Hb as [-> | Hb]; [done|].
    by apply list_elem_of_singleton in Hb as ->.
Defined.

(** ** The HTTP relay *)

Lemma get_next_backend_backends (lb : LoadBalancer) :
  backends (get_next_backend lb).2 = backends lb.
Proof.
  unfold get_next_backend.
  destruct (backends lb) eqn:Hbs; [simpl; congruence|].
  destruct (healthy_backends _); [simpl; congruence|].
  destruct (weighted_list _); simpl; congruence.
Qed.

(** An update of one backend that touches neither its health flag nor its
    failure counter leaves the health view of the pool as it was. *)
Lemma alter_health_view (bs : list BackendServer) (ref : nat)
    (f : BackendServer → BackendServer) :
  (∀ b, health_view (f b) = health_view b) →
  health_view <$> alter f ref bs = health_view <$> bs.
Proof.
  intros Hf. rewrite (list_fmap_alter health_view f id).
  - by apply list_alter_id.
  - apply Forall_forall. intros b _. apply Hf.
Qed.

(** The inner [try] block never writes the health flag or the failure
    counter of any backend. *)
Lemma forward_request_health_view (lb : LoadBalancer) (ref : nat) (conn : backend_conn)
    (request : bytes) (outcomes : list bool) :
  health_view <$> backends (forward_request lb ref conn request outcomes).1.1.2
  = health_view <$> backends lb.
Proof.
  unfold forward_request.
  destruct (connect_ok conn); [|done].
  destruct (sendall_ok conn).
  - destruct (relay_response (response conn) outcomes) as [[ok outcomes'] tr].
    destruct ok; simpl; by rewrite !alter_health_view.
  - simpl. by rewrite !alter_health_view.
Qed.

(** A refused connection is a forwarding error that wrote nothing. *)
Lemma forward_request_refused (lb : LoadBalancer) (ref : nat) (conn : backend_conn)
    (request : bytes) (outcomes : list bool) :
  connect_ok conn = false →
  forward_request lb ref conn request outcomes = (false, lb, outcomes, []).
Proof. intros Hc. unfold forward_request. by rewrite Hc. Qed.

(** C3, as the code has it: on a forwarding error the relay writes
    [502 Bad Gateway] to the client (after whatever part of the answer it
    had already relayed; nothing at all when the connection was refused) and,
    that write succeeding, sets the backend's health flag to false at once.
    The failure counter keeps the value it had: the error does not pass
    through the three-strike rule of [check_health]. *)
Theorem forwarding_error_marks_unhealthy (lb : LoadBalancer) (env : http_env)
    (ref : nat) (b : BackendServer) (lb2 : LoadBalancer) (outcomes : list bool)
    (tr : list action) :
  forwarding_attempt lb env = Some (ref, (false, lb2, outcomes, tr)) →
  (client_send outcomes).1 = true →
  backends lb !! ref = Some b →
  (handle_http_connection lb env).2
    = tr ++ [ClientSend status_502; BackendClose ref; ClientClose]
  ∧ (connect_ok (backend_conn_of env ref) = false → tr = [])
  ∧ ∃ b', backends (handle_http_connection lb env).1 !! ref = Some b'
          ∧ healthy b' = false
          ∧ failed_checks b' = failed_checks b.
Proof.
  unfold forwarding_attempt, handle_http_connection.
  intros Hatt Hsend Hb.
  destruct (read_request (client_recv env) []) as [[|c request]|]; [done| |done].
  pose proof (get_next_backend_backends lb) as Hpool.
  destruct (get_next_backend lb) as [[[r|]|] lb1]; [|done..].
  simpl in Hpool.
  pose proof (forward_request_health_view lb1 r (backend_conn_of env r)
                (c :: request) (client_sendall env)) as Hview.
  pose proof (forward_request_refused lb1 r (backend_conn_of env r)
                (c :: request) (client_sendall env)) as Hrefused.
  destruct (forward_request lb1 r (backend_conn_of env r) (c :: request)
              (client_sendall env)) as [[[ok lb2'] outcomes'] tr'].
  injection Hatt as -> -> -> -> ->. simpl in Hview.
  destruct (client_send outcomes) as [[] ?]; [|done].
  split; [done|]. split.
  { intros Hc. specialize (Hrefused Hc). by injection Hrefused. }
  rewrite Hpool in Hview.
  assert (Hb2 : health_view <$> backends lb2 !! ref = Some (health_view b)).
  { by rewrite <- list_lookup_fmap, Hview, list_lookup_fmap, Hb. }
  destruct (backends lb2 !! ref) as [b2|] eqn:Hlb2; [|done].
  injection Hb2 as Hh Hf.
  exists (set_healthy false b2). simpl.
  rewrite list_lookup_alter_eq, Hlb2. done.
Qed.

Lemma forwarding_error_marks_unhealthy_witness :
  (handle_http_connection single_backend_pool refused_env).2
    = [ClientSend status_502; BackendClose 0; ClientClose]
  ∧ ∃ b', backends (handle_http_connection single_backend_pool refused_env).1 !! 0%nat
            = Some b'
          ∧ healthy b' = false
          ∧ failed_checks b' = 0.
Proof.
  destruct (forwarding_error_marks_unhealthy single_backend_pool refused_env 0
              (new_backend "127.0.0.1" 5001 1)
              (set_current_backend_index 1 single_backend_pool) [] []
              eq_refl eq_refl eq_refl) as (Htr & _ & Hb).
  split; [exact Htr | exact Hb].
Defined.

(** C3 as stated fails: after a refused connection the only backend of a
    fresh pool is unhealthy with a failure counter of 0, where a failed probe
    would have left it healthy with a counter of 1. *)
Lemma forwarding_error_skips_counter :
  ¬ counted_like_probe_failure single_backend_pool refused_env.
Proof.
  intros Hclaim.
  destruct (Hclaim 0%nat (new_backend "127.0.0.1" 5001 1)
              (set_healthy false (new_backend "127.0.0.1" 5001 1))) as [Hcount _].
  - by exists (set_current_backend_index 1 single_backend_pool), [], [].
  - reflexivity.
  - reflexivity.
  - discriminate Hcount.
Qed.

(** *** Searching and splitting *)

Lemma startswith_length (pre s : list Z) :
  startswith pre s = true → (length pre ≤ length s)%nat.
Proof.
  revert s. induction pre as [|p pre IH]; intros [|c s]; simpl; try done; try lia.
  intros [_ Hrest]%andb_prop. apply IH in Hrest. lia.
Qed.

Lemma startswith_app (pre s t : list Z) :
  startswith pre s = true → startswith pre (s ++ t) = true.
Proof.
  revert s. induction pre as [|p pre IH]; intros [|c s]; simpl; try done.
  intros [-> Hrest]%andb_prop. by apply IH.
Qed.

Lemma startswith_app_long (pre s t : list Z) :
  (length pre ≤ length s)%nat → startswith pre (s ++ t) = startswith pre s.
Proof.
  revert s. induction pre as [|p pre IH]; intros [|c s]; simpl; try done; try lia.
  intros Hlen. f_equal. apply IH. lia.
Qed.

(** A match that lies inside [s] is not affected by what follows [s]. *)
Lemma startswith_drop_app (sub s t : list Z) (m : nat) :
  (m + length sub ≤ length s)%nat →
  startswith sub (drop m (s ++ t)) = startswith sub (drop m s).
Proof.
  intros Hm. rewrite drop_app_le by lia.
  apply startswith_app_long. rewrite length_drop. lia.
Qed.

Lemma find_None (sub s : list Z) :
  find sub s = None ↔ ∀ m, (m ≤ length s)%nat → startswith sub (drop m s) = false.
Proof.
  induction s as [|c s IH]; simpl.
  - split.
    + intros Hf m Hm. rewrite drop_nil. by destruct (startswith sub []).
    + intros Hall. specialize (Hall 0%nat). simpl in Hall. by rewrite Hall.
  - split.
    + intros Hf [|m] Hm; simpl.
      * by destruct (startswith sub (c :: s)).
      * destruct (startswith sub (c :: s)); [done|].
        apply IH; [|lia]. by destruct (find sub s).
    + intros Hall. pose proof (Hall 0%nat ltac:(lia)) as Hhere. simpl in Hhere.
      rewrite Hhere.
      assert (Hrest : find sub s = None).
      { apply IH. intros m Hm. apply (Hall (S m)). lia. }
      by rewrite Hrest.
Qed.

Lemma find_Some (sub s : list Z) (n : nat) :
  find sub s = Some n
  ↔ (n ≤ length s)%nat ∧ startswith sub (drop n s) = true
    ∧ ∀ m, (m < n)%nat → startswith sub (drop m s) = false.
Proof.
  revert n. induction s as [|c s IH]; intros n; simpl.
  - split.
    + destruct (startswith sub []) eqn:Hs; [|done]. intros [= <-].
      split_and!; [done | done | lia].
    + intros (Hn & Hs & _). assert (n = 0%nat) as -> by lia. simpl in Hs.
      by rewrite Hs.
  - destruct (startswith sub (c :: s)) eqn:Hs.
    + split.
      * intros [= <-]. split_and!; [lia | done | lia].
      * intros (_ & _ & Hmin). destruct n as [|n]; [done|].
        pose proof (Hmin 0%nat ltac:(lia)) as Hhere. simpl in Hhere. congruence.
    + split.
      * destruct (find sub s) as [k|] eqn:Hk; [|done]. intros [= <-].
        destruct (proj1 (IH k) eq_refl) as (Hlen & Hat & Hmin).
        split_and!; [lia | done |]. intros [|m] Hm; [done|]. apply Hmin. lia.
      * intros (Hlen & Hat & Hmin). destruct n as [|n].
        { simpl in Hat. congruence. }
        assert (Hk : find sub s = Some n).
        { apply IH. split_and!; [lia | done |].
          intros m Hm. apply (Hmin (S m)). lia. }
        by rewrite Hk.
Qed.

(** Before the first match is complete, nothing is found. *)
Lemma find_short (sub s rest p q : list Z) (n : nat) :
  find sub s = Some n → p ++ q = s ++ rest →
  (length p < n + length sub)%nat → find sub p = None.
Proof.
  intros (Hn & Hat & Hmin)%find_Some Hpq Hshort.
  apply find_None. intros m Hm.
  destruct (startswith sub (drop m p)) eqn:Hp; [exfalso|done].
  pose proof (startswith_length _ _ Hp) as Hlen. rewrite length_drop in Hlen.
  pose proof (startswith_length _ _ Hat) as Hlen'. rewrite length_drop in Hlen'.
  assert (Hlt : (m < n)%nat) by lia.
  rewrite <- (startswith_drop_app sub p q m) in Hp by lia.
  rewrite Hpq, startswith_drop_app in Hp by lia.
  rewrite (Hmin m Hlt) in Hp. done.
Qed.

(** Once the first match is complete, it stays the first. *)
Lemma find_long (sub s rest : list Z) (n : nat) :
  find sub s = Some n → find sub (s ++ rest) = Some n.
Proof.
  intros (Hn & Hat & Hmin)%find_Some.
  pose proof (startswith_length _ _ Hat) as Hlen. rewrite length_drop in Hlen.
  apply find_Some. split_and!.
  - rewrite length_app. lia.
  - rewrite drop_app_le by lia. by apply startswith_app.
  - intros m Hm. rewrite startswith_drop_app by lia. by apply Hmin.
Qed.

Lemma contains_sublist (sub u line v : list Z) :
  contains sub line = true → contains sub (u ++ line ++ v) = true.
Proof.
  unfold contains. destruct (find sub line) as [n|] eqn:Hn; [|done]. intros _.
  apply find_Some in Hn as (Hn & Hat & _).
  destruct (find sub (u ++ line ++ v)) eqn:Hf; [done|]. exfalso.
  pose proof (proj1 (find_None _ _) Hf (length u + n)%nat) as Hno.
  rewrite drop_app_add', drop_app_le in Hno by lia.
  rewrite startswith_app in Hno by done.
  discriminate Hno. rewrite !length_app. lia.
Qed.

(** Every field [split] returns is a piece of the string that was split:
    either the pending field followed by a piece that starts where the
    skipping ends, or a piece of what is still to be read. *)
Lemma split_go_sublist (sep : list Z) (s : list Z) :
  ∀ (skip : nat) (cur line : list Z),
    line ∈ split_go sep skip cur s →
    (∃ w v, line = reverse cur ++ w ∧ drop skip s = w ++ v)
    ∨ (∃ u v, s = u ++ line ++ v).
Proof.
  induction s as [|c s IH]; intros skip cur line; simpl.
  - intros ->%list_elem_of_singleton. left. exists [], [].
    by rewrite app_nil_r, drop_nil.
  - destruct skip as [|k].
    + destruct (startswith sep (c :: s)).
      * intros [-> | Hin]%elem_of_cons.
        { left. exists [], (c :: s). by rewrite app_nil_r. }
        apply IH in Hin as [(w & v & -> & Hdrop) | (u & v & ->)].
        -- right. exists (c :: take (length sep - 1) s), v. simpl.
           rewrite <- (take_drop (length sep - 1) s) at 1. by rewrite Hdrop.
        -- right. by exists (c :: u), v.
      * intros Hin. apply IH in Hin as [(w & v & -> & Hdrop) | (u & v & ->)].
        -- left. exists (c :: w), v. simpl in *.
           rewrite drop_0 in Hdrop.
           split; [by rewrite reverse_cons, <- app_assoc | by rewrite Hdrop].
        -- right. by exists (c :: u), v.
    + intros Hin. apply IH in Hin as [(w & v & -> & Hdrop) | (u & v & ->)].
      * left. by exists w, v.
      * right. by exists (c :: u), v.
Qed.

Lemma split_sublist (sep s line : list Z) :
  line ∈ split sep s → ∃ u v, s = u ++ line ++ v.
Proof.
  intros [(w & v & -> & Hdrop) | Hsub]%split_go_sublist; [|done].
  exists [], v. rewrite drop_0 in Hdrop. by rewrite Hdrop.
Qed.

(** *** A request that announces its body *)

(** The header scan raises nothing when every [Content-Length:] line
    carries a number. *)
Lemma scan_raises_nothing (lines : list str) (request_len headers_end : Z) :
  lengths_are_numbers lines = true →
  ∃ b, scan_content_length lines request_len headers_end = Ret b.
Proof.
  unfold lengths_are_numbers. induction lines as [|line lines IH].
  - by exists false.
  - cbn [forallb scan_content_length].
    intros [Hline Hrest]%andb_prop. unfold content_length_of in Hline.
    destruct (startswith (lit "Content-Length:") line); [|by apply IH].
    destruct (split (lit ":") line !! 1%nat) as [field|]; [|done].
    cbn [mbind option_bind] in Hline.
    destruct (py_int (strip field)) as [content_length|]; [|done].
    destruct (content_length <=? request_len - (headers_end + 4)); [by exists true|].
    by apply IH.
Qed.

(** A header line that starts with [Content-Length:] puts that text into
    the header block. *)
Lemma declared_length_is_seen (n : Z) (sep s : list Z) :
  declares_length n (split sep s) = true → contains (lit "Content-Length:") s = true.
Proof.
  unfold declares_length. intros (line & Hin & [Hstarts _]%andb_prop)%existsb_exists.
  apply list_elem_of_In, split_sublist in Hin as (u & v & ->).
  apply contains_sublist. unfold contains.
  destruct (find (lit "Content-Length:") line) eqn:Hf; [done|].
  pose proof (proj1 (find_None _ _) Hf 0%nat ltac:(lia)) as Hno.
  rewrite drop_0 in Hno. congruence.
Qed.

(** Whatever part of such a request has arrived, the reader goes on
    reading. *)
Lemma reading_done_announced (n : Z) (head body p q : bytes) :
  find CRLFCRLF (head ++ CRLFCRLF) = Some (length head) →
  declares_length n (split CRLF (decode_ignore head)) = true →
  lengths_are_numbers (split CRLF (decode_ignore head)) = true →
  p ++ q = head ++ CRLFCRLF ++ body →
  reading_done p = Ret false.
Proof.
  intros Hend Hdecl Hnum Hpq. rewrite app_assoc in Hpq. unfold reading_done.
  destruct (decide (length p < length head + length CRLFCRLF)%nat) as [Hshort | Hlong].
  - by rewrite (find_short _ _ _ _ _ _ Hend Hpq Hshort).
  - assert (Hp : p = (head ++ CRLFCRLF) ++ drop (length (head ++ CRLFCRLF)) p).
    { rewrite <- (take_drop (length (head ++ CRLFCRLF)) p) at 1. f_equal.
      rewrite <- (take_app_le p q) by (rewrite length_app; lia).
      by rewrite Hpq, take_app_length. }
    rewrite Hp, (find_long _ _ _ _ Hend). cbv zeta.
    rewrite <- app_assoc, take_app_length.
    rewrite (declared_length_is_seen n _ _ Hdecl).
    destruct (scan_raises_nothing (split CRLF (decode_ignore head))
                (Z.of_nat (length (head ++ CRLFCRLF ++ drop (length (head ++ CRLFCRLF)) p)))
                (Z.of_nat (length head)) Hnum) as [b ->].
    done.
Qed.

(** However the request is cut into chunks, the reader collects all of it
    and stops at the timeout. *)
Lemma read_request_stalled (n : Z) (head body : bytes) (chunks : list bytes) :
  find CRLFCRLF (head ++ CRLFCRLF) = Some (length head) →
  declares_length n (split CRLF (decode_ignore head)) = true →
  lengths_are_numbers (split CRLF (decode_ignore head)) = true →
  ∀ (buf : bytes) (rest : list recv_event),
    Forall (fun c => c ≠ []) chunks →
    buf ++ concat chunks = head ++ CRLFCRLF ++ body →
    read_request ((RecvData <$> chunks) ++ RecvTimeout :: rest) buf
    = Ret (head ++ CRLFCRLF ++ body).
Proof.
  intros Hend Hdecl Hnum.
  induction chunks as [|c chunks IH]; intros buf rest Hne Hcat.
  - simpl in *. rewrite app_nil_r in Hcat. by rewrite Hcat.
  - apply Forall_cons in Hne as [Hc Hne].
    destruct c as [|x c]; [done|].
    assert (Hcat' : (buf ++ x :: c) ++ concat chunks = head ++ CRLFCRLF ++ body).
    { rewrite <- Hcat. simpl. by rewrite <- app_assoc. }
    rewrite fmap_cons. simpl.
    rewrite (reading_done_announced n head body _ _ Hend Hdecl Hnum Hcat').
    by apply IH.
Qed.

(** C4, as the code has it.  The head of the request ends at its first
    blank line, has a line that starts with [Content-Length:] and reads as
    50, and no line that starts with [Content-Length:] without carrying a
    number.  The client sends the head and part of the body (30 bytes, or
    any other number), in any number of chunks, and then lets the read time
    out.  It is not dropped: the timeout ends the reading with all that has
    arrived; the relay selects a backend as for any request and, the
    connection to it and the write succeeding, sends it the head, the blank
    line and the bytes of the body that came. *)
Theorem stalled_upload_is_forwarded (lb lb1 : LoadBalancer) (env : http_env)
    (ref : nat) (chunks : list bytes) (head body : bytes) (rest : list recv_event) :
  client_recv env = (RecvData <$> chunks) ++ RecvTimeout :: rest →
  Forall (fun c => c ≠ []) chunks →
  concat chunks = head ++ CRLFCRLF ++ body →
  find CRLFCRLF (head ++ CRLFCRLF) = Some (length head) →
  declares_length 50 (split CRLF (decode_ignore head)) = true →
  lengths_are_numbers (split CRLF (decode_ignore head)) = true →
  get_next_backend lb = (Ret (Some ref), lb1) →
  connect_ok (backend_conn_of env ref) = true →
  sendall_ok (backend_conn_of env ref) = true →
  read_request (client_recv env) [] = Ret (head ++ CRLFCRLF ++ body)
  ∧ ∃ tr, (handle_http_connection lb env).2
          = BackendConnect ref :: BackendSend ref (head ++ CRLFCRLF ++ body) :: tr.
Proof.
  intros Hrecv Hne Hcat Hend Hdecl Hnum Hsel Hconn Hsend.
  assert (Hread : read_request (client_recv env) [] = Ret (head ++ CRLFCRLF ++ body)).
  { rewrite Hrecv. by apply (read_request_stalled 50). }
  split; [exact Hread|].
  unfold handle_http_connection. rewrite Hread.
  assert (Hcons : ∃ c r, head ++ CRLFCRLF ++ body = c :: r).
  { destruct head; eexists _, _; reflexivity. }
  destruct Hcons as (c & r & Hcr). rewrite Hcr, Hsel.
  unfold forward_request. rewrite Hconn, Hsend.
  destruct (relay_response _ _) as [[[] outcomes] tr]; simpl.
  - eexists; reflexivity.
  - destruct (client_send outcomes) as [[] ?]; eexists; reflexivity.
Qed.

Lemma stalled_upload_is_forwarded_witness :
  ∃ tr, (handle_http_connection single_backend_pool stalled_upload_env).2
        = BackendConnect 0
          :: BackendSend 0 (upload_headers ++ CRLFCRLF ++ replicate 30 120) :: tr.
Proof.
  apply (stalled_upload_is_forwarded single_backend_pool
           (set_current_backend_index 1 single_backend_pool) stalled_upload_env 0
           [upload_head ++ replicate 30 120] upload_headers (replicate 30 120) []).
  - reflexivity.
  - apply Forall_cons. split; [discriminate | apply Forall_nil_2].
  - reflexivity.
  - reflexivity.
  - reflexivity.
  - reflexivity.
  - reflexivity.
  - reflexivity.
  - reflexivity.
Defined.

(** C4 as stated fails: with one healthy backend, the stalled upload is
    handed to that backend and the cursor has moved. *)
Lemma stalled_upload_reaches_backend :
  ¬ closed_without_forwarding single_backend_pool stalled_upload_env.
Proof. intros [Hnone _]. vm_compute in Hnone. discriminate Hnone. Qed.

(** The same upload with the header name in lower case: the reader does
    not see a declared length, stops as soon as the blank line is in, and the
    relay forwards the head without waiting for the body. *)
Example lower_case_header_stops_reading :
  read_request
    [RecvData (lit "POST /upload HTTP/1.1" ++ CRLF ++ lit "content-length: 50"
               ++ CRLFCRLF);
     RecvData (replicate 30 120);
     RecvTimeout] []
  = Ret (lit "POST /upload HTTP/1.1" ++ CRLF ++ lit "content-length: 50" ++ CRLFCRLF).
Proof. reflexivity. Qed.

(** A client that sends nothing before the timeout is closed, and nothing
    else happens. *)
Lemma silent_client_is_closed (lb : LoadBalancer) (env : http_env)
    (rest : list recv_event) :
  client_recv env = RecvTimeout :: rest →
  handle_http_connection lb env = (lb, [ClientClose; ClientClose]).
Proof. intros Hrecv. unfold handle_http_connection. by rewrite Hrecv. Qed.

(** ** The TCP relay: selection *)

Lemma filter_all {A : Type} (P : A → Prop) `{!∀ x, Decision (P x)} (l : list A) :
  Forall P l → filter P l = l.
Proof.
  induction 1 as [|x l Hx _ IH]; [done|].
  rewrite filter_cons_True by done. by rewrite IH.
Qed.

Lemma healthy_backends_all (bs : list BackendServer) :
  (∀ b, b ∈ bs → healthy b = true) → healthy_backends bs = enumerate bs.
Proof.
  intros Hall. unfold healthy_backends. apply filter_all, Forall_forall.
  intros [r b] Hin. apply enumerate_elem in Hin. simpl.
  apply Hall. by eapply list_elem_of_lookup_2.
Qed.

Lemma weighted_list_unit_weights (hs : list (nat * BackendServer)) :
  (∀ rb, rb ∈ hs → weight rb.2 = 1) → weighted_list hs = hs.*1.
Proof.
  unfold weighted_list. induction hs as [|rb hs IH]; intros Hw; [done|].
  simpl. rewrite (Hw rb) by left. simpl. f_equal.
  apply IH. intros rb' Hin. apply Hw. by right.
Qed.

Lemma enumerate_fst {A : Type} (l : list A) : (enumerate l).*1 = seq 0 (length l).
Proof. unfold enumerate. apply fst_zip. by rewrite length_seq. Qed.

(** With every backend healthy and every weight 1, the expansion is the
    pool itself. *)
Lemma weighted_list_plain (bs : list BackendServer) :
  (∀ b, b ∈ bs → healthy b = true ∧ weight b = 1) →
  weighted_list (healthy_backends bs) = seq 0 (length bs).
Proof.
  intros Hall. rewrite healthy_backends_all by (intros b Hb; by apply Hall).
  rewrite weighted_list_unit_weights; [apply enumerate_fst|].
  intros [r b] Hin. apply enumerate_elem in Hin. simpl.
  apply Hall. by eapply list_elem_of_lookup_2.
Qed.

(** C5, as the code has it: the TCP relay selects by plain round-robin over
    the whole pool, in pool order: position [current_index % len(backends)],
    whatever the health flags, with no weights; it never reports an empty
    selection for a non-empty pool.  This is what the HTTP scheduler does on
    the same pool when every backend is healthy and has weight 1.  The
    cursor is the relay's own: an HTTP selection leaves it alone, and a TCP
    selection leaves the HTTP cursor alone. *)
Theorem tcp_round_robin (lb : TCP.TCPLoadBalancer) :
  TCP.backends lb ≠ [] →
  (TCP.get_next_backend lb
   = (Some (Z.to_nat (TCP.current_index lb `mod` Z.of_nat (length (TCP.backends lb)))),
      {| TCP.backends := TCP.backends lb;
         TCP.current_index := TCP.current_index lb + 1 |})
   ∧ (Z.to_nat (TCP.current_index lb `mod` Z.of_nat (length (TCP.backends lb)))
      < length (TCP.backends lb))%nat)
  ∧ ((∀ b, b ∈ TCP.backends lb → TCP.healthy b = true) →
     selects_like_http (fun _ => 1) lb)
  ∧ (∀ http, tcp_lb (http_select {| http_lb := http; tcp_lb := lb |}).2 = lb
             ∧ http_lb (tcp_select {| http_lb := http; tcp_lb := lb |}).2 = http).
Proof.
  intros Hne.
  assert (Hlen : (0 < length (TCP.backends lb))%nat).
  { destruct (TCP.backends lb); [done | simpl; lia]. }
  assert (Hsel : TCP.get_next_backend lb
    = (Some (Z.to_nat (TCP.current_index lb `mod` Z.of_nat (length (TCP.backends lb)))),
       {| TCP.backends := TCP.backends lb;
          TCP.current_index := TCP.current_index lb + 1 |})).
  { unfold TCP.get_next_backend. by destruct (TCP.backends lb). }
  split; [split; [exact Hsel | by apply cursor_in_range]|]. split.
  - intros Hall. unfold selects_like_http. rewrite Hsel. simpl.
    assert (Hplain : weighted_list (healthy_backends (backends (as_http_pool (fun _ => 1) lb)))
                     = seq 0 (length (TCP.backends lb))).
    { rewrite weighted_list_plain; [simpl; by rewrite length_imap|].
      intros b Hb. simpl in Hb. apply elem_of_lookup_imap_1 in Hb as (r & tb & -> & Hr).
      simpl. split; [|done]. apply Hall. by eapply list_elem_of_lookup_2. }
    assert (Hwl : weighted_list (healthy_backends (backends (as_http_pool (fun _ => 1) lb)))
                  ≠ []).
    { rewrite Hplain. destruct (length (TCP.backends lb)); [lia | done]. }
    destruct (get_next_backend_selects _ Hwl) as (r & b & -> & Hr & _).
    simpl. rewrite Hplain, length_seq in Hr. simpl in Hr.
    apply lookup_seq in Hr as [-> _]. done.
  - intros http. unfold http_select, tcp_select. simpl.
    destruct (get_next_backend http). rewrite Hsel. done.
Qed.

Lemma tcp_round_robin_witness :
  TCP.get_next_backend tcp_cluster_pool
  = (Some 1%nat,
     {| TCP.backends := TCP.backends tcp_cluster_pool; TCP.current_index := 2 |}).
Proof.
  apply (tcp_round_robin tcp_cluster_pool). discriminate.
Defined.

(** No choice of weights turns the selection on [tcp_pool_first_down] into
    a weighted selection among healthy backends. *)
Lemma tcp_selects_unhealthy (weights : nat → Z) :
  ¬ selects_like_http weights tcp_pool_first_down.
Proof.
  unfold selects_like_http, get_next_backend. simpl.
  unfold healthy_backends, weighted_list. simpl.
  destruct (Z.to_nat (weights 1%nat)) as [|n] eqn:Hn; simpl; [done|].
  intros Heq. vm_compute in Heq. discriminate Heq.
Qed.

(** C5 as stated fails: the TCP relay hands out a backend flagged
    unhealthy, and on the pool of [run_cluster.py] its second selection is
    the second instance where the weights 3, 2, 1 call for the first one
    again. *)
Lemma tcp_selection_is_not_weighted :
  ¬ selects_like_http (fun _ => 1) tcp_pool_first_down
  ∧ ¬ selects_like_http cluster_weights tcp_cluster_pool.
Proof.
  split.
  - apply tcp_selects_unhealthy.
  - unfold selects_like_http. vm_compute. discriminate.
Qed.

(** ** The TCP relay: forwarding *)

Section Relay.
Import TCP.

Lemma forward_step_cases (pc pc' : forward_pc) (source destination source' destination' : sock) :
  forward_step pc source destination = Some (pc', source', destination') →
  (closed source = true → closed source' = true)
  ∧ (closed destination = true →
     closed destination' = true ∧ delivered destination' = delivered destination)
  ∧ delivered source' = delivered source
  ∧ (pc' = ClosingDestination → closed source' = true)
  ∧ (pc' = Finished → closed destination' = true ∧ pc = ClosingDestination)
  ∧ (pc = ClosingDestination → pc' = Finished)
  ∧ pc ≠ Finished.
Proof.
  destruct pc; simpl; try done.
  - destruct (closed source) eqn:Hs; intros [= <- <- <-]; by rewrite ?Hs.
  - destruct (incoming source) as [|[[|x data]| |] rest];
      intros [= <- <- <-]; simpl; done.
  - destruct (closed destination) eqn:Hd; simpl.
    + intros [= <- <- <-]. by rewrite Hd.
    + destruct (writable destination); simpl; intros [= <- <- <-]; simpl; by rewrite ?Hd.
  - intros [= <- <- <-]. done.
  - intros [= <- <- <-]. done.
Qed.

(** One step of any thread keeps the invariant. *)
Lemma step_keeps_inv (who : thread) (r r' : relay) :
  step who r = Some r' → relay_inv r → relay_inv r'.
Proof.
  unfold relay_inv. destruct who; simpl.
  - destruct (handler r) eqn:Hh.
    + intros [= <-]; simpl. intuition congruence.
    + intros [= <-]; simpl. intuition congruence.
    + destruct (t1 r) eqn:H1; try done. intros [= <-]; simpl. intuition congruence.
    + destruct (t2 r) eqn:H2; try done. intros [= <-]; simpl. intuition congruence.
    + done.
  - destruct (forward_step (t1 r) (client_socket r) (backend_socket r))
      as [[[pc s] d]|] eqn:Hf; [|done].
    intros [= <-]; simpl.
    apply forward_step_cases in Hf as (Hs & Hd & _ & Hcd & Hfin & _ & Hnf).
    intros (I1 & I2 & I3 & I4 & I5 & I6).
    repeat split.
    + intros Hj. by destruct (Hnf (I1 Hj)).
    + intros Hj. pose proof (I2 Hj) as H2. done.
    + intros [Hpc | Hpc]; [by apply Hcd|].
      destruct (Hfin Hpc) as [_ Hold]. apply Hs, I3. by left.
    + intros Hpc. by destruct (Hfin Hpc).
    + intros H2. by apply Hd, I5.
    + intros H2. by apply Hs, I6.
  - destruct (forward_step (t2 r) (backend_socket r) (client_socket r))
      as [[[pc s] d]|] eqn:Hf; [|done].
    intros [= <-]; simpl.
    apply forward_step_cases in Hf as (Hs & Hd & _ & Hcd & Hfin & _ & Hnf).
    intros (I1 & I2 & I3 & I4 & I5 & I6).
    repeat split.
    + done.
    + intros Hj. by destruct (Hnf (I2 Hj)).
    + intros H1. by apply Hd, I3.
    + intros H1. by apply Hs, I4.
    + intros [Hpc | Hpc]; [by apply Hcd|].
      destruct (Hfin Hpc) as [_ Hold]. apply Hs, I5. by left.
    + intros Hpc. by destruct (Hfin Hpc).
Qed.

Lemma reachable_inv (r r' : relay) : rtc steps_to r r' → relay_inv r → relay_inv r'.
Proof.
  induction 1 as [|r1 r2 r3 [who Hstep] _ IH]; [done|].
  intros Hinv. by eapply IH, step_keeps_inv.
Qed.

(** A [forward] thread reads only from its source and writes only to its
    destination. *)
Lemma forward_step_streams (pc pc' : forward_pc) (source destination source' destination' : sock) :
  forward_step pc source destination = Some (pc', source', destination') →
  incoming destination' = incoming destination
  ∧ delivered source' = delivered source.
Proof.
  destruct pc; simpl; try done.
  - destruct (closed source); by intros [= <- <- <-].
  - destruct (incoming source) as [|[[|x data]| |] rest]; by intros [= <- <- <-].
  - destruct (closed destination || negb (writable destination)); by intros [= <- <- <-].
  - by intros [= <- <- <-].
  - by intros [= <- <- <-].
Qed.

Lemma run_app (s1 s2 : list thread) (r : relay) : run (s1 ++ s2) r = run s2 (run s1 r).
Proof.
  revert r. induction s1 as [|who s1 IH]; intros r; [done|].
  simpl. by destruct (step who r).
Qed.

Lemma run_reachable (schedule : list thread) (r : relay) : rtc steps_to r (run schedule r).
Proof.
  revert r. induction schedule as [|who schedule IH]; intros r; [done|].
  simpl. destruct (step who r) as [r'|] eqn:Hstep; [|apply IH].
  eapply rtc_l; [by exists who | apply IH].
Qed.
End Relay.

(** ** The message router *)

Section Router.
Import Messenger.

Lemma dict_get_set_eq (k : string) (v : json) (fields : list (string * json)) :
  dict_get k (dict_set k v fields) = Some v.
Proof.
  induction fields as [|[k' v'] fields IH]; simpl.
  - by rewrite String.eqb_refl.
  - destruct (String.eqb k k') eqn:Hk; simpl.
    + by rewrite String.eqb_refl.
    + by rewrite Hk.
Qed.

Lemma dict_get_set_ne (k k' : string) (v : json) (fields : list (string * json)) :
  k ≠ k' → dict_get k (dict_set k' v fields) = dict_get k fields.
Proof.
  intros Hne. apply String.eqb_neq in Hne.
  induction fields as [|[k'' v''] fields IH]; simpl.
  - by rewrite Hne.
  - destruct (String.eqb k' k'') eqn:Hk; simpl.
    + apply String.eqb_eq in Hk as <-. by rewrite Hne.
    + by rewrite IH.
Qed.

(** What a stamped record holds. *)
Lemma stamped_fields (fields : list (string * json)) (now k : string) :
  ∃ record, stamped fields now = JObj record
    ∧ dict_get "timestamp" record = Some (JStr now)
    ∧ dict_get "delivered" record = Some (JBool true)
    ∧ (k ≠ "timestamp" → k ≠ "delivered" → dict_get k record = dict_get k fields).
Proof.
  eexists. split; [reflexivity|]. repeat split.
  - rewrite dict_get_set_ne by done. apply dict_get_set_eq.
  - apply dict_get_set_eq.
  - intros Ht Hd. by rewrite !dict_get_set_ne.
Qed.

(** The two writes to [message_queue] amount to one append; what is
    answered depends on the [print] that follows them. *)
Lemma handle_client_enqueues (st : TCPMessenger) (f : frame) (now : string)
    (print_ok : bool) (outcomes : list bool) (k : pykey)
    (fields : list (string * json)) :
  deliverable f = Some (k, fields) →
  appended st (_handle_client st f now print_ok outcomes).1 k (stamped fields now)
  ∧ (_handle_client st f now print_ok outcomes).2
    = if print_ok then reply AckDelivered outcomes
      else on_exception UnicodeEncodeError outcomes.
Proof.
  unfold deliverable, _handle_client, appended, stamped.
  destruct f as [e| |[| | | | |message_data]]; try done.
  destruct (dict_get "recipient" message_data) as [recipient|]; [|done].
  destruct (truthy recipient); [|done].
  destruct (key_of recipient) as [k'|]; [|done].
  intros [= -> ->]. simpl. split; [|done].
  destruct (message_queue st !! k) as [old|] eqn:Hold; simpl.
  - by rewrite Hold.
  - by rewrite lookup_insert_eq, insert_insert_eq.
Qed.

(** A frame that is not accepted leaves the queue alone. *)
Lemma handle_client_refuses (st : TCPMessenger) (f : frame) (now : string)
    (print_ok : bool) (outcomes : list bool) :
  deliverable f = None →
  (_handle_client st f now print_ok outcomes).1 = st
  ∧ (f = FrameEmpty ∧ (_handle_client st f now print_ok outcomes).2 = [Close]
     ∨ f ≠ FrameEmpty
       ∧ ∃ a, ack_status a = "error"
              ∧ ((client_send outcomes).1 = true →
                 (_handle_client st f now print_ok outcomes).2 = [Send a; Close])).
Proof.
  unfold deliverable, _handle_client.
  destruct f as [e| |[| | | | |message_data]]; simpl; intros Hd;
    try (split; [done|]; right; split; [done|];
         exists (AckException AttributeError); split; [done|];
         unfold on_exception; by destruct (client_send outcomes) as [[] ?]).
  - split; [done|]. right. split; [done|]. exists (AckException e). split; [done|].
    unfold on_exception. by destruct (client_send outcomes) as [[] ?].
  - split; [done|]. by left.
  - destruct (dict_get "recipient" message_data) as [recipient|].
    + destruct (truthy recipient).
      * destruct (key_of recipient); [done|].
        split; [done|]. right. split; [done|]. exists (AckException TypeError).
        split; [done|]. unfold on_exception. by destruct (client_send outcomes) as [[] ?].
      * split; [done|]. right. split; [done|]. exists AckNoRecipient.
        split; [done|]. unfold reply. by destruct (client_send outcomes) as [[] ?].
    + split; [done|]. right. split; [done|]. exists AckNoRecipient.
      split; [done|]. unfold reply. by destruct (client_send outcomes) as [[] ?].
Qed.

(** [get_messages] with [mark_read] hands over the whole queue of the user
    and leaves that queue empty. *)
Lemma get_messages_drains (st : TCPMessenger) (user_email : string) :
  (get_messages st user_email true).1
    = default [] (message_queue st !! KStr user_email)
  ∧ (get_messages (get_messages st user_email true).2 user_email true).1 = []
  ∧ has_messages (get_messages st user_email true).2 user_email = false.
Proof.
  unfold get_messages, get_messages_copy, get_messages_reset, has_messages.
  destruct (message_queue st !! KStr user_email) as [messages|] eqn:Hq; simpl.
  - by rewrite lookup_insert_eq.
  - by rewrite Hq.
Qed.

(** What [send_message] returns when the frame arrives whole. *)
Lemma send_message_intact (st : TCPMessenger) (A B body sent_at received_at : string)
    (encrypted print_ok : bool) (outcomes : list bool) :
  (B = EmptyString →
   send_message st A B body encrypted sent_at received_at Intact print_ok outcomes
   = (st, false))
  ∧ (B ≠ EmptyString →
     appended st
       (send_message st A B body encrypted sent_at received_at Intact print_ok
          outcomes).1
       (KStr B) (stamped (packet A B body encrypted sent_at) received_at)
     ∧ (send_message st A B body encrypted sent_at received_at Intact print_ok
          outcomes).2
       = (client_send outcomes).1 && print_ok).
Proof.
  split.
  - intros ->. unfold send_message, _handle_client. simpl.
    unfold reply, on_exception.
    destruct (client_send outcomes) as [[] outcomes']; simpl; [done|].
    by destruct (client_send outcomes') as [[] ?].
  - intros HB. unfold send_message.
    set (f := FrameJson (JObj (packet A B body encrypted sent_at))).
    assert (Hd : deliverable f = Some (KStr B, packet A B body encrypted sent_at)).
    { unfold f, deliverable. simpl.
      destruct (String.eqb B EmptyString) eqn:Heq; [|done].
      by apply String.eqb_eq in Heq. }
    destruct (handle_client_enqueues st f received_at print_ok outcomes _ _ Hd)
      as [Happ Hact].
    destruct (_handle_client st f received_at print_ok outcomes) as [st' actions].
    simpl in Happ, Hact. subst actions. unfold reply, on_exception.
    destruct print_ok.
    + destruct (client_send outcomes) as [[] outcomes']; simpl; [done|].
      destruct (client_send outcomes') as [[] ?]; simpl; done.
    + destruct (client_send outcomes) as [[] outcomes']; simpl; done.
Qed.

(** A poll that is not interrupted is a poll during which nothing
    arrives. *)
Lemma racing_alone (st : TCPMessenger) (user_email : string) :
  racing_get_messages st user_email [] = get_messages st user_email true.
Proof. unfold racing_get_messages, get_messages. by destruct (get_messages_copy _ _). Qed.

(** C8, as the code has it.  After a [send_message] from [A] to [B] that
    returned [True], a draining [get_messages] for [B] that runs without
    interruption returns what was queued for [B] before, followed by one
    record with that sender, recipient and body; so exactly that record when
    nothing was queued for [B]; and the next poll returns nothing.  The drain
    is not atomic: when handler threads run between the copy of the queue
    and its replacement, the poll returns what was queued at the copy and
    the mailbox is empty afterwards, so that what they appended for [B] is
    returned by no poll. *)
Theorem send_then_poll (st st1 : TCPMessenger) (A B body sent_at received_at : string)
    (net : network) (print_ok : bool) (outcomes : list bool) :
  send_message st A B body false sent_at received_at net print_ok outcomes = (st1, true) →
  (∃ record,
      (get_messages st1 B true).1
        = default [] (message_queue st !! KStr B) ++ [JObj record]
      ∧ dict_get "sender" record = Some (JStr A)
      ∧ dict_get "recipient" record = Some (JStr B)
      ∧ dict_get "body" record = Some (JStr body)
      ∧ (message_queue st !! KStr B = None ∨ message_queue st !! KStr B = Some [] →
         (get_messages st1 B true).1 = [JObj record]))
  ∧ (get_messages (get_messages st1 B true).2 B true).1 = []
  ∧ ∀ arrivals,
      (racing_get_messages st1 B arrivals).1 = (get_messages st1 B true).1
      ∧ (get_messages (racing_get_messages st1 B arrivals).2 B true).1 = [].
Proof.
  intros Hsend.
  assert (Hnet : net = Intact).
  { destruct net; [by injection Hsend | by injection Hsend | done | by injection Hsend]. }
  subst net.
  destruct (send_message_intact st A B body sent_at received_at false print_ok outcomes)
    as [Hempty Hfull].
  assert (HB : B ≠ EmptyString).
  { intros HB. rewrite (Hempty HB) in Hsend. by injection Hsend. }
  destruct (Hfull HB) as [Happ _]. rewrite Hsend in Happ. simpl in Happ.
  unfold appended in Happ.
  destruct (stamped_fields (packet A B body false sent_at) received_at "sender")
    as (record & Hrec & _ & _ & Hsender).
  rewrite Hrec in Happ.
  assert (Hq : message_queue st1 !! KStr B
               = Some (default [] (message_queue st !! KStr B) ++ [JObj record])).
  { by rewrite Happ, lookup_insert_eq. }
  assert (Hpoll : (get_messages st1 B true).1
                  = default [] (message_queue st !! KStr B) ++ [JObj record]).
  { unfold get_messages, get_messages_copy. by rewrite Hq. }
  split_and!.
  - exists record. injection Hrec as <-.
    split_and!; [exact Hpoll | by rewrite ?dict_get_set_ne..|].
    intros [Hnone | Hnil]; rewrite Hpoll.
    + by rewrite Hnone.
    + by rewrite Hnil.
  - by destruct (get_messages_drains st1 B) as (_ & H2 & _).
  - intros arrivals. unfold racing_get_messages, get_messages at 1 2, get_messages_copy.
    rewrite Hq. simpl. split; [done|].
    unfold get_messages, get_messages_copy, get_messages_reset. simpl.
    by rewrite lookup_insert_eq.
Qed.

Lemma send_then_poll_witness :
  ∃ record,
    (get_messages one_queued "bob@example.com" true).1
      = default [] (message_queue new_messenger !! KStr "bob@example.com")
        ++ [JObj record]
    ∧ dict_get "sender" record = Some (JStr "alice@example.com")
    ∧ dict_get "recipient" record = Some (JStr "bob@example.com")
    ∧ dict_get "body" record = Some (JStr "hello").
Proof.
  destruct (send_then_poll new_messenger one_queued
              "alice@example.com" "bob@example.com" "hello"
              "2024-01-01T10:00:00" "2024-01-01T10:00:01" Intact true [])
    as [(record & Hfirst & Hs & Hr & Hb & _) _].
  - reflexivity.
  - exists record. done.
Defined.

(** C8 as stated fails: the drain is not atomic.  With one message queued
    for the recipient and a second one handled between the copy and the
    replacement of the queue, the poll has neither the effect of a poll made
    before the second message nor of one made after it: the second message
    is acknowledged and dropped. *)
Lemma racing_send_is_lost :
  ¬ drain_is_atomic one_queued "bob@example.com" [second_message].
Proof.
  intros [Hbefore | Hafter].
  - apply (f_equal (fun p => message_queue p.2 !! KStr "bob@example.com")) in Hbefore.
    vm_compute in Hbefore. discriminate Hbefore.
  - apply (f_equal (fun p => length p.1)) in Hafter.
    vm_compute in Hafter. discriminate Hafter.
Qed.

(** C9, as the code has it.  The ack write succeeding: a frame the router
    accepts (an object whose [recipient] is present, true in the sense of
    [if] and hashable) adds exactly one record to that recipient's
    mailbox, stamped with the server's clock in place of any [timestamp] it
    carried; it is answered with the success acknowledgment when the line
    naming sender and recipient is printed, and with an error acknowledgment,
    the record staying queued, when that [print] raises.  An empty payload is
    closed without an answer; any other frame is answered with an error
    acknowledgment and nothing is queued.  A frame is refused exactly when it
    has no [recipient] (it did not parse, is not an object, or lacks the
    field) or has one that is empty, null, false, zero, or a list or
    dictionary. *)
Theorem router_accepts_or_refuses (st : TCPMessenger) (f : frame) (now : string)
    (print_ok : bool) (outcomes : list bool) :
  (client_send outcomes).1 = true →
  (∀ k fields, deliverable f = Some (k, fields) →
     appended st (_handle_client st f now print_ok outcomes).1 k (stamped fields now)
     ∧ (∃ record, stamped fields now = JObj record
                  ∧ dict_get "timestamp" record = Some (JStr now))
     ∧ (_handle_client st f now print_ok outcomes).2
       = [Send (if print_ok then AckDelivered else AckException UnicodeEncodeError);
          Close])
  ∧ (deliverable f = None → f ≠ FrameEmpty →
     (_handle_client st f now print_ok outcomes).1 = st
     ∧ ∃ a, ack_status a = "error"
            ∧ (_handle_client st f now print_ok outcomes).2 = [Send a; Close])
  ∧ (f = FrameEmpty → _handle_client st f now print_ok outcomes = (st, [Close]))
  ∧ (deliverable f = None
     ↔ recipient_of f = None
       ∨ ∃ recipient, recipient_of f = Some recipient
                      ∧ (truthy recipient = false ∨ key_of recipient = None)).
Proof.
  intros Hsend. repeat split.
  - by apply handle_client_enqueues.
  - destruct (stamped_fields fields now "timestamp") as (record & Hrec & Ht & _).
    by exists record.
  - destruct (handle_client_enqueues st f now print_ok outcomes k fields H) as [_ ->].
    unfold reply, on_exception.
    destruct print_ok; by destruct (client_send outcomes) as [[] ?].
  - by apply handle_client_refuses.
  - destruct (handle_client_refuses st f now print_ok outcomes H)
      as [_ [[Hf _] | [_ (a & Ha & Hact)]]];
      [done|]. exists a. split; [done | by apply Hact].
  - intros ->. done.
  - unfold deliverable, recipient_of.
    destruct f as [e| |[| | | | |fields]]; try (by left).
    destruct (dict_get "recipient" fields) as [recipient|]; [|by left].
    intros Hd. right. exists recipient. split; [done|].
    destruct (truthy recipient); [|by left].
    destruct (key_of recipient); [done | by right].
  - unfold deliverable, recipient_of.
    destruct f as [e| |[| | | | |fields]]; try done.
    intros [Hnone | (recipient & Hsome & [Ht | Hk])].
    + by rewrite Hnone.
    + by rewrite Hsome, Ht.
    + rewrite Hsome, Hk. by destruct (truthy recipient).
Qed.

Lemma router_accepts_or_refuses_witness :
  (_handle_client new_messenger empty_recipient_frame "2024-01-01T10:00:01" true []).1
    = new_messenger
  ∧ ∃ a, ack_status a = "error"
         ∧ (_handle_client new_messenger empty_recipient_frame "2024-01-01T10:00:01"
              true []).2
           = [Send a; Close].
Proof.
  destruct (router_accepts_or_refuses new_messenger empty_recipient_frame
              "2024-01-01T10:00:01" true [] eq_refl) as (_ & Hrefuse & _).
  apply Hrefuse; [reflexivity | discriminate].
Defined.

(** C9 as stated fails: a frame that parses and carries a [recipient]
    field holding the empty string is answered with the error
    acknowledgment and nothing is queued. *)
Lemma empty_recipient_is_refused :
  ¬ router_contract new_messenger empty_recipient_frame "2024-01-01T10:00:01" true [].
Proof.
  unfold router_contract. simpl. intros [_ Hack]. discriminate Hack.
Qed.
End Router.

(** * Properties of the remaining code *)

(** ** The scheduler over a whole rotation *)

(** Reading a list round the clock from position [c] gives the list
    rotated by [c]. *)
Lemma lookup_round {A : Type} (l : list A) (c : Z) :
  0 ≤ c →
  (fun i : nat => l !! Z.to_nat ((c + Z.of_nat i) `mod` Z.of_nat (length l)))
    <$> seq 0 (length l)
  = Some <$> rotate (Z.to_nat c) l.
Proof.
  intros Hc. apply list_eq. intros i.
  rewrite !list_lookup_fmap.
  destruct (decide (i < length l)%nat) as [Hi | Hi].
  - rewrite lookup_seq_lt by done. simpl.
    rewrite lookup_rotate_r by done. unfold rotate_nat_add.
    rewrite Z2Nat.id by done.
    destruct (lookup_lt_is_Some_2 l
                (Z.to_nat ((c + Z.of_nat i) `mod` Z.of_nat (length l)))) as [x Hx].
    { apply cursor_in_range. lia. }
    by rewrite Hx.
  - rewrite lookup_seq_ge by lia. simpl.
    rewrite (lookup_ge_None_2 (rotate _ _)); [done|]. rewrite length_rotate. lia.
Qed.

Lemma rotate_permutation {A : Type} (n : nat) (l : list A) : rotate n l ≡ₚ l.
Proof. unfold rotate. by rewrite Permutation_app_comm, take_drop. Qed.

Lemma set_cursor_id (lb : LoadBalancer) :
  set_current_backend_index (current_backend_index lb) lb = lb.
Proof. by destruct lb. Qed.

(** [n] calls in a row read the expansion round the clock. *)
Lemma scheduling_calls_round (lb : LoadBalancer) (n : nat) :
  weighted_list (healthy_backends (backends lb)) ≠ [] →
  ∀ c,
    scheduling_calls n (set_current_backend_index c lb)
    = ((fun i : nat =>
          Ret (weighted_list (healthy_backends (backends lb))
               !! Z.to_nat ((c + Z.of_nat i)
                            `mod` Z.of_nat (length (weighted_list
                                                      (healthy_backends (backends lb)))))))
         <$> seq 0 n,
       set_current_backend_index (c + Z.of_nat n) lb).
Proof.
  intros Hwl. induction n as [|n IH]; intros c.
  - simpl. by rewrite Z.add_0_r.
  - simpl.
    destruct (get_next_backend_selects (set_current_backend_index c lb) Hwl)
      as (r & b & -> & Hr & _).
    simpl in Hr.
    assert (Hstate : set_current_backend_index
                       (current_backend_index (set_current_backend_index c lb) + 1)
                       (set_current_backend_index c lb)
                     = set_current_backend_index (c + 1) lb) by reflexivity.
    rewrite Hstate, IH. f_equal.
    + f_equal.
      * rewrite Z.add_0_r. by rewrite Hr.
      * rewrite <- fmap_S_seq, <- list_fmap_compose. apply list_fmap_ext.
        intros i x _. simpl. do 4 f_equal. lia.
    + f_equal. lia.
Qed.

Lemma occurrences_app (r : nat) (l1 l2 : list nat) :
  occurrences r (l1 ++ l2) = (occurrences r l1 + occurrences r l2)%nat.
Proof. unfold occurrences. by rewrite filter_app, length_app. Qed.

Lemma occurrences_replicate (r r' : nat) (n : nat) :
  occurrences r (replicate n r') = if decide (r' = r) then n else 0%nat.
Proof.
  unfold occurrences. induction n as [|n IH]; simpl.
  - by destruct (decide (r' = r)).
  - destruct (decide (r' = r)) as [-> | Hne].
    + rewrite filter_cons_True by done. simpl. by rewrite IH.
    + rewrite filter_cons_False by done. by rewrite IH.
Qed.

Lemma weighted_list_cons (rb : nat * BackendServer) (hs : list (nat * BackendServer)) :
  weighted_list (rb :: hs) = replicate (Z.to_nat (weight rb.2)) rb.1 ++ weighted_list hs.
Proof. reflexivity. Qed.

Lemma occurrences_weighted_absent (hs : list (nat * BackendServer)) (r : nat) :
  r ∉ hs.*1 → occurrences r (weighted_list hs) = 0%nat.
Proof.
  induction hs as [|[r' b] hs IH]; intros Hnot; [done|].
  rewrite weighted_list_cons, occurrences_app, occurrences_replicate.
  simpl in Hnot. apply not_elem_of_cons in Hnot as [Hne Hnot].
  simpl. rewrite decide_False by done. by rewrite IH.
Qed.

Lemma occurrences_weighted (hs : list (nat * BackendServer)) (r : nat) (b : BackendServer) :
  NoDup hs.*1 → (r, b) ∈ hs →
  occurrences r (weighted_list hs) = Z.to_nat (weight b).
Proof.
  induction hs as [|[r' b'] hs IH]; intros Hnd Hin.
  - by apply elem_of_nil in Hin.
  - simpl in Hnd. apply NoDup_cons in Hnd as [Hfresh Hnd].
    rewrite weighted_list_cons, occurrences_app, occurrences_replicate. simpl.
    apply elem_of_cons in Hin as [[= <- <-] | Hin].
    + rewrite decide_True by done.
      rewrite (occurrences_weighted_absent hs r Hfresh). lia.
    + rewrite decide_False.
      * by rewrite IH.
      * intros ->. apply Hfresh. apply list_elem_of_fmap. by exists (r, b).
Qed.

Lemma healthy_backends_NoDup (bs : list BackendServer) : NoDup (healthy_backends bs).*1.
Proof.
  apply NoDup_fmap_fst.
  - intros r b1 b2 H1 H2. apply healthy_backends_elem in H1 as [H1 _].
    apply healthy_backends_elem in H2 as [H2 _]. congruence.
  - unfold healthy_backends. apply NoDup_filter.
    apply (NoDup_fmap_1 fst). rewrite enumerate_fst. apply NoDup_seq.
Qed.

(** X1: a backend handed out by [get_next_backend] is a backend of the
    pool that is healthy and has a positive weight. *)
Theorem selected_backend_is_healthy (lb : LoadBalancer) (r : nat) :
  (get_next_backend lb).1 = Ret (Some r) →
  ∃ b, backends lb !! r = Some b ∧ healthy b = true ∧ 0 < weight b.
Proof.
  intros Hsel.
  destruct (decide (weighted_list (healthy_backends (backends lb)) = [])) as [Hwl | Hwl].
  { exfalso. unfold get_next_backend in Hsel.
    destruct (backends lb); [done|].
    destruct (healthy_backends _); [done|]. by rewrite Hwl in Hsel. }
  destruct (get_next_backend_selects lb Hwl) as (r' & b' & Heq & Hr & _).
  rewrite Heq in Hsel. injection Hsel as ->.
  apply list_elem_of_lookup_2 in Hr.
  unfold weighted_list in Hr. rewrite list_elem_of_In, in_flat_map in Hr.
  destruct Hr as [[r' b] [Hin Hrep]]. apply list_elem_of_In in Hin, Hrep.
  apply elem_of_replicate in Hrep as [-> Hn]. simpl in Hn.
  apply healthy_backends_elem in Hin as [Hb Hh].
  exists b. repeat split; [done..|lia].
Qed.

Lemma selected_backend_is_healthy_witness :
  ∃ b, backends (pool_321 "a" "b" "c" 5001 5002 5003) !! 0%nat = Some b
       ∧ healthy b = true ∧ 0 < weight b.
Proof.
  apply (selected_backend_is_healthy (pool_321 "a" "b" "c" 5001 5002 5003) 0).
  reflexivity.
Defined.

Lemma weighted_list_nil (hs : list (nat * BackendServer)) :
  weighted_list hs = [] ↔ ∀ rb, rb ∈ hs → weight rb.2 ≤ 0.
Proof.
  induction hs as [|rb hs IH]; [by split; [intros _ ? []%elem_of_nil|]|].
  rewrite weighted_list_cons. split.
  - intros [Hrep Hrest]%app_eq_nil rb' [-> | Hin]%elem_of_cons.
    + destruct (Z.to_nat (weight rb.2)) eqn:Hn; [lia | done].
    + by apply IH.
  - intros Hall.
    assert (Hw : weight rb.2 ≤ 0) by (apply Hall; left).
    replace (Z.to_nat (weight rb.2)) with 0%nat by lia. simpl.
    apply IH. intros rb' Hin. apply Hall. by right.
Qed.

(** X2: [get_next_backend] raises (the division by the length of an empty
    expansion) exactly when some backend is healthy and no healthy backend
    has a positive weight; the balancer is then left as it was. *)
Theorem zero_weights_raise (lb : LoadBalancer) :
  ((get_next_backend lb).1 = Raise ZeroDivisionError
   ↔ (∃ b, b ∈ backends lb ∧ healthy b = true)
     ∧ ∀ b, b ∈ backends lb → healthy b = true → weight b ≤ 0)
  ∧ ((get_next_backend lb).1 = Raise ZeroDivisionError → (get_next_backend lb).2 = lb).
Proof.
  assert (Hhealthy : healthy_backends (backends lb) ≠ []
                     ↔ ∃ b, b ∈ backends lb ∧ healthy b = true).
  { rewrite healthy_backends_nil. split.
    - intros Hnot. destruct (decide (Exists (fun b => healthy b = true) (backends lb)))
        as [Hex | Hex].
      + apply Exists_exists in Hex. done.
      + exfalso. apply Hnot. intros b Hb. destruct (healthy b) eqn:Hh; [|done].
        exfalso. apply Hex, Exists_exists. by exists b.
    - intros (b & Hb & Hh) Hall. rewrite (Hall b Hb) in Hh. done. }
  assert (Hweights : weighted_list (healthy_backends (backends lb)) = []
                     ↔ ∀ b, b ∈ backends lb → healthy b = true → weight b ≤ 0).
  { rewrite weighted_list_nil. split.
    - intros Hall b Hb Hh. apply list_elem_of_lookup in Hb as [r Hr].
      apply (Hall (r, b)). by apply healthy_backends_elem.
    - intros Hall [r b] Hin. apply healthy_backends_elem in Hin as [Hr Hh].
      apply Hall; [by eapply list_elem_of_lookup_2 | done]. }
  assert (Hraise : (get_next_backend lb).1 = Raise ZeroDivisionError
                   ↔ healthy_backends (backends lb) ≠ []
                     ∧ weighted_list (healthy_backends (backends lb)) = []).
  { unfold get_next_backend.
    destruct (backends lb) as [|b0 bs] eqn:Hbs; [simpl; split; [done | by intros [[] _]]|].
    destruct (healthy_backends (b0 :: bs)) as [|h hs] eqn:Hhs;
      [simpl; split; [done | by intros [[] _]]|].
    destruct (weighted_list (h :: hs)); simpl; split; try done. by intros [_ ?]. }
  split.
  - by rewrite Hraise, Hhealthy, Hweights.
  - intros Hr. unfold get_next_backend in *.
    destruct (backends lb); [done|]. destruct (healthy_backends _); [done|].
    by destruct (weighted_list _).
Qed.

(** X3: with a non-empty expansion of length [n] and a cursor that is not
    negative, [n] calls in a row (the health flags staying as they are)
    return each healthy backend exactly as many times as its weight says
    and no unhealthy backend at all, and move the cursor by [n]. *)
Theorem full_rotation_is_fair (lb : LoadBalancer) :
  weighted_list (healthy_backends (backends lb)) ≠ [] →
  0 ≤ current_backend_index lb →
  ∃ refs,
    (scheduling_calls (length (weighted_list (healthy_backends (backends lb)))) lb).1
      = (fun r => Ret (Some r)) <$> refs
    ∧ current_backend_index
        (scheduling_calls (length (weighted_list (healthy_backends (backends lb)))) lb).2
      = current_backend_index lb
        + Z.of_nat (length (weighted_list (healthy_backends (backends lb))))
    ∧ ∀ r b, backends lb !! r = Some b →
        occurrences r refs = if healthy b then Z.to_nat (weight b) else 0%nat.
Proof.
  intros Hwl Hc.
  exists (rotate (Z.to_nat (current_backend_index lb))
            (weighted_list (healthy_backends (backends lb)))).
  pose proof (scheduling_calls_round lb
                (length (weighted_list (healthy_backends (backends lb)))) Hwl
                (current_backend_index lb)) as Hround.
  rewrite set_cursor_id in Hround. rewrite Hround. simpl. split; [|split; [done|]].
  - transitivity (Ret <$> (Some <$> rotate (Z.to_nat (current_backend_index lb))
                                      (weighted_list (healthy_backends (backends lb))))).
    + rewrite <- lookup_round by done. by rewrite <- list_fmap_compose.
    + by rewrite <- list_fmap_compose.
  - intros r b Hb. unfold occurrences.
    rewrite (rotate_permutation _ _). fold (occurrences r
      (weighted_list (healthy_backends (backends lb)))).
    destruct (healthy b) eqn:Hh.
    + apply occurrences_weighted; [apply healthy_backends_NoDup|].
      by apply healthy_backends_elem.
    + apply occurrences_weighted_absent. intros Hin.
      apply list_elem_of_fmap in Hin as ([r' b'] & -> & Hin).
      apply healthy_backends_elem in Hin as [Hb' Hh']. simpl in Hb. congruence.
Qed.

Lemma full_rotation_is_fair_witness :
  ∃ refs,
    (scheduling_calls 6 (pool_321 "a" "b" "c" 5001 5002 5003)).1
      = (fun r => Ret (Some r)) <$> refs
    ∧ occurrences 1 refs = 2%nat.
Proof.
  destruct (full_rotation_is_fair (pool_321 "a" "b" "c" 5001 5002 5003))
    as (refs & Hres & _ & Hocc).
  - discriminate.
  - simpl. lia.
  - exists refs. split; [exact Hres|].
    exact (Hocc 1%nat (new_backend "b" 5002 2) eq_refl).
Defined.

(** ** Health: probes, the health endpoint and the relay *)

(** What the handler can have done to the pool: nothing, or what the inner
    [try] block did to it, possibly followed by the clearing of the health
    flag of the selected backend. *)
Lemma handler_backends (lb : LoadBalancer) (env : http_env) :
  backends (handle_http_connection lb env).1 = backends lb
  ∨ ∃ ref ok lb2 outcomes tr,
      forwarding_attempt lb env = Some (ref, (ok, lb2, outcomes, tr))
      ∧ (backends (handle_http_connection lb env).1 = backends lb2
         ∨ ok = false
           ∧ backends (handle_http_connection lb env).1
             = alter (set_healthy false) ref (backends lb2)).
Proof.
  unfold handle_http_connection, forwarding_attempt.
  destruct (read_request (client_recv env) []) as [[|c request]|]; [by left..| |by left].
  pose proof (get_next_backend_backends lb) as Hpool.
  destruct (get_next_backend lb) as [[[ref|]|] lb1]; simpl in Hpool.
  - right.
    destruct (forward_request lb1 ref (backend_conn_of env ref) (c :: request)
                (client_sendall env)) as [[[ok lb2] outcomes] tr].
    exists ref, ok, lb2, outcomes, tr. split; [done|].
    destruct ok; [by left|].
    destruct (client_send outcomes) as [[] ?]; [by right | by left].
  - left. by destruct (client_send (client_sendall env)) as [[] ?].
  - by left.
Qed.

(** The pool as the inner [try] block finds it is the pool the handler was
    given: the selection moves the cursor only. *)
Lemma forwarding_attempt_pool (lb : LoadBalancer) (env : http_env) (ref : nat)
    (ok : bool) (lb2 : LoadBalancer) (outcomes : list bool) (tr : list action) :
  forwarding_attempt lb env = Some (ref, (ok, lb2, outcomes, tr)) →
  ∃ request,
    read_request (client_recv env) [] = Ret request ∧ request ≠ []
    ∧ get_next_backend lb = (Ret (Some ref), (get_next_backend lb).2)
    ∧ backends (get_next_backend lb).2 = backends lb
    ∧ forward_request (get_next_backend lb).2 ref (backend_conn_of env ref) request
        (client_sendall env) = (ok, lb2, outcomes, tr).
Proof.
  unfold forwarding_attempt. intros Hatt.
  destruct (read_request (client_recv env) []) as [[|c request]|]; [done| |done].
  pose proof (get_next_backend_backends lb) as Hpool.
  destruct (get_next_backend lb) as [[[r|]|] lb1]; [|done..].
  injection Hatt as -> Hfwd. exists (c :: request). done.
Qed.

(** X4: the relay never makes a backend healthy and never writes a failure
    counter; [check_health] leaves a backend healthy only after a probe
    answered with status 200 or when the backend was healthy before.  So a
    backend that is out of the rotation comes back through a successful
    probe only. *)
Theorem only_a_probe_restores (lb : LoadBalancer) (env : http_env) (r : nat) :
  (failed_checks <$> backends (handle_http_connection lb env).1 !! r
   = failed_checks <$> backends lb !! r)
  ∧ (healthy <$> backends (handle_http_connection lb env).1 !! r = Some true →
     healthy <$> backends lb !! r = Some true)
  ∧ ∀ b p now,
      healthy (check_health b p now).1 = true → probe_ok p = true ∨ healthy b = true.
Proof.
  assert (Hview : ∀ bs bs' : list BackendServer,
            health_view <$> bs' = health_view <$> bs →
            failed_checks <$> bs' !! r = failed_checks <$> bs !! r
            ∧ healthy <$> bs' !! r = healthy <$> bs !! r).
  { intros bs bs' Heq.
    assert (Hr : health_view <$> bs' !! r = health_view <$> bs !! r)
      by by rewrite <- !list_lookup_fmap, Heq.
    destruct (bs' !! r) as [b'|], (bs !! r) as [b|]; simpl in *; try done.
    by injection Hr as -> ->. }
  split_and!.
  - destruct (handler_backends lb env)
      as [-> | (ref & ok & lb2 & outs & tr & Hatt & [-> | [_ ->]])]; [done| |];
      apply forwarding_attempt_pool in Hatt as (request & _ & _ & _ & Hpool & Hfwd);
      pose proof (forward_request_health_view (get_next_backend lb).2 ref
                    (backend_conn_of env ref) request (client_sendall env)) as Hv;
      rewrite Hfwd, Hpool in Hv; simpl in Hv;
      destruct (Hview _ _ Hv) as [Hf _]; [done|].
    rewrite <- Hf. destruct (decide (ref = r)) as [-> | Hne].
    + rewrite list_lookup_alter_eq. by destruct (backends lb2 !! r).
    + by rewrite list_lookup_alter_ne.
  - destruct (handler_backends lb env)
      as [-> | (ref & ok & lb2 & outs & tr & Hatt & [-> | [_ ->]])]; [done| |];
      apply forwarding_attempt_pool in Hatt as (request & _ & _ & _ & Hpool & Hfwd);
      pose proof (forward_request_health_view (get_next_backend lb).2 ref
                    (backend_conn_of env ref) request (client_sendall env)) as Hv;
      rewrite Hfwd, Hpool in Hv; simpl in Hv;
      destruct (Hview _ _ Hv) as [_ Hh]; [by rewrite Hh|].
    rewrite <- Hh. destruct (decide (ref = r)) as [-> | Hne].
    + rewrite list_lookup_alter_eq. by destruct (backends lb2 !! r).
    + by rewrite list_lookup_alter_ne.
  - intros b p now. unfold check_health.
    destruct (probe_ok p); [by left|]. simpl.
    destruct (3 <=? failed_checks b + 1); simpl; [done | by right].
Qed.

Lemma only_a_probe_restores_witness :
  healthy <$> backends single_backend_pool !! 0%nat = Some true.
Proof.
  apply (proj1 (proj2 (only_a_probe_restores single_backend_pool stalled_upload_env 0))).
  reflexivity.
Defined.

(** X5: the status code of [/health] is 200 exactly when the database and
    the messenger port answer; the state of S3 and the [full] parameter
    never change it.  Probed by [check_health], a backend therefore counts
    as alive exactly in that case. *)
Theorem health_endpoint_ignores_s3 (full : option string) (db_up tcp_up s3_up : bool)
    (b : BackendServer) (now : timestamp) :
  status_code (health_check full db_up tcp_up s3_up) = (if db_up && tcp_up then 200 else 503)
  ∧ (check_health b (ProbeStatus (status_code (health_check full db_up tcp_up s3_up))) now).2
    = db_up && tcp_up.
Proof.
  unfold check_health, health_check. simpl.
  destruct db_up, tcp_up; simpl; done.
Qed.

(** One round of the checker in which every probe fails adds one to every
    failure counter. *)
Lemma failing_pass (lb : LoadBalancer) (probes : nat → probe) (now : timestamp)
    (b' : BackendServer) :
  (∀ r, probe_ok (probes r) = false) →
  b' ∈ backends (health_check_pass lb probes now) →
  ∃ b, b ∈ backends lb
       ∧ failed_checks b' = failed_checks b + 1
       ∧ (3 ≤ failed_checks b + 1 → healthy b' = false).
Proof.
  intros Hfail Hin. simpl in Hin.
  apply elem_of_lookup_imap_1 in Hin as (r & b & -> & Hr).
  exists b. split; [by eapply list_elem_of_lookup_2|].
  unfold check_health. rewrite Hfail. simpl.
  destruct (3 <=? failed_checks b + 1) eqn:H3; simpl; split; try done; lia.
Qed.

(** X6: three rounds of the health checker in which every probe fails
    leave no backend healthy, whatever the pool looked like (its failure
    counters not being negative); the next [get_next_backend] returns
    [None]. *)
Theorem full_outage_empties_rotation (lb : LoadBalancer) (p1 p2 p3 : nat → probe)
    (n1 n2 n3 : timestamp) :
  (∀ b, b ∈ backends lb → 0 ≤ failed_checks b) →
  (∀ r, probe_ok (p1 r) = false) →
  (∀ r, probe_ok (p2 r) = false) →
  (∀ r, probe_ok (p3 r) = false) →
  (∀ b, b ∈ backends (health_check_pass (health_check_pass (health_check_pass lb p1 n1)
                                           p2 n2) p3 n3) →
        healthy b = false)
  ∧ (get_next_backend
       (health_check_pass (health_check_pass (health_check_pass lb p1 n1) p2 n2) p3 n3)).1
    = Ret None.
Proof.
  intros Hpos H1 H2 H3.
  assert (Hall : ∀ b, b ∈ backends (health_check_pass
                          (health_check_pass (health_check_pass lb p1 n1) p2 n2) p3 n3) →
                      healthy b = false).
  { intros b3 Hb3.
    apply (failing_pass _ p3 n3 b3 H3) in Hb3 as (b2 & Hb2 & Hf3 & Hh3).
    apply (failing_pass _ p2 n2 b2 H2) in Hb2 as (b1 & Hb1 & Hf2 & _).
    apply (failing_pass _ p1 n1 b1 H1) in Hb1 as (b & Hb & Hf1 & _).
    apply Hh3. specialize (Hpos b Hb). lia. }
  split; [exact Hall|]. by rewrite get_next_backend_none.
Qed.

Lemma full_outage_empties_rotation_witness :
  (get_next_backend
     (health_check_pass
        (health_check_pass
           (health_check_pass (pool_321 "a" "b" "c" 5001 5002 5003)
              (fun _ => ProbeException) 5)
           (fun _ => ProbeStatus 503) 10)
        (fun _ => ProbeException) 15)).1
  = Ret None.
Proof.
  apply (full_outage_empties_rotation (pool_321 "a" "b" "c" 5001 5002 5003)
           (fun _ => ProbeException) (fun _ => ProbeStatus 503) (fun _ => ProbeException)
           5 10 15).
  - intros b Hb. simpl in Hb.
    repeat (apply elem_of_cons in Hb as [-> | Hb]; [simpl; lia|]).
    by apply elem_of_nil in Hb.
  - reflexivity.
  - reflexivity.
  - reflexivity.
Defined.

(** With positive weights a call either finds every backend unhealthy or
    returns one. *)
Lemma selects_or_all_unhealthy (lb : LoadBalancer) :
  (∀ b, b ∈ backends lb → 0 < weight b) →
  (∀ b, b ∈ backends lb → healthy b = false)
  ∨ ∃ r, (get_next_backend lb).1 = Ret (Some r).
Proof.
  intros Hw.
  destruct (healthy_backends (backends lb)) as [|h hs] eqn:Hhs.
  - left. by apply healthy_backends_nil.
  - right.
    assert (Hwl : weighted_list (healthy_backends (backends lb)) ≠ []).
    { apply weighted_list_nonempty; [by rewrite Hhs|].
      intros [r b] Hin. apply healthy_backends_elem in Hin as [Hin _].
      apply Hw. by eapply list_elem_of_lookup_2. }
    destruct (get_next_backend_selects lb Hwl) as (r & b & Hsel & _).
    exists r. by rewrite Hsel.
Qed.

(** X7: one round of the health checker in which every probe answers 200
    makes every backend healthy with a failure counter of 0, whatever
    happened before, and leaves addresses and weights alone; with a pool
    that is not empty and positive weights the next [get_next_backend]
    returns a backend. *)
Theorem one_good_round_restores (lb : LoadBalancer) (probes : nat → probe)
    (now : timestamp) :
  (∀ r, probe_ok (probes r) = true) →
  (∀ b, b ∈ backends (health_check_pass lb probes now) →
        healthy b = true ∧ failed_checks b = 0)
  ∧ identity_view <$> backends (health_check_pass lb probes now)
    = identity_view <$> backends lb
  ∧ (backends lb ≠ [] → (∀ b, b ∈ backends lb → 0 < weight b) →
     ∃ r, (get_next_backend (health_check_pass lb probes now)).1 = Ret (Some r)).
Proof.
  intros Hok.
  assert (Hall : ∀ b, b ∈ backends (health_check_pass lb probes now) →
                      healthy b = true ∧ failed_checks b = 0).
  { intros b' Hin. simpl in Hin.
    apply elem_of_lookup_imap_1 in Hin as (r & b & -> & Hr).
    unfold check_health. by rewrite Hok. }
  assert (Hid : identity_view <$> backends (health_check_pass lb probes now)
                = identity_view <$> backends lb).
  { simpl. apply list_eq. intros r.
    rewrite !list_lookup_fmap, list_lookup_imap.
    destruct (backends lb !! r) as [b|]; [|done]. simpl.
    unfold check_health. by rewrite Hok. }
  split; [exact Hall|]. split; [exact Hid|].
  intros Hne Hw.
  set (lb' := health_check_pass lb probes now) in *.
  assert (Hw' : ∀ b, b ∈ backends lb' → 0 < weight b).
  { intros b' Hin. apply list_elem_of_lookup in Hin as [r Hr].
    assert (Hv : identity_view <$> backends lb' !! r = identity_view <$> backends lb !! r)
      by by rewrite <- !list_lookup_fmap, Hid.
    rewrite Hr in Hv. destruct (backends lb !! r) as [b|] eqn:Hb; [|done].
    injection Hv as _ _ Hwb. rewrite Hwb. apply Hw. by eapply list_elem_of_lookup_2. }
  assert (Hne' : backends lb' ≠ []).
  { intros Hnil. apply Hne. apply (f_equal (fmap identity_view)) in Hnil.
    rewrite Hid in Hnil. by destruct (backends lb). }
  destruct (selects_or_all_unhealthy lb' Hw') as [Hnone | Hsome]; [|done].
  exfalso. destruct (backends lb') as [|b0 bs] eqn:Hbs; [done|].
  assert (Hb0 : b0 ∈ b0 :: bs) by left.
  destruct (Hall b0 Hb0) as [Hh _].
  rewrite (Hnone b0 Hb0) in Hh. done.
Qed.

Lemma one_good_round_restores_witness :
  ∃ r, (get_next_backend
          (health_check_pass
             {| backends := [set_healthy false (new_backend "127.0.0.1" 5001 3)];
                current_backend_index := 0;
                stats_total_requests := 0; stats_total_failures := 0 |}
             (fun _ => ProbeStatus 200) 20)).1 = Ret (Some r).
Proof.
  apply (one_good_round_restores
           {| backends := [set_healthy false (new_backend "127.0.0.1" 5001 3)];
              current_backend_index := 0;
              stats_total_requests := 0; stats_total_failures := 0 |}
           (fun _ => ProbeStatus 200) 20).
  - reflexivity.
  - discriminate.
  - intros b Hb. simpl in Hb. apply list_elem_of_singleton in Hb as ->. simpl. lia.
Defined.

(** ** The HTTP relay: traces and counters *)

Lemma alter_keeps_view {B : Type} (view : BackendServer → B) (bs : list BackendServer)
    (ref : nat) (f : BackendServer → BackendServer) :
  (∀ b, view (f b) = view b) → view <$> alter f ref bs = view <$> bs.
Proof.
  intros Hf. rewrite (list_fmap_alter view f id).
  - by apply list_alter_id.
  - apply Forall_forall. intros b _. apply Hf.
Qed.

Lemma served_alter (bs : list BackendServer) (ref : nat) (b : BackendServer)
    (f : BackendServer → BackendServer) :
  bs !! ref = Some b →
  served (alter f ref bs) = served bs + (total_requests (f b) - total_requests b).
Proof.
  unfold served. revert ref. induction bs as [|b0 bs IH]; intros [|ref] Hb; try done.
  - injection Hb as ->. simpl. lia.
  - simpl in *. pose proof (IH ref Hb) as Hrec. unfold alter in Hrec. lia.
Qed.

(** A reference returned by [get_next_backend] points into the pool. *)
Lemma selected_in_pool (lb : LoadBalancer) (r : nat) :
  (get_next_backend lb).1 = Ret (Some r) → is_Some (backends lb !! r).
Proof.
  intros Hsel.
  destruct (decide (weighted_list (healthy_backends (backends lb)) = [])) as [Hwl | Hwl].
  { exfalso. unfold get_next_backend in Hsel.
    destruct (backends lb); [done|].
    destruct (healthy_backends _); [done|]. by rewrite Hwl in Hsel. }
  destruct (get_next_backend_selects lb Hwl) as (r' & b & Heq & _ & Hb & _).
  rewrite Heq in Hsel. injection Hsel as ->. by exists b.
Qed.

(** The copy loop writes the chunks of the answer to the client in the
    order they came, and all of them when it ends well. *)
Lemma relay_response_trace (script : list recv_event) :
  ∀ outcomes,
    (∃ k, (relay_response script outcomes).2 = ClientSend <$> take k (data_chunks script))
    ∧ ((relay_response script outcomes).1.1 = true →
       (relay_response script outcomes).2 = ClientSend <$> data_chunks script).
Proof.
  induction script as [|[[|x chunk]| |] script IH]; intros outcomes; simpl;
    try (split; [by exists 0%nat | done]).
  destruct (client_send outcomes) as [[] outcomes'].
  - destruct (IH outcomes') as [[k Hk] Hok].
    destruct (relay_response script outcomes') as [[ok outcomes''] tr].
    simpl in *. split.
    + exists (S k). simpl. by rewrite Hk.
    + intros Htrue. by rewrite Hok.
  - split; [by exists 0%nat | done].
Qed.

(** Puts list updates that [simpl] has unfolded back into the form the
    lemmas on [alter] expect. *)
Ltac fold_alter :=
  repeat match goal with
         | |- context [list_alter ?f ?i ?l] => change (list_alter f i l) with (alter f i l)
         end.

(** What the inner [try] block does to the balancer. *)
Lemma forward_request_effect (lb : LoadBalancer) (ref : nat) (conn : backend_conn)
    (request : bytes) (outcomes : list bool) (b : BackendServer) :
  backends lb !! ref = Some b →
  ∃ b2,
    backends (forward_request lb ref conn request outcomes).1.1.2 !! ref = Some b2
    ∧ total_requests b2 = total_requests b + (if connect_ok conn then 1 else 0)
    ∧ connections b2
      = connections b
        + (if connect_ok conn
           then (if (forward_request lb ref conn request outcomes).1.1.1 then 0 else 1)
           else 0)
    ∧ stats_total_requests (forward_request lb ref conn request outcomes).1.1.2
      = stats_total_requests lb + (if connect_ok conn then 1 else 0)
    ∧ served (backends (forward_request lb ref conn request outcomes).1.1.2)
      = served (backends lb) + (if connect_ok conn then 1 else 0)
    ∧ stats_total_failures (forward_request lb ref conn request outcomes).1.1.2
      = stats_total_failures lb
    ∧ current_backend_index (forward_request lb ref conn request outcomes).1.1.2
      = current_backend_index lb
    ∧ identity_view <$> backends (forward_request lb ref conn request outcomes).1.1.2
      = identity_view <$> backends lb.
Proof.
  intros Hb. unfold forward_request.
  destruct (connect_ok conn).
  2: { exists b. simpl. rewrite !Z.add_0_r. done. }
  destruct (sendall_ok conn).
  - destruct (relay_response (response conn) outcomes) as [[[] outcomes'] tr];
      simpl; fold_alter.
    + eexists. rewrite !list_lookup_alter_eq, Hb. simpl. split; [reflexivity|]. simpl.
      split_and!; try done; try lia.
      * erewrite !served_alter;
          [|exact Hb | by rewrite list_lookup_alter_eq, Hb
           | by rewrite !list_lookup_alter_eq, Hb]. simpl. lia.
      * by rewrite !alter_keeps_view.
    + eexists. rewrite !list_lookup_alter_eq, Hb. simpl. split; [reflexivity|]. simpl.
      split_and!; try done.
      * erewrite !served_alter; [|exact Hb | by rewrite list_lookup_alter_eq, Hb].
        simpl. lia.
      * by rewrite !alter_keeps_view.
  - simpl; fold_alter.
    eexists. rewrite !list_lookup_alter_eq, Hb. simpl. split; [reflexivity|]. simpl.
    split_and!; try done.
    + erewrite !served_alter; [|exact Hb | by rewrite list_lookup_alter_eq, Hb].
      simpl. lia.
    + by rewrite !alter_keeps_view.
Qed.

Lemma forward_request_trace (lb : LoadBalancer) (ref : nat) (conn : backend_conn)
    (request : bytes) (outcomes : list bool) :
  (forward_request lb ref conn request outcomes).2 = []
  ∨ (forward_request lb ref conn request outcomes).2 = [BackendConnect ref]
  ∨ ∃ k, (forward_request lb ref conn request outcomes).2
         = BackendConnect ref :: BackendSend ref request
           :: (ClientSend <$> take k (data_chunks (response conn))).
Proof.
  unfold forward_request.
  destruct (connect_ok conn); [|by left].
  destruct (sendall_ok conn); [|by right; left].
  right; right.
  destruct (relay_response_trace (response conn) outcomes) as [[k Hk] _].
  destruct (relay_response (response conn) outcomes) as [[ok outcomes'] tr].
  simpl in *. exists k. by rewrite Hk.
Qed.

(** The shapes a trace of the handler can take. *)
Lemma handler_trace (lb : LoadBalancer) (env : http_env) :
  (forwarding_attempt lb env = None
   ∧ ((handle_http_connection lb env).2 = [ClientClose]
      ∨ (handle_http_connection lb env).2 = [ClientClose; ClientClose]
      ∨ (handle_http_connection lb env).2
        = [ClientSend status_503; ClientClose; ClientClose]))
  ∨ ∃ ref ok lb2 outcomes tr,
      forwarding_attempt lb env = Some (ref, (ok, lb2, outcomes, tr))
      ∧ ((handle_http_connection lb env).2 = tr ++ [BackendClose ref; ClientClose]
         ∨ ok = false
           ∧ (handle_http_connection lb env).2
             = tr ++ [ClientSend status_502; BackendClose ref; ClientClose]).
Proof.
  unfold handle_http_connection, forwarding_attempt.
  destruct (read_request (client_recv env) []) as [[|c request]|];
    [left; split; [done | by right; left] | | left; split; [done | by left]].
  destruct (get_next_backend lb) as [[[ref|]|] lb1].
  - right.
    destruct (forward_request lb1 ref (backend_conn_of env ref) (c :: request)
                (client_sendall env)) as [[[ok lb2] outcomes] tr].
    exists ref, ok, lb2, outcomes, tr. split; [done|].
    destruct ok; [by left|].
    destruct (client_send outcomes) as [[] ?]; [by right | by left].
  - left. split; [done|].
    destruct (client_send (client_sendall env)) as [[] ?]; [by right; right | by left].
  - left. split; [done | by left].
Qed.

(** What the scheduler does to the balancer: it moves the cursor by one
    when it returns a backend, and nothing else ever. *)
Lemma get_next_backend_state (lb : LoadBalancer) :
  ((get_next_backend lb).2 = lb ∧ ∀ r, (get_next_backend lb).1 ≠ Ret (Some r))
  ∨ ((get_next_backend lb).2
       = set_current_backend_index (current_backend_index lb + 1) lb
     ∧ ∃ r, (get_next_backend lb).1 = Ret (Some r)).
Proof.
  destruct (decide (weighted_list (healthy_backends (backends lb)) = [])) as [Hwl | Hwl].
  - left. unfold get_next_backend.
    destruct (backends lb); [done|].
    destruct (healthy_backends _); [done|]. by rewrite Hwl.
  - right. destruct (get_next_backend_selects lb Hwl) as (r & b & -> & _).
    split; [done | by exists r].
Qed.

(** The trace the inner [try] block leaves, for a selected backend. *)
Lemma attempt_trace (lb : LoadBalancer) (env : http_env) (ref : nat) (ok : bool)
    (lb2 : LoadBalancer) (outcomes : list bool) (tr : list action) :
  forwarding_attempt lb env = Some (ref, (ok, lb2, outcomes, tr)) →
  ∃ request,
    read_request (client_recv env) [] = Ret request
    ∧ (get_next_backend lb).1 = Ret (Some ref)
    ∧ (tr = [] ∨ tr = [BackendConnect ref]
       ∨ ∃ k, tr = BackendConnect ref :: BackendSend ref request
                   :: (ClientSend <$> take k (data_chunks
                                                (response (backend_conn_of env ref))))).
Proof.
  intros Hatt.
  apply forwarding_attempt_pool in Hatt as (request & Hread & _ & Hsel & _ & Hfwd).
  exists request. split; [done|]. split; [by rewrite Hsel|].
  pose proof (forward_request_trace (get_next_backend lb).2 ref (backend_conn_of env ref)
                request (client_sendall env)) as Htr.
  by rewrite Hfwd in Htr.
Qed.

(** Every action of a trace, accounted for. *)
Lemma handler_trace_members (lb : LoadBalancer) (env : http_env) (a : action) :
  a ∈ (handle_http_connection lb env).2 →
  a = ClientClose ∨ a = ClientSend status_503 ∨ a = ClientSend status_502
  ∨ ∃ ref request,
      is_Some (forwarding_attempt lb env)
      ∧ read_request (client_recv env) [] = Ret request
      ∧ (get_next_backend lb).1 = Ret (Some ref)
      ∧ (a = BackendClose ref ∨ a = BackendConnect ref ∨ a = BackendSend ref request
         ∨ ∃ chunk, a = ClientSend chunk
                    ∧ chunk ∈ data_chunks (response (backend_conn_of env ref))).
Proof.
  intros Hin.
  destruct (handler_trace lb env)
    as [[_ [Htr | [Htr | Htr]]] | (ref & ok & lb2 & outs & tr & Hatt & Htr)].
  - rewrite Htr in Hin. apply list_elem_of_singleton in Hin. by left.
  - rewrite Htr in Hin. left.
    repeat (apply elem_of_cons in Hin as [-> | Hin]; [done|]). by apply elem_of_nil in Hin.
  - rewrite Htr in Hin.
    apply elem_of_cons in Hin as [-> | Hin]; [by right; left|]. left.
    repeat (apply elem_of_cons in Hin as [-> | Hin]; [done|]). by apply elem_of_nil in Hin.
  - destruct (attempt_trace _ _ _ _ _ _ _ Hatt) as (request & Hread & Hsel & Hshape).
    assert (Htail : a ∈ tr ∨ a = ClientSend status_502 ∨ a = BackendClose ref
                    ∨ a = ClientClose).
    { destruct Htr as [Htr | [_ Htr]]; rewrite Htr in Hin;
        apply elem_of_app in Hin as [Hin | Hin]; [by left | | by left |];
        repeat (apply elem_of_cons in Hin as [-> | Hin]; [by auto|]);
        by apply elem_of_nil in Hin. }
    destruct Htail as [Htail | [-> | [-> | ->]]];
      [| by right; right; left
       | right; right; right; exists ref, request; rewrite Hatt; eauto 10
       | by left].
    right; right; right. exists ref, request. rewrite Hatt.
    split; [eauto|]. split; [done|]. split; [done|].
    destruct Hshape as [-> | [-> | [k ->]]].
    + by apply elem_of_nil in Htail.
    + apply list_elem_of_singleton in Htail as ->. auto.
    + apply elem_of_cons in Htail as [-> | Htail]; [auto|].
      apply elem_of_cons in Htail as [-> | Htail]; [auto|].
      apply list_elem_of_fmap in Htail as (chunk & -> & Hchunk).
      right; right; right. exists chunk. split; [done|].
      by eapply subseteq_take.
Qed.

(** X8: whatever happens, the last thing the handler does is to close the
    client socket; and a backend that was selected has its socket closed
    before that, whether the connection to it succeeded or not. *)
Theorem sockets_are_closed (lb : LoadBalancer) (env : http_env) :
  last (handle_http_connection lb env).2 = Some ClientClose
  ∧ ∀ ref o, forwarding_attempt lb env = Some (ref, o) →
      ∃ before,
        (handle_http_connection lb env).2 = before ++ [BackendClose ref; ClientClose].
Proof.
  destruct (handler_trace lb env)
    as [[Hnone [Htr | [Htr | Htr]]] | (ref & ok & lb2 & outs & tr & Hatt & Htr)].
  - rewrite Htr, Hnone. done.
  - rewrite Htr, Hnone. done.
  - rewrite Htr, Hnone. done.
  - rewrite Hatt. destruct Htr as [-> | [_ ->]].
    + split.
      * replace (tr ++ [BackendClose ref; ClientClose])
          with ((tr ++ [BackendClose ref]) ++ [ClientClose]) by (by rewrite <- app_assoc).
        apply last_snoc.
      * intros ref' o [= <- _]. by exists tr.
    + split.
      * replace (tr ++ [ClientSend status_502; BackendClose ref; ClientClose])
          with ((tr ++ [ClientSend status_502; BackendClose ref]) ++ [ClientClose])
          by (by rewrite <- app_assoc).
        apply last_snoc.
      * intros ref' o [= <- _]. exists (tr ++ [ClientSend status_502]).
        by rewrite <- app_assoc.
Qed.

(** X9: the only bytes a backend is ever sent are the request as it was
    read from the client, whole, and they go to the backend the scheduler
    returned; no connection is opened to any other backend. *)
Theorem request_goes_to_selected_backend (lb : LoadBalancer) (env : http_env)
    (ref : nat) :
  (∀ data, BackendSend ref data ∈ (handle_http_connection lb env).2 →
     read_request (client_recv env) [] = Ret data
     ∧ (get_next_backend lb).1 = Ret (Some ref))
  ∧ (BackendConnect ref ∈ (handle_http_connection lb env).2 →
     (get_next_backend lb).1 = Ret (Some ref)).
Proof.
  split.
  - intros data Hin.
    apply handler_trace_members in Hin
      as [? | [? | [? | (r & request & _ & Hread & Hsel & Ha)]]]; try done.
    destruct Ha as [? | [? | [[= -> ->] | (chunk & ? & _)]]]; done.
  - intros Hin.
    apply handler_trace_members in Hin
      as [? | [? | [? | (r & request & _ & Hread & Hsel & Ha)]]]; try done.
    destruct Ha as [? | [[= ->] | [? | (chunk & ? & _)]]]; done.
Qed.

Lemma request_goes_to_selected_backend_witness :
  read_request (client_recv stalled_upload_env) []
    = Ret (upload_head ++ replicate 30 120)
  ∧ (get_next_backend single_backend_pool).1 = Ret (Some 0%nat).
Proof.
  apply (proj1 (request_goes_to_selected_backend single_backend_pool
                  stalled_upload_env 0)).
  vm_compute. do 1 right. left.
Defined.

Lemma data_chunks_complete (chunks : list bytes) (rest : list recv_event) :
  Forall (fun c => c ≠ []) chunks →
  data_chunks ((RecvData <$> chunks) ++ RecvData [] :: rest) = chunks.
Proof.
  induction 1 as [|c chunks Hc _ IH]; [done|].
  destruct c as [|x c]; [done|]. simpl. f_equal. exact IH.
Qed.

(** An answer that ends with the backend closing, relayed to a client that
    takes every write, is copied to the end. *)
Lemma relay_response_complete (chunks : list bytes) (rest : list recv_event) :
  Forall (fun c => c ≠ []) chunks →
  ∀ outcomes, Forall (fun ok => ok = true) outcomes →
    (relay_response ((RecvData <$> chunks) ++ RecvData [] :: rest) outcomes).1.1 = true.
Proof.
  induction 1 as [|c chunks Hc _ IH]; intros outcomes Hout; [done|].
  destruct c as [|x c]; [done|]. simpl.
  assert (Hsend : ∃ outcomes', client_send outcomes = (true, outcomes')
                               ∧ Forall (fun ok => ok = true) outcomes').
  { destruct Hout as [|ok outcomes -> Hout]; simpl; eauto. }
  destruct Hsend as (outcomes' & -> & Hout').
  specialize (IH outcomes' Hout').
  by destruct (relay_response _ outcomes') as [[ok ?] ?].
Qed.

(** The balancer the handler leaves behind, with and without a backend
    selected. *)
Lemma handler_state_after_attempt (lb lb2 : LoadBalancer) (env : http_env) (ref : nat)
    (ok : bool) (outcomes : list bool) (tr : list action) :
  forwarding_attempt lb env = Some (ref, (ok, lb2, outcomes, tr)) →
  (handle_http_connection lb env).1 = lb2
  ∨ ok = false
    ∧ (handle_http_connection lb env).1
      = set_stats_total_failures (stats_total_failures lb2 + 1)
          (update_backend ref (set_healthy false) lb2).
Proof.
  unfold handle_http_connection, forwarding_attempt.
  destruct (read_request (client_recv env) []) as [[|c request]|]; [done| |done].
  destruct (get_next_backend lb) as [[[r|]|] lb1]; [|done..].
  destruct (forward_request lb1 r (backend_conn_of env r) (c :: request)
              (client_sendall env)) as [[[ok0 lb0] outs0] tr0].
  intros [= -> -> -> -> ->].
  destruct ok; [by left|].
  destruct (client_send outcomes) as [[] ?]; [by right | by left].
Qed.

Lemma handler_state_without_attempt (lb : LoadBalancer) (env : http_env) :
  forwarding_attempt lb env = None →
  (handle_http_connection lb env).1 = lb
  ∨ (handle_http_connection lb env).1
    = set_stats_total_failures (stats_total_failures lb + 1) lb.
Proof.
  unfold handle_http_connection, forwarding_attempt.
  destruct (read_request (client_recv env) []) as [[|c request]|]; [by left| |by left].
  pose proof (get_next_backend_state lb) as Hstate.
  destruct (get_next_backend lb) as [[[r|]|] lb1]; [done| |]; simpl in Hstate;
    intros _.
  - destruct Hstate as [[-> _] | [_ [r ?]]]; [|done].
    destruct (client_send (client_sendall env)) as [[] ?]; [by right | by left].
  - destruct Hstate as [[-> _] | [_ [r ?]]]; [by left | done].
Qed.

(** X10: when the backend accepts the connection and the request, answers
    and closes, and the client takes every write, the relay is transparent.
    The backend is sent the request once; the client is sent the chunks of
    the answer, all of them, in order, and nothing else; both sockets are
    closed.  The backend's request counter and the balancer's go up by one,
    the connection gauge is back where it was, the health flag and the
    failure count are untouched. *)
Theorem successful_proxying (lb lb1 : LoadBalancer) (env : http_env) (ref : nat)
    (request : bytes) (chunks : list bytes) (rest : list recv_event)
    (b : BackendServer) :
  read_request (client_recv env) [] = Ret request → request ≠ [] →
  get_next_backend lb = (Ret (Some ref), lb1) →
  backends lb !! ref = Some b →
  connect_ok (backend_conn_of env ref) = true →
  sendall_ok (backend_conn_of env ref) = true →
  response (backend_conn_of env ref) = (RecvData <$> chunks) ++ RecvData [] :: rest →
  Forall (fun c => c ≠ []) chunks →
  Forall (fun ok => ok = true) (client_sendall env) →
  (handle_http_connection lb env).2
    = BackendConnect ref :: BackendSend ref request
      :: (ClientSend <$> chunks) ++ [BackendClose ref; ClientClose]
  ∧ (∃ b', backends (handle_http_connection lb env).1 !! ref = Some b'
           ∧ total_requests b' = total_requests b + 1
           ∧ connections b' = connections b
           ∧ health_view b' = health_view b)
  ∧ stats_total_requests (handle_http_connection lb env).1 = stats_total_requests lb + 1
  ∧ stats_total_failures (handle_http_connection lb env).1 = stats_total_failures lb.
Proof.
  intros Hread Hne Hsel Hb Hconn Hsend Hresp Hchunks Hout.
  pose proof (get_next_backend_backends lb) as Hpool.
  pose proof (get_next_backend_state lb) as Hstate.
  rewrite Hsel in Hpool, Hstate. simpl in Hpool, Hstate.
  destruct Hstate as [[_ Hno] | [Hlb1 _]]; [by destruct (Hno ref)|].
  assert (Hb1 : backends lb1 !! ref = Some b) by by rewrite Hpool.
  pose proof (relay_response_complete chunks rest Hchunks _ Hout) as Hok.
  pose proof (relay_response_trace (response (backend_conn_of env ref))
                (client_sendall env)) as [_ Htr].
  rewrite <- Hresp in Hok. specialize (Htr Hok).
  rewrite Hresp, data_chunks_complete in Htr by done. rewrite <- Hresp in Htr.
  destruct (forward_request_effect lb1 ref (backend_conn_of env ref) request
              (client_sendall env) b Hb1)
    as (b2 & Hb2 & Htotal & Hgauge & Hstats & _ & Hfail & _ & _).
  pose proof (forward_request_health_view lb1 ref (backend_conn_of env ref) request
                (client_sendall env)) as Hview.
  assert (Hfwd : (forward_request lb1 ref (backend_conn_of env ref) request
                    (client_sendall env)).1.1.1 = true
                 ∧ (forward_request lb1 ref (backend_conn_of env ref) request
                      (client_sendall env)).2
                   = BackendConnect ref :: BackendSend ref request
                     :: (ClientSend <$> chunks)).
  { unfold forward_request. rewrite Hconn, Hsend.
    destruct (relay_response _ _) as [[ok outcomes'] tr]. simpl in *. by subst. }
  destruct Hfwd as [Hflag Htrace].
  unfold handle_http_connection. rewrite Hread.
  destruct request as [|c request]; [done|]. rewrite Hsel.
  destruct (forward_request lb1 ref (backend_conn_of env ref) (c :: request)
              (client_sendall env)) as [[[ok lb2] outcomes'] tr].
  simpl in *. subst ok tr. simpl.
  rewrite Hconn in *. split; [done|]. split.
  - exists b2. split; [done|]. split; [lia|]. split; [lia|].
    assert (Hv : health_view <$> backends lb2 !! ref = health_view <$> backends lb1 !! ref)
      by by rewrite <- !list_lookup_fmap, Hview.
    rewrite Hb2, Hb1 in Hv. simpl in Hv. congruence.
  - rewrite Hstats, Hfail, Hlb1. done.
Qed.

Lemma successful_proxying_witness :
  (handle_http_connection single_backend_pool stalled_upload_env).2
  = BackendConnect 0 :: BackendSend 0 (upload_head ++ replicate 30 120)
    :: (ClientSend <$> [lit "HTTP/1.1 200 OK" ++ CRLFCRLF])
    ++ [BackendClose 0; ClientClose].
Proof.
  apply (successful_proxying single_backend_pool
           (set_current_backend_index 1 single_backend_pool) stalled_upload_env 0
           (upload_head ++ replicate 30 120) [lit "HTTP/1.1 200 OK" ++ CRLFCRLF] []
           (new_backend "127.0.0.1" 5001 1)).
  - reflexivity.
  - discriminate.
  - reflexivity.
  - reflexivity.
  - reflexivity.
  - reflexivity.
  - reflexivity.
  - apply Forall_cons. split; [discriminate | apply Forall_nil_2].
  - apply Forall_nil_2.
Defined.

(** X11: when forwarding fails, the connection gauge of the backend is not
    released: if the connection had been opened the gauge stays one higher
    than before (and the request counter too), if it was refused both are as
    they were. *)
Theorem failed_forward_holds_gauge (lb lb2 : LoadBalancer) (env : http_env) (ref : nat)
    (outcomes : list bool) (tr : list action) (b : BackendServer) :
  forwarding_attempt lb env = Some (ref, (false, lb2, outcomes, tr)) →
  backends lb !! ref = Some b →
  ∃ b', backends (handle_http_connection lb env).1 !! ref = Some b'
        ∧ connections b'
          = connections b + (if connect_ok (backend_conn_of env ref) then 1 else 0)
        ∧ total_requests b'
          = total_requests b + (if connect_ok (backend_conn_of env ref) then 1 else 0).
Proof.
  intros Hatt Hb.
  pose proof (handler_state_after_attempt _ _ _ _ _ _ _ Hatt) as Hcases.
  apply forwarding_attempt_pool in Hatt as (request & _ & _ & _ & Hpool & Hfwd).
  assert (Hb1 : backends (get_next_backend lb).2 !! ref = Some b) by by rewrite Hpool.
  destruct (forward_request_effect _ ref (backend_conn_of env ref) request
              (client_sendall env) b Hb1) as (b2 & Hb2 & Htotal & Hgauge & _).
  rewrite Hfwd in Hb2, Hgauge. simpl in Hb2, Hgauge.
  destruct Hcases as [-> | [_ ->]].
  - exists b2. done.
  - exists (set_healthy false b2). simpl. by rewrite list_lookup_alter_eq, Hb2.
Qed.

Lemma failed_forward_holds_gauge_witness :
  ∃ b', backends
          (handle_http_connection single_backend_pool
             {| client_recv := [RecvData (lit "GET / HTTP/1.1" ++ CRLFCRLF)];
                client_sendall := [];
                backend_conn_of := fun _ =>
                  {| connect_ok := true; sendall_ok := true; response := [] |} |}).1
          !! 0%nat = Some b'
        ∧ connections b' = 0 + 1
        ∧ total_requests b' = 0 + 1.
Proof.
  eapply (failed_forward_holds_gauge single_backend_pool _
            {| client_recv := [RecvData (lit "GET / HTTP/1.1" ++ CRLFCRLF)];
               client_sendall := [];
               backend_conn_of := fun _ =>
                 {| connect_ok := true; sendall_ok := true; response := [] |} |}
            0 _ _ (new_backend "127.0.0.1" 5001 1)).
  - reflexivity.
  - reflexivity.
Defined.

(** X12: what the request reader returns is what it was given followed by
    the leading chunks the client sent, some number of them, joined in the
    order they arrived: nothing is dropped from the middle, repeated or
    reordered. *)
Theorem read_request_keeps_order (script : list recv_event) (buf data : bytes) :
  read_request script buf = Ret data →
  ∃ k, data = buf ++ concat (take k (data_chunks script)).
Proof.
  revert buf. induction script as [|[[|x chunk]| |] script IH]; intros buf; simpl;
    try (intros [= <-]; exists 0%nat; by rewrite app_nil_r); try done.
  destruct (reading_done (buf ++ x :: chunk)) as [[]|]; [| |done].
  - intros [= <-]. exists 1%nat. simpl. by rewrite app_nil_r.
  - intros Hread. apply IH in Hread as [k ->]. exists (S k). simpl.
    by rewrite <- app_assoc.
Qed.

Lemma read_request_keeps_order_witness :
  ∃ k, upload_head ++ replicate 30 120
       = [] ++ concat (take k (data_chunks (client_recv stalled_upload_env))).
Proof.
  apply (read_request_keeps_order (client_recv stalled_upload_env) []
           (upload_head ++ replicate 30 120)).
  reflexivity.
Defined.

Lemma served_imap (f : nat → BackendServer → BackendServer) (bs : list BackendServer) :
  (∀ r b, total_requests (f r b) = total_requests b) →
  served (imap f bs) = served bs.
Proof.
  unfold served. revert f. induction bs as [|b bs IH]; intros f Hf; [done|].
  simpl. rewrite Hf. f_equal. apply IH. intros r b'. apply Hf.
Qed.

(** X13: the balancer's request counter stays equal to the sum of the
    request counters of its backends.  This holds of a new balancer and is
    kept by [add_backend], by the scheduler, by a round of the health
    checker and by the handling of a connection. *)
Theorem request_counters_agree (lb : LoadBalancer) :
  stats_total_requests new_load_balancer = served (backends new_load_balancer)
  ∧ (stats_total_requests lb = served (backends lb) →
     (∀ h p w, stats_total_requests (add_backend h p w lb)
               = served (backends (add_backend h p w lb)))
     ∧ stats_total_requests (get_next_backend lb).2
       = served (backends (get_next_backend lb).2)
     ∧ (∀ probes now, stats_total_requests (health_check_pass lb probes now)
                      = served (backends (health_check_pass lb probes now)))
     ∧ ∀ env, stats_total_requests (handle_http_connection lb env).1
              = served (backends (handle_http_connection lb env).1)).
Proof.
  split; [done|]. intros Hinv. split_and!.
  - intros h p w. simpl. rewrite Hinv. unfold served.
    rewrite foldr_app. simpl.
    generalize (backends lb). intros bs. induction bs as [|b bs IH]; simpl; lia.
  - destruct (get_next_backend_state lb) as [[-> _] | [-> _]]; done.
  - intros probes now. simpl. rewrite Hinv. symmetry. apply served_imap.
    intros r b. unfold check_health. destruct (probe_ok (probes r)); simpl; [done|].
    by destruct (3 <=? failed_checks b + 1).
  - intros env.
    destruct (forwarding_attempt lb env) as [[ref [[[ok lb2] outs] tr]]|] eqn:Hatt.
    + pose proof (handler_state_after_attempt _ _ _ _ _ _ _ Hatt) as Hcases.
      apply forwarding_attempt_pool in Hatt as (request & _ & _ & Hsel & Hpool & Hfwd).
      destruct (selected_in_pool lb ref) as [b Hb]; [by rewrite Hsel|].
      assert (Hb1 : backends (get_next_backend lb).2 !! ref = Some b) by by rewrite Hpool.
      destruct (forward_request_effect _ ref (backend_conn_of env ref) request
                  (client_sendall env) b Hb1)
        as (b2 & Hb2 & _ & _ & Hstats & Hserved & _).
      rewrite Hfwd in Hb2, Hstats, Hserved. simpl in Hb2, Hstats, Hserved.
      assert (Hnext : stats_total_requests (get_next_backend lb).2
                      = stats_total_requests lb).
      { destruct (get_next_backend_state lb) as [[-> _] | [-> _]]; done. }
      rewrite Hnext, Hpool in *.
      destruct Hcases as [-> | [_ ->]]; [lia|]. simpl.
      erewrite served_alter by exact Hb2. simpl. lia.
    + by destruct (handler_state_without_attempt lb env Hatt) as [-> | ->].
Qed.

Lemma request_counters_agree_witness :
  stats_total_requests (handle_http_connection single_backend_pool stalled_upload_env).1
  = served (backends (handle_http_connection single_backend_pool stalled_upload_env).1).
Proof.
  apply (proj2 (request_counters_agree single_backend_pool)). reflexivity.
Defined.

(** X14: the handling of a connection never changes the size of the pool
    or the address or weight of a backend, and it moves the cursor by one
    exactly when a backend was selected for the request. *)
Theorem relay_keeps_pool (lb : LoadBalancer) (env : http_env) :
  identity_view <$> backends (handle_http_connection lb env).1
    = identity_view <$> backends lb
  ∧ length (backends (handle_http_connection lb env).1) = length (backends lb)
  ∧ current_backend_index (handle_http_connection lb env).1
    = current_backend_index lb
      + match forwarding_attempt lb env with Some _ => 1 | None => 0 end.
Proof.
  assert (Hmain : identity_view <$> backends (handle_http_connection lb env).1
                    = identity_view <$> backends lb
                  ∧ current_backend_index (handle_http_connection lb env).1
                    = current_backend_index lb
                      + match forwarding_attempt lb env with Some _ => 1 | None => 0 end).
  { destruct (forwarding_attempt lb env) as [[ref [[[ok lb2] outs] tr]]|] eqn:Hatt.
    - pose proof (handler_state_after_attempt _ _ _ _ _ _ _ Hatt) as Hcases.
      apply forwarding_attempt_pool in Hatt as (request & _ & _ & Hsel & Hpool & Hfwd).
      destruct (selected_in_pool lb ref) as [b Hb]; [by rewrite Hsel|].
      assert (Hb1 : backends (get_next_backend lb).2 !! ref = Some b) by by rewrite Hpool.
      destruct (forward_request_effect _ ref (backend_conn_of env ref) request
                  (client_sendall env) b Hb1)
        as (b2 & _ & _ & _ & _ & _ & _ & Hcursor & Hid).
      rewrite Hfwd in Hcursor, Hid. simpl in Hcursor, Hid. rewrite Hpool in Hid.
      assert (Hnext : current_backend_index (get_next_backend lb).2
                      = current_backend_index lb + 1).
      { destruct (get_next_backend_state lb) as [[_ Hno] | [-> _]]; [|done].
        destruct (Hno ref). by rewrite Hsel. }
      destruct Hcases as [-> | [_ ->]]; [split; [done | lia]|]. simpl. split; [|lia].
      by rewrite alter_keeps_view.
    - destruct (handler_state_without_attempt lb env Hatt) as [-> | ->];
        simpl; split; try done; lia. }
  destruct Hmain as [Hid Hcursor]. split; [done|]. split; [|done].
  apply (f_equal length) in Hid. by rewrite !length_fmap in Hid.
Qed.

(** ** The TCP relay: rotation, pairing and order *)

Lemma tcp_calls_round (bs : list TCP.TCPBackend) (n : nat) :
  bs ≠ [] →
  ∀ c,
    tcp_scheduling_calls n {| TCP.backends := bs; TCP.current_index := c |}
    = ((fun i : nat => Some (Z.to_nat ((c + Z.of_nat i) `mod` Z.of_nat (length bs))))
         <$> seq 0 n,
       {| TCP.backends := bs; TCP.current_index := c + Z.of_nat n |}).
Proof.
  intros Hne. induction n as [|n IH]; intros c.
  - simpl. by rewrite Z.add_0_r.
  - simpl. unfold TCP.get_next_backend at 1. simpl.
    destruct bs as [|b bs'] eqn:Hbs; [done|]. rewrite <- Hbs in *.
    rewrite IH. f_equal.
    + f_equal; [by rewrite Z.add_0_r|].
      rewrite <- fmap_S_seq, <- list_fmap_compose. apply list_fmap_ext.
      intros i x _. simpl. do 3 f_equal. lia.
    + f_equal. lia.
Qed.

(** Going round a pool of [n] from any cursor visits the references
    [0 .. n-1] in rotated order. *)
Lemma round_of_refs (n : nat) (c : Z) :
  0 ≤ c →
  (fun i : nat => Some (Z.to_nat ((c + Z.of_nat i) `mod` Z.of_nat n))) <$> seq 0 n
  = Some <$> rotate (Z.to_nat c) (seq 0 n).
Proof.
  intros Hc. rewrite <- lookup_round by done. rewrite !length_seq.
  apply list_fmap_ext. intros i x Hx. apply lookup_seq in Hx as [-> Hi]. simpl.
  symmetry. rewrite lookup_seq_lt; [done|]. apply cursor_in_range. lia.
Qed.

(** X15: on a pool of [n] backends and from any cursor that is not
    negative, [n] selections of the TCP relay in a row return every backend
    exactly once, whatever its health flag says, and move the cursor by
    [n]. *)
Theorem tcp_rotation_visits_all (lb : TCP.TCPLoadBalancer) :
  TCP.backends lb ≠ [] → 0 ≤ TCP.current_index lb →
  ∃ refs,
    (tcp_scheduling_calls (length (TCP.backends lb)) lb).1 = Some <$> refs
    ∧ refs ≡ₚ seq 0 (length (TCP.backends lb))
    ∧ TCP.current_index (tcp_scheduling_calls (length (TCP.backends lb)) lb).2
      = TCP.current_index lb + Z.of_nat (length (TCP.backends lb)).
Proof.
  intros Hne Hc. destruct lb as [bs c]. simpl in *.
  exists (rotate (Z.to_nat c) (seq 0 (length bs))).
  rewrite tcp_calls_round by done. simpl.
  split; [by apply round_of_refs|]. split; [apply rotate_permutation | done].
Qed.

Lemma tcp_rotation_visits_all_witness :
  ∃ refs,
    (tcp_scheduling_calls 3 tcp_cluster_pool).1 = Some <$> refs
    ∧ refs ≡ₚ seq 0 3.
Proof.
  destruct (tcp_rotation_visits_all tcp_cluster_pool) as (refs & Hres & Hperm & _).
  - discriminate.
  - simpl. lia.
  - exists refs. split; [exact Hres | exact Hperm].
Defined.

Section RelayAsAWhole.
Import TCP.

Lemma handle_tcp_connection_selects (lb : TCPLoadBalancer) (client : sock)
    (connect : nat → option sock) :
  TCP.get_next_backend lb
  = (pairing_ref (handle_tcp_connection lb client connect).2,
     (handle_tcp_connection lb client connect).1)
  ∧ pairing_respects connect (handle_tcp_connection lb client connect).2.
Proof.
  unfold handle_tcp_connection.
  destruct (TCP.get_next_backend lb) as [[ref|] lb']; [|done].
  by destruct (connect ref) eqn:Hc.
Qed.

(** The connections of an accept loop are given backends as successive
    selections give them, whether the backends accept or not. *)
Lemma tcp_serve_selects (connect : nat → option sock) (clients : list sock) :
  ∀ lb,
    pairing_ref <$> (tcp_serve clients connect lb).1
      = (tcp_scheduling_calls (length clients) lb).1
    ∧ (tcp_serve clients connect lb).2 = (tcp_scheduling_calls (length clients) lb).2
    ∧ Forall (pairing_respects connect) (tcp_serve clients connect lb).1.
Proof.
  induction clients as [|client clients IH]; intros lb; [done|]. simpl.
  destruct (handle_tcp_connection_selects lb client connect) as [Hsel Hres].
  destruct (handle_tcp_connection lb client connect) as [lb' outcome].
  rewrite Hsel. simpl in *.
  destruct (IH lb') as (Hrefs & Hlb & Hall).
  destruct (tcp_serve clients connect lb') as [outcomes lb''].
  destruct (tcp_scheduling_calls (length clients) lb') as [rs lb3].
  simpl in *. subst. split; [done|]. split; [done|]. by constructor.
Qed.

(** X16: the TCP relay has no failover.  Of [n] connections accepted in a
    row on a pool of [n] backends, each backend is given exactly one; a
    connection given to a backend that refuses is closed, not offered to
    another backend; and the pool is left as it was, the refusing backends
    still in the rotation. *)
Theorem tcp_relay_has_no_failover (lb : TCPLoadBalancer) (clients : list sock)
    (connect : nat → option sock) :
  TCP.backends lb ≠ [] → 0 ≤ current_index lb →
  length clients = length (TCP.backends lb) →
  (∃ refs,
      pairing_ref <$> (tcp_serve clients connect lb).1 = Some <$> refs
      ∧ refs ≡ₚ seq 0 (length (TCP.backends lb)))
  ∧ Forall (pairing_respects connect) (tcp_serve clients connect lb).1
  ∧ TCP.backends (tcp_serve clients connect lb).2 = TCP.backends lb.
Proof.
  intros Hne Hc Hlen.
  destruct (tcp_serve_selects connect clients lb) as (Hrefs & Hlb & Hall).
  rewrite Hrefs, Hlb, Hlen. destruct lb as [bs c]. simpl in *.
  rewrite tcp_calls_round by done. simpl. split; [|done].
  exists (rotate (Z.to_nat c) (seq 0 (length bs))).
  split; [by apply round_of_refs | apply rotate_permutation].
Qed.

Lemma tcp_relay_has_no_failover_witness :
  Forall (pairing_respects (fun ref => if (ref =? 1)%nat then None
                                      else Some (open_sock [] true)))
    (tcp_serve [open_sock [] true; open_sock [] true; open_sock [] true]
       (fun ref => if (ref =? 1)%nat then None else Some (open_sock [] true))
       tcp_cluster_pool).1.
Proof.
  apply (tcp_relay_has_no_failover tcp_cluster_pool
           [open_sock [] true; open_sock [] true; open_sock [] true]
           (fun ref => if (ref =? 1)%nat then None else Some (open_sock [] true))).
  - discriminate.
  - simpl. lia.
  - reflexivity.
Defined.

(** One step of a [forward] thread keeps its direction in order. *)
Lemma forward_step_direction (init : list recv_event) (pc pc' : forward_pc)
    (source destination source' destination' : sock) :
  forward_step pc source destination = Some (pc', source', destination') →
  direction_inv init pc source destination →
  direction_inv init pc' source' destination'.
Proof.
  unfold direction_inv. destruct pc; simpl; try done.
  - destruct (closed source); intros [= <- <- <-] [Hpre Heq]; done.
  - destruct (incoming source) as [|[[|x data]| |] rest] eqn:Hin;
      intros [= <- <- <-] [Hpre Heq]; simpl in *; done.
  - destruct (closed destination || negb (writable destination));
      intros [= <- <- <-] [Hpre Heq]; simpl in *; [done|].
    split.
    + rewrite <- Heq. apply prefix_app, prefix_cons, prefix_nil.
    + by rewrite <- app_assoc.
  - intros [= <- <- <-] [Hpre _]. done.
  - intros [= <- <- <-] [Hpre _]. done.
Qed.

(** A step of the thread of the other direction does not touch it. *)
Lemma other_step_direction (init : list recv_event) (pc pc_o pc_o' : forward_pc)
    (source destination source' destination' : sock) :
  forward_step pc_o destination source = Some (pc_o', destination', source') →
  direction_inv init pc source destination →
  direction_inv init pc source' destination'.
Proof.
  intros Hstep. apply forward_step_streams in Hstep as [Hin Hdel].
  unfold direction_inv. by rewrite Hin, Hdel.
Qed.

Lemma step_keeps_order (who : thread) (from_client from_backend : list recv_event)
    (r r' : relay) :
  step who r = Some r' →
  order_inv from_client from_backend r → order_inv from_client from_backend r'.
Proof.
  unfold order_inv. destruct who; simpl.
  - destruct (handler r) eqn:Hh.
    + intros [= <-] (H1 & H2 & D1 & D2); simpl. rewrite H1 in D1 by done.
      split_and!; try done. intros _. apply H2. by left.
    + intros [= <-] (H1 & H2 & D1 & D2); simpl. rewrite H2 in D2 by auto.
      split_and!; try done. by intros [? | ?].
    + destruct (t1 r) eqn:Ht1; try done. intros [= <-] (H1 & H2 & D1 & D2); simpl.
      split_and!; try done. by intros [? | ?].
    + destruct (t2 r) eqn:Ht2; try done. intros [= <-] (H1 & H2 & D1 & D2); simpl.
      split_and!; try done. by intros [? | ?].
    + done.
  - destruct (forward_step (t1 r) (client_socket r) (backend_socket r))
      as [[[pc s] d]|] eqn:Hf; [|done].
    intros [= <-] (H1 & H2 & D1 & D2); simpl.
    assert (Hstarted : handler r ≠ StartT1).
    { intros Hh. rewrite (H1 Hh) in Hf. done. }
    split_and!.
    + done.
    + exact H2.
    + by eapply forward_step_direction.
    + by eapply other_step_direction.
  - destruct (forward_step (t2 r) (backend_socket r) (client_socket r))
      as [[[pc s] d]|] eqn:Hf; [|done].
    intros [= <-] (H1 & H2 & D1 & D2); simpl.
    assert (Hstarted : ¬ (handler r = StartT1 ∨ handler r = StartT2)).
    { intros Hh. rewrite (H2 Hh) in Hf. done. }
    split_and!.
    + intros Hh. destruct Hstarted. by left.
    + intros Hh. by destruct Hstarted.
    + by eapply other_step_direction.
    + by eapply forward_step_direction.
Qed.

Lemma fresh_relay_in_order (r : relay) :
  fresh_relay r →
  order_inv (incoming (client_socket r)) (incoming (backend_socket r)) r
  ∧ relay_inv r.
Proof.
  intros (Hh & H1 & H2 & Hc & Hb). split.
  - unfold order_inv, direction_inv. rewrite H1, H2, Hc, Hb. simpl.
    split_and!; try done; apply prefix_nil.
  - unfold relay_inv. rewrite Hh, H1, H2. intuition congruence.
Qed.

(** X17: in a relayed connection each peer is sent what the other peer
    said, in the order it was said: at every moment, and however the two
    threads interleave, the chunks written to the client are a prefix of the
    chunks the backend had to say, and likewise towards the backend. *)
Theorem tcp_relay_keeps_order (r0 r : relay) :
  fresh_relay r0 → rtc steps_to r0 r →
  delivered (client_socket r) `prefix_of` data_chunks (incoming (backend_socket r0))
  ∧ delivered (backend_socket r) `prefix_of` data_chunks (incoming (client_socket r0)).
Proof.
  intros Hfresh Hreach.
  destruct (fresh_relay_in_order r0 Hfresh) as [Hstart _].
  assert (Hinv : order_inv (incoming (client_socket r0)) (incoming (backend_socket r0)) r).
  { clear Hfresh. revert Hstart.
    generalize (incoming (client_socket r0)), (incoming (backend_socket r0)).
    intros from_client from_backend.
    induction Hreach as [|r1 r2 r3 [who Hstep] _ IH]; [done|].
    intros Hinv. by eapply IH, step_keeps_order. }
  destruct Hinv as (_ & _ & [D1 _] & [D2 _]). done.
Qed.

Lemma tcp_relay_keeps_order_witness :
  delivered (client_socket
               (run [Handler; Handler; T1; T2; T1; T2]
                  (relay_start [RecvData (lit "ping")] hundred_bytes)))
    `prefix_of` data_chunks [RecvData hundred_bytes; RecvData []].
Proof.
  apply (tcp_relay_keeps_order (relay_start [RecvData (lit "ping")] hundred_bytes)).
  - repeat split.
  - apply run_reachable.
Defined.

(** X18: however [handle_tcp_connection] ends, it leaves the client socket
    closed: at once when there is no backend or [connect] raises, and, once
    paired, by the time the handler returns, when the backend socket is
    closed as well and both threads have finished. *)
Theorem tcp_handler_closes_sockets (lb : TCPLoadBalancer) (client : sock)
    (connect : nat → option sock) :
  delivered client = [] → (∀ ref backend, connect ref = Some backend → delivered backend = []) →
  match (handle_tcp_connection lb client connect).2 with
  | NoBackend client' | ConnectFailed _ client' => closed client' = true
  | Paired _ r0 =>
      fresh_relay r0
      ∧ ∀ r, rtc steps_to r0 r → handler r = Returned →
          closed (client_socket r) = true ∧ closed (backend_socket r) = true
          ∧ t1 r = Finished ∧ t2 r = Finished
  end.
Proof.
  intros Hclient Hbackend. unfold handle_tcp_connection.
  destruct (TCP.get_next_backend lb) as [[ref|] lb']; [|done].
  destruct (connect ref) as [backend|] eqn:Hc; [|done].
  assert (Hfresh : fresh_relay
            {| handler := StartT1; t1 := NotStarted; t2 := NotStarted;
               client_socket := client; backend_socket := backend |}).
  { repeat split; eauto. }
  split; [exact Hfresh|]. intros r Hreach Hret.
  destruct (fresh_relay_in_order _ Hfresh) as [_ Hstart].
  destruct (reachable_inv _ _ Hreach Hstart) as (I1 & I2 & I3 & I4 & I5 & I6).
  assert (H1 : t1 r = Finished) by (apply I1; by right).
  assert (H2 : t2 r = Finished) by by apply I2.
  split_and!; auto.
Qed.

Lemma tcp_handler_closes_sockets_witness :
  match (handle_tcp_connection tcp_cluster_pool (open_sock [RecvData []] true)
           (fun _ => None)).2 with
  | NoBackend client' | ConnectFailed _ client' => closed client' = true
  | Paired _ r0 => False
  end.
Proof.
  pose proof (tcp_handler_closes_sockets tcp_cluster_pool (open_sock [RecvData []] true)
                (fun _ => None) eq_refl) as Hclosed.
  simpl in *. apply Hclosed. intros ref backend Hnone. discriminate Hnone.
Defined.

(** ** The TCP relay: one answer *)

Lemma forward_step_closing (pc pc' : forward_pc)
    (source destination source' destination' : sock) :
  forward_step pc source destination = Some (pc', source', destination') →
  writable source' = writable source
  ∧ writable destination' = writable destination
  ∧ (closed source' = true → closed source = true ∨ closed_its_source pc')
  ∧ (closed destination' = true → closed destination = true ∨ pc' = Finished)
  ∧ (closed_its_source pc → closed_its_source pc')
  ∧ pc ≠ Finished ∧ pc ≠ NotStarted ∧ pc' ≠ NotStarted.
Proof.
  unfold closed_its_source.
  destruct pc; simpl; try done;
    [destruct (closed source) eqn:Hs
    |destruct (incoming source) as [|[[|x data]| |] rest]; [done|..]
    |destruct (closed destination || negb (writable destination))
    | | ];
    intros [= <- <- <-]; simpl; split_and!; auto; try done;
    try (by intros [? | ?]); intros ?; congruence.
Qed.

(** Who has closed what. *)
Lemma step_keeps_closing (who : thread) (from_client from_backend : list recv_event)
    (r r' : relay) :
  step who r = Some r' →
  order_inv from_client from_backend r → closing_inv r → closing_inv r'.
Proof.
  unfold closing_inv, closed_its_source. destruct who; simpl.
  - intros Hstep (H1 & H2 & _ & _) (K1 & K2 & K3).
    destruct (handler r) eqn:Hh.
    + injection Hstep as <-; simpl. rewrite H1 in K1, K2 by done.
      split_and!; [| |done].
      * intros Hc. destruct (K1 Hc) as [[? | ?] | ?]; [done | done | by right].
      * intros Hc. destruct (K2 Hc) as [? | ?]; [done | by right].
    + injection Hstep as <-; simpl. rewrite H2 in K1, K2 by auto.
      split_and!; [| |done].
      * intros Hc. destruct (K1 Hc) as [? | ?]; [by left | done].
      * intros Hc. destruct (K2 Hc) as [? | [? | ?]]; [by left | done | done].
    + destruct (t1 r); try done. by injection Hstep as <-.
    + destruct (t2 r); try done. by injection Hstep as <-.
    + done.
  - destruct (forward_step (t1 r) (client_socket r) (backend_socket r))
      as [[[pc s] d]|] eqn:Hf; [|done].
    intros [= <-] _ (K1 & K2 & K3); simpl.
    apply forward_step_closing in Hf as (Hws & _ & Hs & Hd & Hcis & Hnf & _).
    split_and!.
    + intros Hc. destruct (Hs Hc) as [Hold | Hnew]; [|by left].
      destruct (K1 Hold) as [Hcl | ?]; [left; by apply Hcis | by right].
    + intros Hc. destruct (Hd Hc) as [Hold | Hnew]; [|by left].
      destruct (K2 Hold) as [? | ?]; [done | by right].
    + congruence.
  - destruct (forward_step (t2 r) (backend_socket r) (client_socket r))
      as [[[pc s] d]|] eqn:Hf; [|done].
    intros [= <-] _ (K1 & K2 & K3); simpl.
    apply forward_step_closing in Hf as (_ & Hwd & Hs & Hd & Hcis & Hnf & _).
    split_and!.
    + intros Hc. destruct (Hd Hc) as [Hold | Hnew]; [|by right].
      destruct (K1 Hold) as [? | ?]; [by left | done].
    + intros Hc. destruct (Hs Hc) as [Hold | Hnew]; [|by right].
      destruct (K2 Hold) as [? | Hcl]; [by left | right; by apply Hcis].
    + congruence.
Qed.

(** The backend-to-client thread gives up only when all is delivered or
    the other thread has closed a socket under it. *)
Lemma step_keeps_delivery (who : thread) (from_client from_backend : list recv_event)
    (r r' : relay) :
  step who r = Some r' →
  order_inv from_client from_backend r → closing_inv r →
  delivery_inv (data_chunks from_backend) r → delivery_inv (data_chunks from_backend) r'.
Proof.
  unfold delivery_inv, left_loop, closed_its_source. destruct who; simpl.
  - intros Hstep (H1 & H2 & _ & _) _ Hinv.
    destruct (handler r) eqn:Hh.
    + injection Hstep as <-; simpl. rewrite H2 by auto. by intros [? | [? | ?]].
    + injection Hstep as <-; simpl. by intros [? | [? | ?]].
    + destruct (t1 r); try done. by injection Hstep as <-.
    + destruct (t2 r); try done. by injection Hstep as <-.
    + done.
  - destruct (forward_step (t1 r) (client_socket r) (backend_socket r))
      as [[[pc s] d]|] eqn:Hf; [|done].
    intros [= <-] _ _ Hinv; simpl.
    pose proof (forward_step_streams _ _ _ _ _ _ Hf) as [_ Hdel].
    apply forward_step_closing in Hf as (_ & _ & _ & _ & Hcis & _).
    intros Hleft. rewrite Hdel.
    destruct (Hinv Hleft) as [? | Hcl]; [by left | right; by apply Hcis].
  - intros Hstep (_ & _ & _ & [_ D2]) (K1 & K2 & K3) Hinv. revert Hstep D2 Hinv.
    destruct (t2 r) as [| | |sent| | |] eqn:Ht2; simpl; try done.
    + destruct (closed (backend_socket r)) eqn:Hc; intros [= <-] _ _; simpl.
      * intros _. destruct (K2 eq_refl) as [? | [? | ?]]; [right; by right | done | done].
      * by intros [? | [? | ?]].
    + destruct (incoming (backend_socket r)) as [|[[|x data]| |] rest] eqn:Hin;
        intros [= <-] D2 _; simpl in *; try (by intros [? | [? | ?]]);
        intros _; left; rewrite <- D2; by rewrite app_nil_r.
    + destruct (closed (client_socket r)) eqn:Hc; simpl.
      * intros [= <-] _ _; simpl. intros _.
        destruct (K1 eq_refl) as [? | ?]; [by right | done].
      * rewrite K3. simpl. intros [= <-] _ _; simpl. by intros [? | [? | ?]].
    + intros [= <-] _ Hinv; simpl. intros _. apply Hinv. by left.
    + intros [= <-] _ Hinv; simpl. intros _. apply Hinv. right. by left.
Qed.

Lemma step_keeps_speaking (who : thread) (r r' : relay) :
  step who r = Some r' → backend_speaks r → backend_speaks r'.
Proof.
  unfold backend_speaks. destruct who; simpl.
  - destruct (handler r); try (by intros [= <-]).
    + destruct (t1 r); try done. by intros [= <-].
    + destruct (t2 r); try done. by intros [= <-].
  - destruct (forward_step (t1 r) (client_socket r) (backend_socket r))
      as [[[pc s] d]|] eqn:Hf; [|done].
    intros [= <-]; simpl. apply forward_step_streams in Hf as [-> _]. done.
  - destruct (t2 r) eqn:Ht2; simpl; try done.
    + destruct (closed (backend_socket r)); by intros [= <-].
    + intros Hstep (cs & Hin & Hne). rewrite Hin in Hstep.
      destruct cs as [|c cs]; simpl in Hstep.
      * injection Hstep as <-; simpl. exists []. by rewrite Hin.
      * apply Forall_cons in Hne as [Hc Hne]. destruct c as [|x c]; [done|].
        injection Hstep as <-; simpl. by exists cs.
    + destruct (closed (client_socket r) || negb (writable (client_socket r)));
        by intros [= <-].
    + by intros [= <-].
    + by intros [= <-].
Qed.

(** Everything that holds of a relay at every moment. *)
Lemma reachable_relay (from_client from_backend : list recv_event) (r r' : relay) :
  rtc steps_to r r' →
  order_inv from_client from_backend r ∧ closing_inv r
  ∧ delivery_inv (data_chunks from_backend) r ∧ backend_speaks r →
  order_inv from_client from_backend r' ∧ closing_inv r'
  ∧ delivery_inv (data_chunks from_backend) r' ∧ backend_speaks r'.
Proof.
  induction 1 as [|r1 r2 r3 [who Hstep] _ IH]; [done|].
  intros (Ho & Hc & Hd & Hs). apply IH. split_and!.
  - by eapply step_keeps_order.
  - by eapply step_keeps_closing.
  - by eapply step_keeps_delivery.
  - by eapply step_keeps_speaking.
Qed.

Lemma run_finished (n : nat) (r : relay) :
  t2 r = Finished → run (replicate n T2) r = r.
Proof.
  intros H2. induction n as [|n IH]; [done|]. simpl. by rewrite H2.
Qed.

(** From its [finally] block the thread finishes in two steps. *)
Lemma run_closing (n : nat) (r : relay) :
  (2 ≤ n)%nat → left_loop (t2 r) → t2 (run (replicate n T2) r) = Finished.
Proof.
  intros Hn [H2 | [H2 | H2]].
  - destruct n as [|[|n]]; [lia..|]. simpl. rewrite H2. simpl.
    by rewrite run_finished.
  - destruct n as [|n]; [lia|]. simpl. rewrite H2. simpl. by rewrite run_finished.
  - by rewrite run_finished.
Qed.

(** The backend-to-client thread is never blocked for good: its source
    always has something to say, if only the end of the stream. *)
Lemma run_to_the_end (cs : list bytes) :
  Forall (fun c => c ≠ []) cs →
  ∀ (r : relay) (n : nat),
    incoming (backend_socket r) = (RecvData <$> cs) ++ [RecvData []] →
    t2 r ≠ NotStarted →
    (3 * length cs + 5 ≤ n)%nat →
    t2 (run (replicate n T2) r) = Finished.
Proof.
  induction 1 as [|c cs Hc Hne IH]; intros r n Hin Hstarted Hn; unfold bytes in *.
  - assert (Hrecv : ∀ r n, incoming (backend_socket r) = [RecvData []] →
                      t2 r = InRecv → (3 ≤ n)%nat →
                      t2 (run (replicate n T2) r) = Finished).
    { intros r1 [|n1] Hin1 H2 Hn1; [lia|]. simpl. rewrite H2. simpl. rewrite Hin1.
      apply run_closing; [lia | by left]. }
    assert (Hcall : ∀ r n, incoming (backend_socket r) = [RecvData []] →
                      t2 r = Receiving → (4 ≤ n)%nat →
                      t2 (run (replicate n T2) r) = Finished).
    { intros r1 [|n1] Hin1 H2 Hn1; [lia|]. simpl. rewrite H2. simpl.
      destruct (closed (backend_socket r1)).
      - apply run_closing; [lia | by left].
      - apply Hrecv; [done | done | lia]. }
    simpl in Hin, Hn.
    destruct (t2 r) as [| | |sent| | |] eqn:H2; [done| | | | | |].
    + apply Hcall; [done | done | lia].
    + apply Hrecv; [done | done | lia].
    + destruct n as [|n]; [lia|]. simpl. rewrite H2. simpl.
      destruct (closed (client_socket r) || negb (writable (client_socket r))).
      * apply run_closing; [lia | by left].
      * apply Hcall; [done | done | lia].
    + apply run_closing; [lia | by left].
    + apply run_closing; [lia | right; by left].
    + apply run_closing; [lia | right; by right].
  - destruct c as [|x c]; [done|].
    assert (Hsend : ∀ r n sent, incoming (backend_socket r) = (RecvData <$> cs) ++ [RecvData []] →
                      t2 r = Sending sent → (3 * length cs + 5 ≤ n)%nat →
                      t2 (run (replicate n T2) r) = Finished).
    { intros r1 n1 sent Hin1 H2 Hn1. apply IH; [done | by rewrite H2 | done]. }
    assert (Hrecv : ∀ r n, incoming (backend_socket r)
                           = (RecvData <$> (x :: c) :: cs) ++ [RecvData []] →
                      t2 r = InRecv → (3 * length cs + 6 ≤ n)%nat →
                      t2 (run (replicate n T2) r) = Finished).
    { intros r1 [|n1] Hin1 H2 Hn1; [lia|]. simpl. rewrite H2. simpl. rewrite Hin1. simpl.
      apply (Hsend _ _ (x :: c)); [done | done | lia]. }
    assert (Hcall : ∀ r n, incoming (backend_socket r)
                           = (RecvData <$> (x :: c) :: cs) ++ [RecvData []] →
                      t2 r = Receiving → (3 * length cs + 7 ≤ n)%nat →
                      t2 (run (replicate n T2) r) = Finished).
    { intros r1 [|n1] Hin1 H2 Hn1; [lia|]. simpl. rewrite H2. simpl.
      destruct (closed (backend_socket r1)).
      - apply run_closing; [lia | by left].
      - apply Hrecv; [done | done | lia]. }
    simpl in Hn. unfold bytes in *.
    destruct (t2 r) as [| | |sent| | |] eqn:H2; [done| | | | | |].
    + apply Hcall; [done | done | lia].
    + apply Hrecv; [done | done | lia].
    + destruct n as [|n]; [lia|]. simpl. rewrite H2. simpl.
      destruct (closed (client_socket r) || negb (writable (client_socket r))).
      * apply run_closing; [lia | by left].
      * apply Hcall; [done | done | lia].
    + apply run_closing; [lia | by left].
    + apply run_closing; [lia | right; by left].
    + apply run_closing; [lia | right; by right].
Qed.

Lemma answering_relay_starts (from_client : list recv_event) (chunks : list bytes) :
  Forall (fun c => c ≠ []) chunks →
  data_chunks ((RecvData <$> chunks) ++ [RecvData []]) = chunks
  ∧ order_inv from_client ((RecvData <$> chunks) ++ [RecvData []])
      (answering_relay from_client chunks)
  ∧ relay_inv (answering_relay from_client chunks)
  ∧ closing_inv (answering_relay from_client chunks)
  ∧ delivery_inv chunks (answering_relay from_client chunks)
  ∧ backend_speaks (answering_relay from_client chunks).
Proof.
  intros Hne.
  assert (Hfresh : fresh_relay (answering_relay from_client chunks)) by done.
  destruct (fresh_relay_in_order _ Hfresh) as [Ho Hr].
  split_and!; [by apply data_chunks_complete | exact Ho | exact Hr | done | |].
  - by intros [? | [? | ?]].
  - by exists chunks.
Qed.

(** C6, as the code has it.  The backend writes its answer (100 bytes, or
    any other number, in any number of chunks) and closes its side.  At every
    moment of every interleaving: what the client has been sent is a leading
    part of the answer, chunk by chunk; when the backend-to-client thread has
    left its loop, the client has been sent the whole answer unless the
    client-to-backend thread had by then closed the client socket; a
    backend-to-client thread that has finished has closed the client socket
    and the backend socket; the handler has returned only if both threads
    have finished; and the backend-to-client thread, once started, is never
    blocked for good: given its turns it finishes. *)
Theorem tcp_relay_delivery (from_client : list recv_event) (chunks : list bytes)
    (r : relay) :
  Forall (fun c => c ≠ []) chunks →
  rtc steps_to (answering_relay from_client chunks) r →
  delivered (client_socket r) `prefix_of` chunks
  ∧ (left_loop (t2 r) →
     delivered (client_socket r) = chunks ∨ closed_its_source (t1 r))
  ∧ (t2 r = Finished →
     closed (client_socket r) = true ∧ closed (backend_socket r) = true)
  ∧ (handler r = Returned → t1 r = Finished ∧ t2 r = Finished)
  ∧ (t2 r ≠ NotStarted → ∃ n, t2 (run (replicate n T2) r) = Finished).
Proof.
  intros Hne Hreach.
  destruct (answering_relay_starts from_client chunks Hne)
    as (Hchunks & Ho & Hr & Hc & Hd & Hs).
  rewrite <- Hchunks in Hd.
  destruct (reachable_relay from_client _ _ _ Hreach (conj Ho (conj Hc (conj Hd Hs))))
    as ((_ & _ & _ & [Hpre _]) & _ & Hdel & (cs & Hin & Hcs)).
  destruct (reachable_inv _ _ Hreach Hr) as (I1 & I2 & _ & _ & I5 & I6).
  rewrite Hchunks in Hpre, Hdel.
  split_and!.
  - exact Hpre.
  - exact Hdel.
  - intros H2. split; [by apply I6 | apply I5; by right].
  - intros Hret. split; [apply I1; by right | by apply I2].
  - intros Hstarted. exists (3 * length cs + 5)%nat.
    by apply (run_to_the_end cs).
Qed.

Lemma tcp_relay_delivery_witness :
  delivered (client_socket
               (run [Handler; Handler; T1; T1; T2; T2; T2; T2; T2; T2; T2; T2; T2; T2]
                  (answering_relay [RecvData (lit "ping")]
                     [replicate 50 66; replicate 50 66])))
    = [replicate 50 66; replicate 50 66]
  ∨ closed_its_source
      (t1 (run [Handler; Handler; T1; T1; T2; T2; T2; T2; T2; T2; T2; T2; T2; T2]
             (answering_relay [RecvData (lit "ping")]
                [replicate 50 66; replicate 50 66]))).
Proof.
  apply (tcp_relay_delivery [RecvData (lit "ping")] [replicate 50 66; replicate 50 66]
           (run [Handler; Handler; T1; T1; T2; T2; T2; T2; T2; T2; T2; T2; T2; T2]
              (answering_relay [RecvData (lit "ping")]
                 [replicate 50 66; replicate 50 66]))).
  - repeat constructor; discriminate.
  - apply run_reachable.
  - right. right. reflexivity.
Defined.

(** C6 as stated fails: the client has nothing to send and closes its
    sending side; the client-to-backend thread sees the end of stream and
    closes both sockets before the other thread has called [recv].  The
    handler returns and none of the 100 bytes has reached the client. *)
Lemma early_client_eof_cuts_answer :
  ¬ delivers_whole_answer [RecvData []] hundred_bytes.
Proof.
  intros Hclaim.
  destruct (Hclaim [Handler; T1; T1; T1; T1; Handler; T2; T2; T2; Handler; Handler])
    as [Hsent _]; [reflexivity|].
  vm_compute in Hsent. discriminate Hsent.
Qed.

(** A client that keeps its side open and says nothing: the
    client-to-backend thread is inside [recv] when the other thread, having
    delivered the answer, closes both sockets.  It stays there, no thread can
    move any more, and the handler waits in [t1.join()]. *)
Example silent_client_blocks_handler :
  delivered (client_socket
               (run ([Handler; Handler; T1] ++ replicate 7 T2)
                  (answering_relay [] [hundred_bytes]))) = [hundred_bytes]
  ∧ closed (client_socket
              (run ([Handler; Handler; T1] ++ replicate 7 T2)
                 (answering_relay [] [hundred_bytes]))) = true
  ∧ t1 (run ([Handler; Handler; T1] ++ replicate 7 T2)
          (answering_relay [] [hundred_bytes])) = InRecv
  ∧ handler (run ([Handler; Handler; T1] ++ replicate 7 T2)
               (answering_relay [] [hundred_bytes])) = JoinT1
  ∧ ∀ who, step who (run ([Handler; Handler; T1] ++ replicate 7 T2)
                       (answering_relay [] [hundred_bytes])) = None.
Proof. split_and!; try reflexivity. by intros []. Qed.

End RelayAsAWhole.

(** ** The message router: mailboxes *)

Section Mailboxes.
Import Messenger.

(** X19: mailboxes are independent.  Handling a frame changes at most the
    mailbox of the recipient it is accepted for; a draining [get_messages]
    changes at most the mailbox of the user it is called for; and for a user
    without a mailbox it returns nothing and creates nothing. *)
Theorem mailboxes_are_independent (st : TCPMessenger) (f : frame) (now : string)
    (print_ok : bool) (outcomes : list bool) (user_email : string) (k' : pykey) :
  ((∀ k fields, deliverable f = Some (k, fields) → k ≠ k') →
   message_queue (_handle_client st f now print_ok outcomes).1 !! k'
   = message_queue st !! k')
  ∧ (k' ≠ KStr user_email →
     message_queue (get_messages st user_email true).2 !! k' = message_queue st !! k')
  ∧ (message_queue st !! KStr user_email = None →
     get_messages st user_email true = ([], st)).
Proof.
  split_and!.
  - intros Hother.
    destruct (deliverable f) as [[k fields]|] eqn:Hd.
    + destruct (handle_client_enqueues st f now print_ok outcomes k fields Hd)
        as [Happ _].
      unfold appended in Happ. rewrite Happ.
      apply lookup_insert_ne. by eapply Hother.
    + by destruct (handle_client_refuses st f now print_ok outcomes Hd) as [-> _].
  - intros Hne. unfold get_messages, get_messages_copy, get_messages_reset.
    destruct (message_queue st !! KStr user_email); [|done]. simpl.
    by apply lookup_insert_ne.
  - intros Hnone. unfold get_messages, get_messages_copy. by rewrite Hnone.
Qed.

Lemma mailboxes_are_independent_witness :
  message_queue (get_messages one_queued "carol@example.com" true).2
    !! KStr "bob@example.com"
  = message_queue one_queued !! KStr "bob@example.com".
Proof.
  apply (proj1 (proj2 (mailboxes_are_independent one_queued FrameEmpty "" true []
                         "carol@example.com" (KStr "bob@example.com")))).
  discriminate.
Defined.

(** X20: a mailbox is first in, first out.  Two frames accepted for the
    same recipient, one after the other, leave their records behind what was
    already queued, in the order of arrival, and a poll returns them in that
    order. *)
Theorem mailbox_is_fifo (st : TCPMessenger) (f1 f2 : frame) (now1 now2 : string)
    (print_ok1 print_ok2 : bool) (outcomes1 outcomes2 : list bool) (k : pykey)
    (fields1 fields2 : list (string * json)) :
  deliverable f1 = Some (k, fields1) →
  deliverable f2 = Some (k, fields2) →
  message_queue
    (_handle_client (_handle_client st f1 now1 print_ok1 outcomes1).1 f2 now2
       print_ok2 outcomes2).1 !! k
  = Some (default [] (message_queue st !! k)
          ++ [stamped fields1 now1; stamped fields2 now2])
  ∧ ∀ user_email, k = KStr user_email →
      (get_messages
         (_handle_client (_handle_client st f1 now1 print_ok1 outcomes1).1 f2 now2
            print_ok2 outcomes2).1
         user_email true).1
      = default [] (message_queue st !! k) ++ [stamped fields1 now1; stamped fields2 now2].
Proof.
  intros Hd1 Hd2.
  destruct (handle_client_enqueues st f1 now1 print_ok1 outcomes1 k fields1 Hd1)
    as [Happ1 _].
  destruct (handle_client_enqueues (_handle_client st f1 now1 print_ok1 outcomes1).1
              f2 now2 print_ok2 outcomes2 k fields2 Hd2) as [Happ2 _].
  unfold appended in *.
  assert (Hq : message_queue
                 (_handle_client (_handle_client st f1 now1 print_ok1 outcomes1).1
                    f2 now2 print_ok2 outcomes2).1 !! k
               = Some (default [] (message_queue st !! k)
                       ++ [stamped fields1 now1; stamped fields2 now2])).
  { rewrite Happ2, lookup_insert_eq, Happ1, lookup_insert_eq. simpl.
    by rewrite <- app_assoc. }
  split; [exact Hq|]. intros user_email ->.
  unfold get_messages, get_messages_copy. by rewrite Hq.
Qed.

Lemma mailbox_is_fifo_witness :
  (get_messages
     (_handle_client
        (_handle_client new_messenger
           (FrameJson (JObj (packet "alice" "bob" "one" false "t0"))) "t1" true []).1
        (FrameJson (JObj (packet "carol" "bob" "two" false "t0"))) "t2" true []).1
     "bob" true).1
  = default [] (message_queue new_messenger !! KStr "bob")
    ++ [stamped (packet "alice" "bob" "one" false "t0") "t1";
        stamped (packet "carol" "bob" "two" false "t0") "t2"].
Proof.
  apply (mailbox_is_fifo new_messenger
           (FrameJson (JObj (packet "alice" "bob" "one" false "t0")))
           (FrameJson (JObj (packet "carol" "bob" "two" false "t0")))
           "t1" "t2" true true [] [] (KStr "bob")
           (packet "alice" "bob" "one" false "t0")
           (packet "carol" "bob" "two" false "t0")).
  - reflexivity.
  - reflexivity.
  - reflexivity.
Defined.

(** X21: [get_messages] with [mark_read=False] only looks: it returns the
    queue of the user and leaves the messenger as it was, so that the next
    call returns the same; and [has_messages] is true exactly when such a
    look returns something. *)
Theorem peeking_changes_nothing (st : TCPMessenger) (user_email : string) :
  (get_messages st user_email false).2 = st
  ∧ (get_messages st user_email false).1 = (get_messages st user_email true).1
  ∧ (has_messages st user_email = true ↔ (get_messages st user_email false).1 ≠ []).
Proof.
  unfold get_messages, get_messages_copy, has_messages.
  destruct (message_queue st !! KStr user_email) as [[|m ms]|]; simpl;
    split_and!; try done; split; done.
Qed.

(** X22: what [send_message] reports and what the router did.  [True] is
    reported only for a message that was queued for its recipient.  The
    converse fails: whenever the frame arrives whole and the recipient is not
    the empty string the record is queued, and [True] is reported only if,
    in addition, the sender reads the answer, the acknowledgment was written
    and the lines naming sender and recipient are printed; otherwise the
    report is [False] for a message that is in the queue.  When the
    connection fails, the frame arrives cut short or the recipient is the
    empty string, the queues are left as they were and the report is
    [False]. *)
Theorem send_report_and_queue (st : TCPMessenger) (A B body sent_at received_at : string)
    (encrypted : bool) (net : network) (print_ok : bool) (outcomes : list bool) :
  (net = Intact → B ≠ EmptyString →
   appended st
     (send_message st A B body encrypted sent_at received_at net print_ok outcomes).1
     (KStr B) (stamped (packet A B body encrypted sent_at) received_at)
   ∧ (send_message st A B body encrypted sent_at received_at net print_ok outcomes).2
     = (client_send outcomes).1 && print_ok)
  ∧ (net = Unanswered → B ≠ EmptyString →
     appended st
       (send_message st A B body encrypted sent_at received_at net print_ok outcomes).1
       (KStr B) (stamped (packet A B body encrypted sent_at) received_at)
     ∧ (send_message st A B body encrypted sent_at received_at net print_ok outcomes).2
       = false)
  ∧ (net = Unreachable ∨ net = Truncated ∨ B = EmptyString →
     send_message st A B body encrypted sent_at received_at net print_ok outcomes
     = (st, false))
  ∧ ((send_message st A B body encrypted sent_at received_at net print_ok outcomes).2
       = true →
     net = Intact ∧ B ≠ EmptyString).
Proof.
  destruct (send_message_intact st A B body sent_at received_at encrypted print_ok
              outcomes) as [Hempty Hup].
  assert (Hlate : send_message st A B body encrypted sent_at received_at Unanswered
                    print_ok outcomes
                  = ((send_message st A B body encrypted sent_at received_at Intact
                        print_ok outcomes).1, false)).
  { unfold send_message.
    destruct (_handle_client st _ received_at print_ok outcomes) as [st' actions].
    by destruct (first_ack actions). }
  split_and!.
  - intros -> HB. by apply Hup.
  - intros -> HB. destruct (Hup HB) as [Happ _]. by rewrite Hlate.
  - intros [-> | [-> | HB]]; [done | done |].
    destruct net; [done | done | by apply Hempty |].
    rewrite Hlate, (Hempty HB). done.
  - intros Htrue. destruct net; [done | done | | by rewrite Hlate in Htrue].
    split; [done|]. intros HB. by rewrite (Hempty HB) in Htrue.
Qed.

Lemma send_report_and_queue_witness :
  appended new_messenger
    (send_message new_messenger "alice" "bob" "hello" false "t0" "t1" Intact false
       []).1
    (KStr "bob") (stamped (packet "alice" "bob" "hello" false "t0") "t1")
  ∧ (send_message new_messenger "alice" "bob" "hello" false "t0" "t1" Intact false
       []).2 = (client_send []).1 && false.
Proof.
  apply (proj1 (send_report_and_queue new_messenger "alice" "bob" "hello" "t0" "t1"
                  false Intact false [])).
  - reflexivity.
  - discriminate.
Defined.

End Mailboxes.

(** ** The UDP messenger *)

Section Datagrams.
Import Messenger.

(** The queue of the UDP messenger grew by the record of [fields] received
    at [now] in mailbox [k]: the fields with the server's time, and no
    [delivered] mark. *)
Lemma handle_datagram_enqueues (st : UDP.UDPMessenger) (f : frame) (now : string)
    (print_ok ack_ok : bool) (k : pykey) (fields : list (string * json)) :
  deliverable f = Some (k, fields) →
  UDP.handle_datagram st f now print_ok ack_ok
  = ({| UDP.message_queue :=
          <[k := default [] (UDP.message_queue st !! k)
                 ++ [JObj (dict_set "timestamp" (JStr now) fields)]]>
            (UDP.message_queue st) |},
     print_ok && ack_ok).
Proof.
  unfold deliverable, UDP.handle_datagram.
  destruct f as [e| |[| | | | |message_data]]; try done.
  destruct (dict_get "recipient" message_data) as [recipient|]; [|done].
  destruct (truthy recipient); [|done].
  destruct (key_of recipient) as [k'|]; [|done].
  intros [= -> ->]. simpl. do 2 f_equal.
  destruct (UDP.message_queue st !! k) as [old|] eqn:Hold; simpl.
  - by rewrite Hold.
  - by rewrite lookup_insert_eq, insert_insert_eq.
Qed.

Lemma handle_datagram_drops (st : UDP.UDPMessenger) (f : frame) (now : string)
    (print_ok ack_ok : bool) :
  deliverable f = None → UDP.handle_datagram st f now print_ok ack_ok = (st, false).
Proof.
  unfold deliverable, UDP.handle_datagram.
  destruct f as [e| |[| | | | |message_data]]; try done.
  destruct (dict_get "recipient" message_data) as [recipient|]; [|done].
  destruct (truthy recipient); [|done].
  by destruct (key_of recipient).
Qed.

(** X23: the UDP server answers only what it queued.  An acknowledgment
    leaves the server only for a datagram whose record was appended to the
    mailbox of its recipient; a datagram that does not parse, is no object,
    or has no usable recipient changes nothing and gets no answer at all
    (the TCP router answers those with an error). *)
Theorem udp_ack_means_queued (st : UDP.UDPMessenger) (f : frame) (now : string)
    (print_ok ack_ok : bool) :
  ((UDP.handle_datagram st f now print_ok ack_ok).2 = true →
   print_ok = true ∧ ack_ok = true
   ∧ ∃ k fields,
       deliverable f = Some (k, fields)
       ∧ UDP.message_queue (UDP.handle_datagram st f now print_ok ack_ok).1
         = <[k := default [] (UDP.message_queue st !! k)
                  ++ [JObj (dict_set "timestamp" (JStr now) fields)]]>
             (UDP.message_queue st))
  ∧ (deliverable f = None → UDP.handle_datagram st f now print_ok ack_ok = (st, false))
  ∧ (deliverable f = None → f ≠ FrameEmpty →
     ∃ a, first_ack (_handle_client new_messenger f now print_ok []).2 = Some a
          ∧ ack_status a = "error").
Proof.
  split_and!.
  - destruct (deliverable f) as [[k fields]|] eqn:Hd.
    + rewrite (handle_datagram_enqueues st f now print_ok ack_ok k fields Hd). simpl.
      intros [-> ->]%andb_prop. split; [done|]. split; [done|]. by exists k, fields.
    + by rewrite (handle_datagram_drops st f now print_ok ack_ok Hd).
  - apply handle_datagram_drops.
  - intros Hd Hne.
    destruct (handle_client_refuses new_messenger f now print_ok [] Hd)
      as [_ [[? _] | [_ Ha]]];
      [done|].
    destruct Ha as (a & Hstatus & Hsend).
    exists a. split; [|done]. by rewrite Hsend.
Qed.

Lemma udp_ack_means_queued_witness :
  UDP.handle_datagram UDP.new_messenger empty_recipient_frame "t1" true true
  = (UDP.new_messenger, false).
Proof.
  apply (proj1 (proj2 (udp_ack_means_queued UDP.new_messenger empty_recipient_frame
                         "t1" true true))).
  reflexivity.
Defined.

(** X24: [UDPMessenger.send_message] returns [True] without knowing what
    became of the message.  Once [socket.socket] and [sendto] have succeeded
    it returns [True] in every case: the datagram lost, cut short, refused by
    the server, or queued, the acknowledgment sent, not sent or lost.  The
    record is queued exactly when the datagram arrives whole with a recipient
    that is not the empty string, and then it carries the server's time in
    place of the sender's.  Before that point nothing is queued, and the
    call returns [False] when [sendto] raises and raises itself when the
    socket could not be created. *)
Theorem udp_report_is_not_delivery (st : UDP.UDPMessenger)
    (A B body sent_at received_at : string) (encrypted : bool) (env : UDP.udp_env) :
  (UDP.socket_ok env = true → UDP.sendto_ok env = true →
   (UDP.send_message st A B body encrypted sent_at received_at env).2 = UDP.Returns true
   ∧ (UDP.way env = UDP.Whole → B ≠ EmptyString →
      UDP.message_queue
        (UDP.send_message st A B body encrypted sent_at received_at env).1
      = <[KStr B := default [] (UDP.message_queue st !! KStr B)
                    ++ [JObj (dict_set "timestamp" (JStr received_at)
                                (packet A B body encrypted sent_at))]]>
          (UDP.message_queue st))
   ∧ (UDP.way env ≠ UDP.Whole ∨ B = EmptyString →
      (UDP.send_message st A B body encrypted sent_at received_at env).1 = st))
  ∧ (UDP.socket_ok env = false ∨ UDP.sendto_ok env = false →
     (UDP.send_message st A B body encrypted sent_at received_at env).1 = st
     ∧ (UDP.send_message st A B body encrypted sent_at received_at env).2
       = if UDP.socket_ok env then UDP.Returns false else UDP.RaisesUnboundLocalError).
Proof.
  split.
  - intros Hsocket Hsendto. unfold UDP.send_message. rewrite Hsocket, Hsendto.
    set (f := FrameJson (JObj (packet A B body encrypted sent_at))).
    assert (Hwhole : B ≠ EmptyString →
              deliverable f = Some (KStr B, packet A B body encrypted sent_at)).
    { intros HB. unfold f, deliverable. simpl.
      destruct (String.eqb B EmptyString) eqn:Heq; [|done].
      by apply String.eqb_eq in Heq. }
    assert (Hempty : B = EmptyString → deliverable f = None).
    { intros ->. done. }
    destruct (UDP.way env) eqn:Hway.
    + simpl. split_and!; [done | done | done].
    + rewrite handle_datagram_drops by done. simpl. split_and!; [done | done | done].
    + destruct (String.eqb B EmptyString) eqn:Heq.
      * apply String.eqb_eq in Heq.
        rewrite handle_datagram_drops by by apply Hempty. simpl.
        split_and!; [done | done | done].
      * apply String.eqb_neq in Heq.
        rewrite (handle_datagram_enqueues _ _ _ _ _ _ _ (Hwhole Heq)).
        split_and!.
        -- destruct (UDP.print_ok env); simpl; [|done].
           by destruct (UDP.ack_ok env && UDP.ack_returns env).
        -- intros _ _.
           by destruct (UDP.print_ok env && UDP.ack_ok env && UDP.ack_returns env).
        -- intros [? | ?]; done.
  - intros [Hsocket | Hsendto]; unfold UDP.send_message.
    + by rewrite Hsocket.
    + rewrite Hsendto. by destruct (UDP.socket_ok env).
Qed.

Lemma udp_report_is_not_delivery_witness :
  (UDP.send_message UDP.new_messenger "alice" "" "hello" false "t0" "t1"
     {| UDP.socket_ok := true; UDP.sendto_ok := true; UDP.way := UDP.Whole;
        UDP.print_ok := true; UDP.ack_ok := true; UDP.ack_returns := true |}).2
  = UDP.Returns true
  ∧ (UDP.send_message UDP.new_messenger "alice" "" "hello" false "t0" "t1"
       {| UDP.socket_ok := true; UDP.sendto_ok := true; UDP.way := UDP.Whole;
          UDP.print_ok := true; UDP.ack_ok := true; UDP.ack_returns := true |}).1
    = UDP.new_messenger.
Proof.
  destruct (proj1 (udp_report_is_not_delivery UDP.new_messenger "alice" "" "hello"
                     "t0" "t1" false
                     {| UDP.socket_ok := true; UDP.sendto_ok := true;
                        UDP.way := UDP.Whole; UDP.print_ok := true;
                        UDP.ack_ok := true; UDP.ack_returns := true |})
              eq_refl eq_refl) as (Hret & _ & Hst).
  split; [exact Hret|]. apply Hst. by right.
Defined.

End Datagrams.
